(** * The centreline network routing engine of flatmap-maker

    A shallow embedding of [mapmaker/routing/__init__.py] (the centreline
    network, its geometry binder and its route-graph extractor) and of the
    [Route] class of [mapmaker/properties/pathways.py], with the properties
    the specification states about them.

    Conventions.
    - Python [dict]s keep insertion order, and several loops of the source
      depend on it: they are association lists ([dict]).
    - The attribute dictionaries that networkx hangs on nodes and edges are
      shared objects: they live in a store ([heap]) and graphs hold
      references to them.
    - Python [float]s are IEEE doubles ([PrimFloat.float]).  The numeric
      loops are written once over an interface ([Num]) that is instantiated
      with doubles (what runs: the statements about the program are about
      this instance, or about every instance) and with exact rationals
      (worked examples).
    - A Python exception is a value of [exn]; code that can raise returns a
      [result]. *)

From Stdlib Require Import ZArith QArith Qabs Lia Lqa.
From Stdlib Require Import Floats.
From Stdlib Require Import Ascii String.
From stdpp Require Import base option list strings relations.

Set Default Proof Using "Type".
Set Warnings "-inexact-float,-register-all".
Local Open Scope string_scope.
Local Open Scope list_scope.
Local Open Scope nat_scope.

(** A closed decidable statement, by running its decision procedure. *)
Ltac by_decision := apply (bool_decide_unpack _); vm_compute; exact I.

(** ** Python basics *)

Inductive exn : Type :=
| ValueError (msg : string)
| IndexError
| TypeError
| KeyError (key : string)
| UnboundLocalError (var : string)
| NodeNotFound (node : string)
| NetworkXNoPath (source target : string)
| NetworkXError (msg : string)
| AttributeError
| AssertionError
| ZeroDivisionError.

(** What running a piece of code gives: a value, an exception, or (for the
    loops of the source that have no bound of their own) no answer within
    the given number of iterations. *)
Inductive result (A : Type) : Type :=
| Ok (a : A)
| Raise (e : exn)
| OutOfFuel.
Arguments Ok {A} a.
Arguments Raise {A} e.
Arguments OutOfFuel {A}.

Definition raises {A} (r : result A) : Prop := ∃ e, r = Raise e.

Definition rbind {A B} (r : result A) (k : A → result B) : result B :=
  match r with
  | Ok a => k a
  | Raise e => Raise e
  | OutOfFuel => OutOfFuel
  end.

Fixpoint rmap {A B} (f : A → result B) (l : list A) : result (list B) :=
  match l with
  | [] => Ok []
  | a :: l' => rbind (f a) (fun b => rbind (rmap f l') (fun bs => Ok (b :: bs)))
  end.

(** [l[1:-1]]. *)
Definition middle {A} (l : list A) : list A := removelast (tail l).

(** ** Python dictionaries

    A [dict] iterates in insertion order; assigning to a key that is
    present keeps its place. *)

Abbreviation dict K V := (list (K * V)) (only parsing).

Section Dict.
Context {K V : Type} `{EqDecision K}.

Fixpoint dget (k : K) (d : dict K V) : option V :=
  match d with
  | [] => None
  | (k', v) :: d' => if decide (k = k') then Some v else dget k d'
  end.

Fixpoint dset (k : K) (v : V) (d : dict K V) : dict K V :=
  match d with
  | [] => [(k, v)]
  | (k', v') :: d' => if decide (k = k') then (k, v) :: d' else (k', v') :: dset k v d'
  end.

Definition dkeys (d : dict K V) : list K := map fst d.

Definition dmem (k : K) (d : dict K V) : bool := bool_decide (is_Some (dget k d)).

(** [d.get(k, default)]. *)
Definition dget_default (k : K) (default : V) (d : dict K V) : V :=
  match dget k d with
  | Some v => v
  | None => default
  end.

(** [d.update(other)]. *)
Definition dupdate (d other : dict K V) : dict K V :=
  fold_left (fun acc kv => dset kv.1 kv.2 acc) other d.

Lemma dget_dset_eq (k : K) (v : V) (d : dict K V) : dget k (dset k v d) = Some v.
Proof.
  induction d as [|[k' v'] d IH]; simpl.
  - by rewrite decide_True.
  - destruct (decide (k = k')) as [->|Hne]; simpl.
    + by rewrite decide_True.
    + by rewrite decide_False.
Qed.

Lemma dget_dset_ne (k k' : K) (v : V) (d : dict K V) :
  k ≠ k' → dget k' (dset k v d) = dget k' d.
Proof.
  intros Hne. induction d as [|[k0 v0] d IH]; simpl.
  - by rewrite decide_False.
  - destruct (decide (k = k0)) as [->|Hne0]; simpl.
    + by rewrite !decide_False.
    + destruct (decide (k' = k0)); [done|apply IH].
Qed.

Lemma dget_dset (k k' : K) (v : V) (d : dict K V) :
  dget k' (dset k v d) = if decide (k = k') then Some v else dget k' d.
Proof.
  destruct (decide (k = k')) as [->|Hne]; [apply dget_dset_eq|by apply dget_dset_ne].
Qed.

Lemma dget_Some_keys (k : K) (v : V) (d : dict K V) : dget k d = Some v → k ∈ dkeys d.
Proof.
  induction d as [|[k' v'] d IH]; simpl; [done|].
  destruct (decide (k = k')) as [->|Hne]; [intros _; left|intros Hd; right; by apply IH].
Qed.

Lemma dget_None_keys (k : K) (d : dict K V) : dget k d = None ↔ k ∉ dkeys d.
Proof.
  induction d as [|[k' v'] d IH]; simpl.
  - split; [intros _; apply not_elem_of_nil|done].
  - rewrite not_elem_of_cons. destruct (decide (k = k')) as [->|Hne].
    + split; [done|]. by intros [? _].
    + rewrite IH. tauto.
Qed.

Lemma dmem_keys (k : K) (d : dict K V) : dmem k d = true ↔ k ∈ dkeys d.
Proof.
  unfold dmem. rewrite bool_decide_eq_true.
  destruct (dget k d) as [v|] eqn:Hd.
  - split; [intros _; by eapply dget_Some_keys|by eexists].
  - apply dget_None_keys in Hd. split; [by intros [? ?]|done].
Qed.

Lemma dmem_dset (k k' : K) (v : V) (d : dict K V) :
  dmem k' (dset k v d) = if decide (k = k') then true else dmem k' d.
Proof.
  unfold dmem. rewrite dget_dset. destruct (decide (k = k')); [|done].
  apply bool_decide_eq_true. by eexists.
Qed.

Lemma dkeys_dset (k : K) (v : V) (d : dict K V) :
  dkeys (dset k v d) = if dmem k d then dkeys d else dkeys d ++ [k].
Proof.
  induction d as [|[k' v'] d IH]; simpl; [done|].
  unfold dmem in *. simpl. destruct (decide (k = k')) as [->|Hne]; simpl.
  - done.
  - rewrite IH. unfold dkeys. destruct (bool_decide _); done.
Qed.

Lemma length_dset (k : K) (v : V) (d : dict K V) :
  length (dset k v d) = if dmem k d then length d else S (length d).
Proof.
  unfold dkeys. rewrite <- (length_map fst (dset k v d)), <- (length_map fst d).
  fold (dkeys (dset k v d)). fold (dkeys d). rewrite dkeys_dset.
  destruct (dmem k d); [done|]. rewrite length_app. simpl. lia.
Qed.

Lemma dset_same (k : K) (v : V) (d : dict K V) : dget k d = Some v → dset k v d = d.
Proof.
  induction d as [|[k' v'] d IH]; simpl; [done|].
  destruct (decide (k = k')) as [->|Hne]; [by intros [= ->]|intros Hd; by rewrite IH].
Qed.

Lemma NoDup_dkeys_dset (k : K) (v : V) (d : dict K V) :
  NoDup (dkeys d) → NoDup (dkeys (dset k v d)).
Proof.
  intros Hnd. rewrite dkeys_dset. destruct (dmem k d) eqn:Hm; [done|].
  apply NoDup_app. split; [done|]. split; [|apply NoDup_singleton].
  intros x Hx Hx'. apply list_elem_of_singleton in Hx' as ->.
  apply dmem_keys in Hx. congruence.
Qed.

Lemma dget_dupdate (k : K) (other : dict K V) : ∀ d : dict K V,
  NoDup (dkeys other) →
  dget k (dupdate d other) = match dget k other with Some v => Some v | None => dget k d end.
Proof.
  unfold dupdate. induction other as [|[k0 v0] other IH]; intros d Hnd; [done|].
  simpl in Hnd. apply NoDup_cons in Hnd as [Hk0 Hnd]. simpl. rewrite (IH _ Hnd).
  destruct (decide (k = k0)) as [->|Hne].
  - apply dget_None_keys in Hk0. rewrite Hk0. apply dget_dset_eq.
  - rewrite dget_dset_ne by done. done.
Qed.

End Dict.

(** ** Route requests ([mapmaker/properties/pathways.py]) *)

Module Pathways.

(** A route request is what a path's ['route'] entry holds: a string in the
    route syntax, or a list whose first and last items are a node id or a
    list of node ids. *)
Inductive route_item : Type :=
| ItemStr (s : string)
| ItemList (ids : list string).

Inductive route_request : Type :=
| RouteStr (s : string)
| RouteList (items : list route_item).

(** An entry of the parsed list: a bare id, or a group of ids (a pyparsing
    [Group], a [ParseResults] or a list). *)
Inductive route_node : Type :=
| Single (id : string)
| Grouped (ids : list string).

Section Grammar.

(** [ID_TEXT] comes from [mapmaker.sources.markup]: a pyparsing [Word],
    given here by the characters it may start with and continue with. *)
Variable id_init : ascii → bool.
Variable id_body : ascii → bool.

Definition is_space (c : ascii) : bool :=
  (Ascii.eqb c " " || Ascii.eqb c "009" || Ascii.eqb c "010" || Ascii.eqb c "013")%char.

(** pyparsing skips white space before every token. *)
Fixpoint skip_ws (s : string) : string :=
  match s with
  | String c r => if is_space c then skip_ws r else s
  | EmptyString => s
  end.

Fixpoint span (p : ascii → bool) (s : string) : string * string :=
  match s with
  | String c r => if p c then let '(w, rest) := span p r in (String c w, rest) else (EmptyString, s)
  | EmptyString => (EmptyString, EmptyString)
  end.

(** [Word(init, body)]. *)
Definition NODE_ID (s : string) : option (string * string) :=
  match skip_ws s with
  | String c r => if id_init c then let '(w, rest) := span id_body r in Some (String c w, rest) else None
  | EmptyString => None
  end.

(** [Suppress(c)]. *)
Definition Suppress (c : ascii) (s : string) : option string :=
  match skip_ws s with
  | String c' r => if Ascii.eqb c c' then Some r else None
  | EmptyString => None
  end.

(** The [ZeroOrMore(Suppress(',') + expr)] tail of a [delimitedList]: a
    comma that no [expr] follows is not consumed. *)
Fixpoint delimited_tail {A} (expr : string → option (A * string)) (fuel : nat) (s : string)
  : list A * string :=
  match fuel with
  | O => ([], s)
  | S fuel' =>
      match Suppress "," s with
      | Some r =>
          match expr r with
          | Some (a, r') => let '(l, r'') := delimited_tail expr fuel' r' in (a :: l, r'')
          | None => ([], s)
          end
      | None => ([], s)
      end
  end.

Definition delimitedList {A} (expr : string → option (A * string)) (s : string)
  : option (list A * string) :=
  match expr s with
  | Some (a, r) => let '(l, r') := delimited_tail expr (String.length r) r in Some (a :: l, r')
  | None => None
  end.

(** [ROUTE_NODE_GROUP = NODE_ID | Group(Suppress('(') + delimitedList(NODE_ID) + Suppress(')'))]. *)
Definition ROUTE_NODE_GROUP (s : string) : option (route_node * string) :=
  match NODE_ID s with
  | Some (id, r) => Some (Single id, r)
  | None =>
      match Suppress "(" s with
      | Some r =>
          match delimitedList NODE_ID r with
          | Some (ids, r') =>
              match Suppress ")" r' with
              | Some r'' => Some (Grouped ids, r'')
              | None => None
              end
          | None => None
          end
      | None => None
      end
  end.

(** [expr.parseString(s, parseAll=True)]: [None] is a [ParseException]. *)
Definition parseAll {A} (expr : string → option (A * string)) (s : string) : option A :=
  match expr s with
  | Some (a, r) => match skip_ws r with EmptyString => Some a | _ => None end
  | None => None
  end.

Definition ROUTE_NODES : string → option (list route_node * string) :=
  delimitedList ROUTE_NODE_GROUP.

Definition syntax_error : exn := ValueError "Syntax error in route node list".

(** [NODE_ID.parseString(id)[0]], with the [ParseException] already turned
    into the [ValueError] of the enclosing [try]. *)
Definition parse_node_id (id : string) : result string :=
  match NODE_ID id with
  | Some (w, _) => Ok w
  | None => Raise syntax_error
  end.

(** The first and the last item of a list request. *)
Definition parse_end_item (it : route_item) : result route_node :=
  match it with
  | ItemStr s => rbind (parse_node_id s) (fun w => Ok (Grouped [w]))
  | ItemList ids => rbind (rmap parse_node_id ids) (fun ws => Ok (Grouped ws))
  end.

(** An item of [node_ids[1:-1]]: the source hands it to [parseString], which
    wants a string. *)
Definition parse_middle_item (it : route_item) : result route_node :=
  match it with
  | ItemStr s => rbind (parse_node_id s) (fun w => Ok (Single w))
  | ItemList _ => Raise TypeError
  end.

Definition parse_route_nodes (node_ids : route_request) : result (list route_node) :=
  match node_ids with
  | RouteStr s =>
      match parseAll ROUTE_NODES s with
      | Some route_nodes => Ok route_nodes
      | None => Raise syntax_error
      end
  | RouteList items =>
      match head items, last items with
      | Some first, Some final =>
          rbind (parse_end_item first) (fun n0 =>
          rbind (rmap parse_middle_item (middle items)) (fun mid =>
          rbind (parse_end_item final) (fun n1 =>
          Ok ([n0] ++ mid ++ [n1]))))
      | _, _ => Raise IndexError
      end
  end.

(** [Pathways.make_list]. *)
Definition make_list (n : route_node) : list string :=
  match n with
  | Single id => [id]
  | Grouped ids => ids
  end.

Record Route : Type := mkRoute {
  path_id : string;
  start_nodes : list string;
  through_nodes : list string;
  end_nodes : list string
}.

Definition too_short (path_id : string) : exn :=
  ValueError ("Route definition is too short for path " +:+ path_id).

(** [Route.__init__]. *)
Definition Route_init (path_id : string) (route : route_request) : result Route :=
  rbind (parse_route_nodes route) (fun routing =>
  if decide (length routing < 2) then Raise (too_short path_id)
  else
    match head routing, last routing with
    | Some first, Some final =>
        Ok (mkRoute path_id (make_list first)
                    (concat (map make_list (middle routing)))
                    (make_list final))
    | _, _ => Raise IndexError
    end).

(** *** The caller: [Pathways.__extend_pathways] *)

Inductive lines_request : Type :=
| LinesStr (s : string)
| LinesList (ids : list string).

(** An entry of a [paths_list]: the keys of the dictionary that the loop
    looks at. *)
Record path_decl : Type := mkPath {
  decl_id : string;
  decl_path : option lines_request;
  decl_route : option route_request;
  decl_nerves : option string;
  decl_type : option string;
  decl_models : option string
}.

Definition lines_error : exn := ValueError "Syntax error in path lines list".
Definition nerves_error : exn := ValueError "Syntax error in nerve list".
Definition no_route (path_id : string) : exn :=
  ValueError ("Path doesn't have a route: " +:+ path_id).

Definition parse_path_lines (line_ids : lines_request) : result (list string) :=
  match line_ids with
  | LinesStr s =>
      match parseAll (delimitedList NODE_ID) s with
      | Some path_lines => Ok path_lines
      | None => Raise lines_error
      end
  | LinesList ids =>
      rmap (fun line_id => match NODE_ID line_id with
                           | Some (w, _) => Ok w
                           | None => Raise lines_error
                           end) ids
  end.

Definition parse_nerves (node_ids : string) : result (list string) :=
  match parseAll (delimitedList NODE_ID) node_ids with
  | Some nerves => Ok nerves
  | None => Raise nerves_error
  end.

(** The fields of a [Pathways] object (and of the connectivity model it is
    extending) that [__extend_pathways] assigns to.  [connectivity_model] is
    the model being extended, as a reference into
    [self.__connectivity_models], and [model_path_ids] its [path_ids]. *)
Record pathways : Type := mkPathways {
  model_path_ids : list string;
  routes_by_path_id : dict string Route;
  types_by_path_id : dict string string;
  path_models : dict string string;
  lines_by_path_id : dict string (list string);
  nerves_by_path_id : dict string (list string);
  paths_by_line_id : dict string (list string);
  paths_by_nerve_id : dict string (list string);
  connectivity_model : nat;
  connectivity_by_path : dict string nat
}.

(** The two local dictionaries of the method. *)
Definition locals : Type := dict string (list string) * dict string (list string).

Definition opt_set {V} (k : string) (o : option V) (d : dict string V) : dict string V :=
  match o with
  | Some v => dset k v d
  | None => d
  end.

(** One turn of [for path in paths_list]: the objects as they are when the
    turn ends or raises. *)
Definition extend_one (self : pathways) (loc : locals) (path : path_decl)
  : result unit * pathways * locals :=
  let path_id := decl_id path in
  let self := mkPathways (model_path_ids self ++ [path_id]) (routes_by_path_id self)
                (types_by_path_id self) (path_models self) (lines_by_path_id self)
                (nerves_by_path_id self) (paths_by_line_id self) (paths_by_nerve_id self)
                (connectivity_model self)
                (dset path_id (connectivity_model self) (connectivity_by_path self)) in
  match decl_path path with
  | None => (Ok (), self, loc)
  | Some line_ids =>
      match parse_path_lines line_ids with
      | Raise e => (Raise e, self, loc)
      | OutOfFuel => (OutOfFuel, self, loc)
      | Ok lines =>
          let loc := (if decide (lines = []) then loc.1
                      else dset path_id (dget_default path_id [] loc.1 ++ lines) loc.1, loc.2) in
          match decl_route path with
          | None => (Raise (no_route path_id), self, loc)
          | Some route =>
              match Route_init path_id route with
              | Raise e => (Raise e, self, loc)
              | OutOfFuel => (OutOfFuel, self, loc)
              | Ok r =>
                  let self := mkPathways (model_path_ids self)
                                (dset path_id r (routes_by_path_id self))
                                (types_by_path_id self) (path_models self)
                                (lines_by_path_id self) (nerves_by_path_id self)
                                (paths_by_line_id self) (paths_by_nerve_id self)
                                (connectivity_model self) (connectivity_by_path self) in
                  match
                    match decl_nerves path with
                    | Some n => rbind (parse_nerves n) (fun l => Ok (Some l))
                    | None => Ok None
                    end
                  with
                  | Raise e => (Raise e, self, loc)
                  | OutOfFuel => (OutOfFuel, self, loc)
                  | Ok nerves =>
                      (Ok (),
                       mkPathways (model_path_ids self) (routes_by_path_id self)
                         (opt_set path_id (decl_type path) (types_by_path_id self))
                         (opt_set path_id (decl_models path) (path_models self))
                         (lines_by_path_id self) (nerves_by_path_id self)
                         (paths_by_line_id self) (paths_by_nerve_id self)
                         (connectivity_model self) (connectivity_by_path self),
                       (loc.1, opt_set path_id nerves loc.2))
                  end
              end
          end
      end
  end.

Fixpoint extend_loop (self : pathways) (loc : locals) (paths_list : list path_decl)
  : result unit * pathways * locals :=
  match paths_list with
  | [] => (Ok (), self, loc)
  | path :: rest =>
      match extend_one self loc path with
      | (Ok _, self', loc') => extend_loop self' loc' rest
      | stopped => stopped
      end
  end.

(** [for path_id, ids in by_path.items(): for id in ids: index[id].append(path_id)]. *)
Definition index_paths (by_path : dict string (list string))
    (index : dict string (list string)) : dict string (list string) :=
  fold_left (fun acc kv =>
    fold_left (fun acc id => dset id (dget_default id [] acc ++ [kv.1]) acc) kv.2 acc)
    by_path index.

Definition extend_pathways (self : pathways) (paths_list : list path_decl)
  : result unit * pathways :=
  match extend_loop self ([], []) paths_list with
  | (Ok _, self, loc) =>
      (Ok (),
       mkPathways (model_path_ids self) (routes_by_path_id self)
         (types_by_path_id self) (path_models self)
         (dupdate (lines_by_path_id self) loc.1)
         (dupdate (nerves_by_path_id self) loc.2)
         (index_paths loc.1 (paths_by_line_id self))
         (index_paths loc.2 (paths_by_nerve_id self))
         (connectivity_model self) (connectivity_by_path self))
  | (stopped, self, _) => (stopped, self)
  end.

(** *** What raises *)

Lemma rbind_raises {A B} (r : result A) (k : A → result B) :
  raises (rbind r k) ↔ raises r ∨ ∃ a, r = Ok a ∧ raises (k a).
Proof.
  unfold raises. destruct r as [a|e|]; simpl.
  - split.
    + intros [e He]. right. exists a. eauto.
    + intros [[e He]|[a' [Ha [e He]]]]; [discriminate|]. injection Ha as ->. eauto.
  - split; [eauto|]. intros _. eauto.
  - split.
    + intros [e He]. discriminate.
    + intros [[e He]|[a' [Ha _]]]; discriminate.
Qed.

(** Constructing a [Route] raises exactly when the request does not parse
    or the parsed list has fewer than two entries. *)
Lemma Route_raises_iff (pid : string) (route : route_request) :
  raises (Route_init pid route) ↔
  raises (parse_route_nodes route) ∨
  ∃ routing, parse_route_nodes route = Ok routing ∧ length routing < 2.
Proof.
  unfold Route_init. rewrite rbind_raises.
  split; (intros [Hp|[routing [Hr Hk]]]; [by left|right; exists routing; split; [done|]]).
  - destruct (decide (length routing < 2)) as [Hlt|Hge]; [done|].
    destruct Hk as [e He].
    destruct routing as [|n0 routing]; [simpl in Hge; lia|].
    simpl in He. destruct (last (n0 :: routing)) eqn:Hl; [discriminate|].
    apply last_None in Hl. discriminate.
  - destruct (decide (length routing < 2)); [|lia]. by eexists.
Qed.

(** A route that [Route] accepts has two entries or more, and the
    constructor keeps the first as start nodes and the last as end nodes. *)
Lemma Route_init_ok (pid : string) (route : route_request) (r : Route) :
  Route_init pid route = Ok r →
  ∃ routing first final,
    parse_route_nodes route = Ok routing ∧ (2 ≤ length routing)%nat ∧
    head routing = Some first ∧ last routing = Some final ∧
    start_nodes r = make_list first ∧ end_nodes r = make_list final.
Proof.
  unfold Route_init. destruct (parse_route_nodes route) as [routing| |]; simpl; [|done..].
  destruct (decide (length routing < 2)); [done|].
  destruct (head routing) as [first|] eqn:Hh; [|done].
  destruct (last routing) as [final|] eqn:Hl; [|done].
  intros [= <-]. exists routing, first, final. simpl. repeat split; try done. lia.
Qed.

(** *** An error of [Route] in [__extend_pathways] *)

Lemma extend_loop_app (before rest : list path_decl) :
  ∀ self loc,
    extend_loop self loc (before ++ rest) =
      match extend_loop self loc before with
      | (Ok _, self', loc') => extend_loop self' loc' rest
      | stopped => stopped
      end.
Proof.
  induction before as [|path before IH]; intros self loc; simpl; [done|].
  destruct (extend_one self loc path) as [[[[]| |] self1] loc1]; [apply IH|done..].
Qed.

(** A turn of the loop leaves the four indexes of the object alone: they
    are written after the loop. *)
Lemma extend_one_indexes (self : pathways) (loc : locals) (path : path_decl)
    (r : result unit) (self' : pathways) (loc' : locals) :
  extend_one self loc path = (r, self', loc') →
  lines_by_path_id self' = lines_by_path_id self ∧
  nerves_by_path_id self' = nerves_by_path_id self ∧
  paths_by_line_id self' = paths_by_line_id self ∧
  paths_by_nerve_id self' = paths_by_nerve_id self ∧
  connectivity_model self' = connectivity_model self.
Proof. unfold extend_one. intros Hone. repeat case_match; simplify_eq; done. Qed.

Lemma extend_loop_indexes (paths_list : list path_decl) :
  ∀ self loc r self' loc',
    extend_loop self loc paths_list = (r, self', loc') →
    lines_by_path_id self' = lines_by_path_id self ∧
    nerves_by_path_id self' = nerves_by_path_id self ∧
    paths_by_line_id self' = paths_by_line_id self ∧
    paths_by_nerve_id self' = paths_by_nerve_id self ∧
    connectivity_model self' = connectivity_model self.
Proof.
  induction paths_list as [|path paths_list IH]; intros self loc r self' loc'; simpl.
  - by intros [= _ <- _].
  - destruct (extend_one self loc path) as [[r1 self1] loc1] eqn:Hone.
    destruct (extend_one_indexes _ _ _ _ _ _ Hone) as (H1 & H2 & H3 & H4 & H5).
    destruct r1; [|intros [= _ <- _]; by split_and!..].
    intros Hrest. destruct (IH _ _ _ _ _ Hrest) as (K1 & K2 & K3 & K4 & K5).
    split_and!; congruence.
Qed.

(** The method at a path whose [Route] raises, the paths before it having
    been taken in. *)
Lemma extend_pathways_at_error (self self1 : pathways) (loc1 : locals)
    (before : list path_decl) (path : path_decl) (rest : list path_decl)
    (line_ids : lines_request) (lines : list string) (route : route_request) (e : exn) :
  extend_loop self ([], []) before = (Ok (), self1, loc1) →
  decl_path path = Some line_ids →
  parse_path_lines line_ids = Ok lines →
  decl_route path = Some route →
  Route_init (decl_id path) route = Raise e →
  extend_pathways self (before ++ path :: rest) =
    (Raise e,
     mkPathways (model_path_ids self1 ++ [decl_id path]) (routes_by_path_id self1)
       (types_by_path_id self1) (path_models self1) (lines_by_path_id self)
       (nerves_by_path_id self) (paths_by_line_id self) (paths_by_nerve_id self)
       (connectivity_model self)
       (dset (decl_id path) (connectivity_model self) (connectivity_by_path self1))).
Proof.
  intros Hbefore Hp Hl Hr He. unfold extend_pathways.
  rewrite extend_loop_app, Hbefore. simpl.
  destruct (extend_loop_indexes _ _ _ _ _ _ Hbefore) as (H1 & H2 & H3 & H4 & H5).
  unfold extend_one. rewrite Hp, Hl, Hr, He. by rewrite H1, H2, H3, H4, H5.
Qed.

(** An error of [Route] leaves [__extend_pathways] as it is, wherever the
    failing path is in the list: the method has no handler, the paths after
    the failing one are not looked at, and the lines and nerves gathered
    from the paths before it are not stored, while the routes, types and
    models of those paths are, and the failing path is already among the
    paths of the connectivity model. *)
Theorem extend_pathways_stops (self self1 : pathways) (loc1 : locals)
    (before : list path_decl) (path : path_decl) (rest : list path_decl)
    (line_ids : lines_request) (lines : list string) (route : route_request) (e : exn) :
  extend_loop self ([], []) before = (Ok (), self1, loc1) →
  decl_path path = Some line_ids →
  parse_path_lines line_ids = Ok lines →
  decl_route path = Some route →
  Route_init (decl_id path) route = Raise e →
  extend_pathways self (before ++ path :: rest) =
    (Raise e,
     mkPathways (model_path_ids self1 ++ [decl_id path]) (routes_by_path_id self1)
       (types_by_path_id self1) (path_models self1) (lines_by_path_id self)
       (nerves_by_path_id self) (paths_by_line_id self) (paths_by_nerve_id self)
       (connectivity_model self)
       (dset (decl_id path) (connectivity_model self) (connectivity_by_path self1))).
Proof. apply extend_pathways_at_error. Qed.


End Grammar.

(** Letters and digits, and the punctuation an identifier may continue
    with: the instance of [ID_TEXT] the examples run on. *)
Definition alphanum (c : ascii) : bool :=
  let n := nat_of_ascii c in
  ((48 <=? n) && (n <=? 57) || (65 <=? n) && (n <=? 90) || (97 <=? n) && (n <=? 122))%nat.

Definition id_punct (c : ascii) : bool :=
  (Ascii.eqb c ":" || Ascii.eqb c "/" || Ascii.eqb c "_" || Ascii.eqb c "-" || Ascii.eqb c ".")%char.

Definition id_char (c : ascii) : bool := alphanum c || id_punct c.

Example route_parses :
  Route_init alphanum id_char "p" (RouteStr "a, (b, c), d")
  = Ok (mkRoute "p" ["a"] ["b"; "c"] ["d"]).
Proof. reflexivity. Qed.

Example route_single_item_list :
  Route_init alphanum id_char "p" (RouteList [ItemStr "a"])
  = Ok (mkRoute "p" ["a"] [] ["a"]).
Proof. reflexivity. Qed.

Example route_too_short :
  Route_init alphanum id_char "p" (RouteStr "a") = Raise (too_short "p").
Proof. reflexivity. Qed.

End Pathways.


(** ** Numbers

    The arithmetic the numeric code uses, as an interface: Python's [float]
    is the instance [float_Num]; [Q_Num] is exact arithmetic, for worked
    examples. *)

Class Num (F : Type) : Type := {
  num_zero : F;
  num_one : F;
  num_two : F;
  nadd : F → F → F;
  nsub : F → F → F;
  nmul : F → F → F;
  ndiv : F → F → F;
  nltb : F → F → bool;
  nleb : F → F → bool
}.

(** Python's [a > b]. *)
Definition ngtb {F} `{Num F} (a b : F) : bool := nltb b a.

#[export] Instance float_Num : Num float := {|
  num_zero := 0%float;
  num_one := 1%float;
  num_two := 2%float;
  nadd := PrimFloat.add;
  nsub := PrimFloat.sub;
  nmul := PrimFloat.mul;
  ndiv := PrimFloat.div;
  nltb := PrimFloat.ltb;
  nleb := PrimFloat.leb
|}.

#[export] Instance Q_Num : Num Q := {|
  num_zero := 0%Q;
  num_one := 1%Q;
  num_two := 2%Q;
  nadd := Qplus;
  nsub := Qminus;
  nmul := Qmult;
  ndiv := Qdiv;
  nltb := fun a b => negb (Qle_bool b a);
  nleb := Qle_bool
|}.

(** ** Curve segments

    A segment of the [beziers] library, kept as the piece [seg_lo, seg_hi]
    of the parameter range of the curve it was cut from: a curve as drawn
    is the piece [0, 1], and [splitAtTime] cuts a piece in two. *)

Record Segment (F C : Type) : Type := mkSegment {
  seg_curve : C;
  seg_lo : F;
  seg_hi : F
}.
Arguments mkSegment {F C} _ _ _.
Arguments seg_curve {F C} _.
Arguments seg_lo {F C} _.
Arguments seg_hi {F C} _.

Section Segments.
Context {F : Type} `{Num F}.
Context {C P : Type}.

(** The two things asked of the curve library: the point of a curve at a
    parameter, and the distance between two points. *)
Variable curve_at : C → F → P.
Variable distanceFrom : P → P → F.

Definition whole (c : C) : Segment F C := mkSegment c num_zero num_one.

(** The parameter, on the curve a segment was cut from, of the segment's
    local time [t]. *)
Definition seg_time (s : Segment F C) (t : F) : F :=
  nadd (seg_lo s) (nmul t (nsub (seg_hi s) (seg_lo s))).

Definition pointAtTime (s : Segment F C) (t : F) : P := curve_at (seg_curve s) (seg_time s t).
Definition seg_start (s : Segment F C) : P := curve_at (seg_curve s) (seg_lo s).
Definition seg_end (s : Segment F C) : P := curve_at (seg_curve s) (seg_hi s).

Definition splitAtTime (s : Segment F C) (t : F) : Segment F C * Segment F C :=
  let m := seg_time s t in
  (mkSegment (seg_curve s) (seg_lo s) m, mkSegment (seg_curve s) m (seg_hi s)).

(** *** Junction truncation: the two local functions of [create_geometry] *)

(** The [while True] loop of [truncate_segments_start]; [fuel] counts its
    iterations. *)
Fixpoint bisect_start (bz : Segment F C) (node_centre : P) (radii : F * F)
    (fuel : nat) (u v : F) : option F :=
  match fuel with
  | O => None
  | S fuel' =>
      let t := ndiv (nadd u v) num_two in
      let point := pointAtTime bz t in
      if ngtb (distanceFrom point node_centre) radii.2 then
        bisect_start bz node_centre radii fuel' u t
      else if nltb (distanceFrom point node_centre) radii.1 then
        bisect_start bz node_centre radii fuel' t v
      else Some t
  end.

(** The same loop of [truncate_segments_end]: the two branches swap. *)
Fixpoint bisect_end (bz : Segment F C) (node_centre : P) (radii : F * F)
    (fuel : nat) (u v : F) : option F :=
  match fuel with
  | O => None
  | S fuel' =>
      let t := ndiv (nadd u v) num_two in
      let point := pointAtTime bz t in
      if ngtb (distanceFrom point node_centre) radii.2 then
        bisect_end bz node_centre radii fuel' t v
      else if nltb (distanceFrom point node_centre) radii.1 then
        bisect_end bz node_centre radii fuel' u t
      else Some t
  end.

(** [n = 0; while n < len(segs) and segs[n].end.distanceFrom(centre) < radii[0]: n += 1]. *)
Fixpoint skip_start (node_centre : P) (inner : F) (segs : list (Segment F C)) : nat :=
  match segs with
  | [] => 0
  | s :: segs' =>
      if nltb (distanceFrom (seg_end s) node_centre) inner
      then S (skip_start node_centre inner segs')
      else 0
  end.

(** The number of segments the loop of [truncate_segments_end] steps over,
    counted from the back: [n] ends at [len(segs) - 1 - skip_end ...]. *)
Definition skip_end (node_centre : P) (inner : F) (segs : list (Segment F C)) : nat :=
  (fix go (rsegs : list (Segment F C)) : nat :=
     match rsegs with
     | [] => 0
     | s :: rsegs' =>
         if nltb (distanceFrom (seg_start s) node_centre) inner then S (go rsegs') else 0
     end) (rev segs).

(** [node_centre] and [radii] are what the node's attribute dictionary
    gives for ['centre'] and ['radii'] ([None] when absent). *)
Definition truncate_segments_start (fuel : nat) (segs : list (Segment F C))
    (node_centre : option P) (radii : option (F * F)) : result (list (Segment F C)) :=
  match node_centre with
  | None => Ok segs
  | Some node_centre =>
      match radii, segs with
      | None, _ => Raise TypeError
      | _, [] => Raise IndexError
      | Some radii, s0 :: _ =>
          if ngtb (distanceFrom (seg_start s0) node_centre) radii.1 then Ok segs
          else
            let n := skip_start node_centre radii.1 segs in
            match segs !! n with
            | None => Ok segs
            | Some bz =>
                match bisect_start bz node_centre radii fuel num_zero num_one with
                | None => OutOfFuel
                | Some t =>
                    let split := splitAtTime bz t in
                    Ok (drop n (<[n := split.2]> segs))
                end
            end
      end
  end.

Definition truncate_segments_end (fuel : nat) (segs : list (Segment F C))
    (node_centre : option P) (radii : option (F * F)) : result (list (Segment F C)) :=
  match node_centre with
  | None => Ok segs
  | Some node_centre =>
      match radii, last segs with
      | None, _ => Raise TypeError
      | _, None => Raise IndexError
      | Some radii, Some s1 =>
          if ngtb (distanceFrom (seg_end s1) node_centre) radii.1 then Ok segs
          else
            let k := skip_end node_centre radii.1 segs in
            if decide (length segs <= k) then Ok segs
            else
              let n := length segs - 1 - k in
              match segs !! n with
              | None => Ok segs
              | Some bz =>
                  match bisect_end bz node_centre radii fuel num_zero num_one with
                  | None => OutOfFuel
                  | Some t =>
                      let split := splitAtTime bz t in
                      Ok (take (S n) (<[n := split.1]> segs))
                  end
              end
      end
  end.

(** *** The loops, one iteration at a time *)

(** The bracket after [n] iterations that did not end the loop of
    [truncate_segments_end]; [None] when it ended before. *)
Fixpoint bracket_end (bz : Segment F C) (node_centre : P) (radii : F * F)
    (n : nat) (u v : F) : option (F * F) :=
  match n with
  | O => Some (u, v)
  | S n' =>
      let t := ndiv (nadd u v) num_two in
      let point := pointAtTime bz t in
      if ngtb (distanceFrom point node_centre) radii.2 then
        bracket_end bz node_centre radii n' t v
      else if nltb (distanceFrom point node_centre) radii.1 then
        bracket_end bz node_centre radii n' u t
      else None
  end.

Lemma bisect_end_bracket bz c radii n : ∀ u v u' v',
  bracket_end bz c radii n u v = Some (u', v') →
  ∀ fuel, bisect_end bz c radii (n + fuel) u v = bisect_end bz c radii fuel u' v'.
Proof.
  induction n as [|n IH]; simpl; intros u v u' v' Hb fuel.
  - by injection Hb as -> ->.
  - destruct (ngtb _ _); [by apply IH|].
    destruct (nltb _ _); [by apply IH|done].
Qed.

Lemma bisect_end_more bz c radii fuel : ∀ u v t k,
  bisect_end bz c radii fuel u v = Some t →
  bisect_end bz c radii (fuel + k) u v = Some t.
Proof.
  induction fuel as [|fuel IH]; simpl; intros u v t k Hb; [done|].
  destruct (ngtb _ _); [by apply IH|].
  destruct (nltb _ _); [by apply IH|done].
Qed.

(** A bracket whose midpoint is its own upper end, and lies inside the
    inner radius, is a fixed point of the loop. *)
Lemma bisect_end_stuck bz c radii u v :
  ndiv (nadd u v) num_two = v →
  ngtb (distanceFrom (pointAtTime bz v) c) radii.2 = false →
  nltb (distanceFrom (pointAtTime bz v) c) radii.1 = true →
  ∀ fuel, bisect_end bz c radii fuel u v = None.
Proof.
  intros Ht Hgt Hlt fuel. induction fuel as [|fuel IH]; simpl; [done|].
  rewrite Ht, Hgt, Hlt. exact IH.
Qed.

Lemma bisect_end_never bz c radii n u v :
  bracket_end bz c radii n num_zero num_one = Some (u, v) →
  ndiv (nadd u v) num_two = v →
  ngtb (distanceFrom (pointAtTime bz v) c) radii.2 = false →
  nltb (distanceFrom (pointAtTime bz v) c) radii.1 = true →
  ∀ fuel, bisect_end bz c radii fuel num_zero num_one = None.
Proof.
  intros Hb Ht Hgt Hlt fuel.
  destruct (bisect_end bz c radii fuel num_zero num_one) as [t|] eqn:Hf; [|done].
  apply (bisect_end_more _ _ _ _ _ _ _ n) in Hf.
  rewrite (Nat.add_comm fuel n), (bisect_end_bracket _ _ _ _ _ _ _ _ Hb) in Hf.
  by rewrite (bisect_end_stuck _ _ _ _ _ Ht Hgt Hlt) in Hf.
Qed.

End Segments.

(** ** The [beziers] library over doubles *)

Module Beziers.

(** [beziers.point.Point]. *)
Record Point : Type := mkPoint { px : float; py : float }.

Definition scale (p : Point) (k : float) : Point := mkPoint (px p * k) (py p * k).
Definition plus (p q : Point) : Point := mkPoint (px p + px q) (py p + py q).
Definition minus (p q : Point) : Point := mkPoint (px p - px q) (py p - py q).

(** [Point.lerp]: [self * (1 - t) + other * t]. *)
Definition lerp (p q : Point) (t : float) : Point :=
  plus (scale p (1 - t)) (scale q t).

(** [Point.distanceFrom]. *)
Definition distanceFrom (p q : Point) : float :=
  PrimFloat.sqrt ((px p - px q) * (px p - px q) + (py p - py q) * (py p - py q)).

(** A curve as drawn: a [Line] or a [CubicBezier], by its control points. *)
Inductive Curve : Type :=
| Line (p0 p1 : Point)
| CubicBezier (p0 p1 p2 p3 : Point).

Definition bernstein (a b c d t : float) : float :=
  (1 - t) * (1 - t) * (1 - t) * a + 3 * (1 - t) * (1 - t) * t * b
  + 3 * (1 - t) * t * t * c + t * t * t * d.

(** [pointAtTime] of the curve a segment was cut from. *)
Definition curve_at (c : Curve) (t : float) : Point :=
  match c with
  | Line p0 p1 => lerp p0 p1 t
  | CubicBezier p0 p1 p2 p3 =>
      mkPoint (bernstein (px p0) (px p1) (px p2) (px p3) t)
              (bernstein (py p0) (py p1) (py p2) (py p3) t)
  end.

Definition BSegment : Type := Segment float Curve.

End Beziers.

(** ** Junction truncation: the cut, and the number of halvings

    What follows holds for any arithmetic, so for the doubles of the
    program. *)

Section Truncation.
Context {F : Type} `{Num F}.
Context {C P : Type}.
Variable curve_at : C → F → P.
Variable distanceFrom : P → P → F.

(** The distance from the point of [bz] at [t] to the centre of the node. *)
Definition distance_at (bz : Segment F C) (centre : P) (t : F) : F :=
  distanceFrom (pointAtTime curve_at bz t) centre.

(** The test that ends the two loops: the distance at [t] is neither above
    the outer radius nor below the inner one. *)
Definition passes (bz : Segment F C) (centre : P) (radii : F * F) (t : F) : Prop :=
  ngtb (distance_at bz centre t) radii.2 = false ∧
  nltb (distance_at bz centre t) radii.1 = false.

(** [a] and [b] compare: when [a] is not below [b], [b <= a].  Numbers
    always do, but for a NaN. *)
Definition compares (a b : F) : Prop := nltb a b = false → nleb b a = true.

(** The point of [bz] at [t] lies in the band [radii] around [centre]. *)
Definition in_band (bz : Segment F C) (centre : P) (radii : F * F) (t : F) : Prop :=
  nleb radii.1 (distance_at bz centre t) = true ∧
  nleb (distance_at bz centre t) radii.2 = true.

Definition in_unit (t : F) : Prop := nleb num_zero t = true ∧ nleb t num_one = true.

(** What the halving relies on: the midpoint of two numbers of [0, 1] is a
    number of [0, 1].  It is so in exact arithmetic ([Q_unit_midpoints])
    and in doubles ([float_unit_midpoints]). *)
Definition unit_midpoints : Prop :=
  in_unit num_zero ∧ in_unit num_one ∧
  ∀ u v, in_unit u → in_unit v → in_unit (ndiv (nadd u v) num_two).

(** What is known of the [t] at which a segment is cut: it passed the test
    of the loop, so its distance is in the band when that distance compares
    with the two radii; and it is a number of [0, 1], so that neither part
    of the segment runs backwards, when midpoints stay in [0, 1]. *)
Definition cut_at (bz : Segment F C) (centre : P) (radii : F * F) (t : F) : Prop :=
  passes bz centre radii t ∧
  (compares (distance_at bz centre t) radii.1 →
   compares radii.2 (distance_at bz centre t) → in_band bz centre radii t) ∧
  (unit_midpoints → in_unit t).

(** What [truncate_segments_start] may return for [segs]: the list as it
    is, or the list from its [n]th segment on, that segment cut at a [t]
    of which [cut] holds, and its part after [t] kept. *)
Definition start_cut (cut : Segment F C → P → F * F → F → Prop)
    (segs : list (Segment F C)) (centre : option P)
    (radii : option (F * F)) (segs' : list (Segment F C)) : Prop :=
  segs' = segs ∨
  ∃ n bz c r t,
    centre = Some c ∧ radii = Some r ∧ segs !! n = Some bz ∧ cut bz c r t ∧
    segs' = (splitAtTime bz t).2 :: drop (S n) segs.

(** What [truncate_segments_end] may return: the list as it is, or the list
    up to its [n]th segment, that segment cut at a [t] of which [cut] holds,
    and its part before [t] kept. *)
Definition end_cut (cut : Segment F C → P → F * F → F → Prop)
    (segs : list (Segment F C)) (centre : option P)
    (radii : option (F * F)) (segs' : list (Segment F C)) : Prop :=
  segs' = segs ∨
  ∃ n bz c r t,
    centre = Some c ∧ radii = Some r ∧ segs !! n = Some bz ∧ cut bz c r t ∧
    segs' = take n segs ++ [(splitAtTime bz t).1].

Lemma start_cut_weaken (cut cut' : Segment F C → P → F * F → F → Prop)
    (segs : list (Segment F C)) (centre : option P) (radii : option (F * F))
    (segs' : list (Segment F C)) :
  (∀ bz c r t, cut bz c r t → cut' bz c r t) →
  start_cut cut segs centre radii segs' → start_cut cut' segs centre radii segs'.
Proof.
  intros Hcut [->|(n & bz & c & r & t & ? & ? & ? & ? & ?)]; [by left|].
  right. exists n, bz, c, r, t. split_and!; try done. by apply Hcut.
Qed.

Lemma end_cut_weaken (cut cut' : Segment F C → P → F * F → F → Prop)
    (segs : list (Segment F C)) (centre : option P) (radii : option (F * F))
    (segs' : list (Segment F C)) :
  (∀ bz c r t, cut bz c r t → cut' bz c r t) →
  end_cut cut segs centre radii segs' → end_cut cut' segs centre radii segs'.
Proof.
  intros Hcut [->|(n & bz & c & r & t & ? & ? & ? & ? & ?)]; [by left|].
  right. exists n, bz, c, r, t. split_and!; try done. by apply Hcut.
Qed.

(** *** One turn of a loop *)

(** One turn of the loop of [truncate_segments_start] on the bracket [b]:
    the bracket the loop goes on with, and [None] when the midpoint passes
    the test and the loop ends. *)
Definition next_start (bz : Segment F C) (centre : P) (radii : F * F) (b : F * F)
  : option (F * F) :=
  let t := ndiv (nadd b.1 b.2) num_two in
  if ngtb (distance_at bz centre t) radii.2 then Some (b.1, t)
  else if nltb (distance_at bz centre t) radii.1 then Some (t, b.2)
  else None.

(** The same for the loop of [truncate_segments_end]. *)
Definition next_end (bz : Segment F C) (centre : P) (radii : F * F) (b : F * F)
  : option (F * F) :=
  let t := ndiv (nadd b.1 b.2) num_two in
  if ngtb (distance_at bz centre t) radii.2 then Some (t, b.2)
  else if nltb (distance_at bz centre t) radii.1 then Some (b.1, t)
  else None.

(** The bracket after [n] turns, none of which ended the loop. *)
Fixpoint brackets (next : F * F → option (F * F)) (n : nat) (b : F * F) : option (F * F) :=
  match n with
  | O => Some b
  | S n' =>
      match next b with
      | Some b' => brackets next n' b'
      | None => None
      end
  end.

Lemma bisect_start_turn (bz : Segment F C) (c : P) (radii : F * F) (fuel : nat) (u v : F) :
  bisect_start curve_at distanceFrom bz c radii (S fuel) u v =
    match next_start bz c radii (u, v) with
    | Some b => bisect_start curve_at distanceFrom bz c radii fuel b.1 b.2
    | None => Some (ndiv (nadd u v) num_two)
    end.
Proof.
  unfold next_start, distance_at. cbn [bisect_start fst snd]. cbv zeta.
  destruct (ngtb _ _); [done|]. by destruct (nltb _ _).
Qed.

Lemma bisect_end_turn (bz : Segment F C) (c : P) (radii : F * F) (fuel : nat) (u v : F) :
  bisect_end curve_at distanceFrom bz c radii (S fuel) u v =
    match next_end bz c radii (u, v) with
    | Some b => bisect_end curve_at distanceFrom bz c radii fuel b.1 b.2
    | None => Some (ndiv (nadd u v) num_two)
    end.
Proof.
  unfold next_end, distance_at. cbn [bisect_end fst snd]. cbv zeta.
  destruct (ngtb _ _); [done|]. by destruct (nltb _ _).
Qed.

Lemma next_start_passes (bz : Segment F C) (c : P) (radii : F * F) (b : F * F) :
  next_start bz c radii b = None → passes bz c radii (ndiv (nadd b.1 b.2) num_two).
Proof.
  unfold next_start, passes. cbv zeta.
  destruct (ngtb _ _); [done|]. by destruct (nltb _ _).
Qed.

Lemma next_end_passes (bz : Segment F C) (c : P) (radii : F * F) (b : F * F) :
  next_end bz c radii b = None → passes bz c radii (ndiv (nadd b.1 b.2) num_two).
Proof.
  unfold next_end, passes. cbv zeta.
  destruct (ngtb _ _); [done|]. by destruct (nltb _ _).
Qed.

Lemma next_start_in_unit (bz : Segment F C) (c : P) (radii : F * F) (b b' : F * F) :
  unit_midpoints → in_unit b.1 → in_unit b.2 →
  next_start bz c radii b = Some b' → in_unit b'.1 ∧ in_unit b'.2.
Proof.
  intros (_ & _ & Hmid) H1 H2. unfold next_start. cbv zeta.
  destruct (ngtb _ _); [intros [= <-]; split; [done|by apply Hmid]|].
  destruct (nltb _ _); [intros [= <-]; split; [by apply Hmid|done]|done].
Qed.

Lemma next_end_in_unit (bz : Segment F C) (c : P) (radii : F * F) (b b' : F * F) :
  unit_midpoints → in_unit b.1 → in_unit b.2 →
  next_end bz c radii b = Some b' → in_unit b'.1 ∧ in_unit b'.2.
Proof.
  intros (_ & _ & Hmid) H1 H2. unfold next_end. cbv zeta.
  destruct (ngtb _ _); [intros [= <-]; split; [by apply Hmid|done]|].
  destruct (nltb _ _); [intros [= <-]; split; [done|by apply Hmid]|done].
Qed.

(** *** A loop, by its turns

    [loop] is one of the two loops and [next] its turn. *)
Section Loop.
Variable next : F * F → option (F * F).
Variable loop : nat → F → F → option F.
Hypothesis loop_O : ∀ u v, loop 0 u v = None.
Hypothesis loop_S : ∀ fuel u v,
  loop (S fuel) u v =
    match next (u, v) with
    | Some b => loop fuel b.1 b.2
    | None => Some (ndiv (nadd u v) num_two)
    end.

(** The loop ends at the first midpoint that passes the test, and not
    before: after [n] turns that go on and one that ends, it has made
    [n + 1] turns. *)
Lemma loop_ends (n : nat) : ∀ b0 b,
  brackets next n b0 = Some b → next b = None →
  ∀ fuel, loop fuel b0.1 b0.2 =
            if decide (n < fuel) then Some (ndiv (nadd b.1 b.2) num_two) else None.
Proof using loop_O loop_S.
  induction n as [|n IH]; intros [u0 v0] b Hb Hend fuel; simpl in Hb.
  - injection Hb as <-. destruct fuel as [|fuel]; cbn [fst snd].
    + rewrite loop_O. case_decide; [lia|done].
    + rewrite loop_S, Hend. case_decide; [done|lia].
  - destruct (next (u0, v0)) as [b1|] eqn:Hnext; [|done].
    destruct fuel as [|fuel]; cbn [fst snd].
    + rewrite loop_O. case_decide; [lia|done].
    + rewrite loop_S, Hnext, (IH b1 b Hb Hend fuel).
      repeat case_decide; done || lia.
Qed.

(** A turn that goes on with the bracket it was given is a turn the loop
    repeats for ever. *)
Lemma loop_stuck (n : nat) : ∀ b0 b,
  brackets next n b0 = Some b → next b = Some b →
  ∀ fuel, loop fuel b0.1 b0.2 = None.
Proof using loop_O loop_S.
  induction n as [|n IH]; intros [u0 v0] b Hb Hstuck fuel; simpl in Hb.
  - injection Hb as <-. induction fuel as [|fuel IHf]; simpl; [apply loop_O|].
    by rewrite loop_S, Hstuck.
  - destruct (next (u0, v0)) as [b1|] eqn:Hnext; [|done].
    destruct fuel as [|fuel]; simpl; [apply loop_O|].
    rewrite loop_S, Hnext. by apply (IH b1 b).
Qed.

(** The [t] a loop returns is the midpoint of a bracket at which its turn
    ends, and a bracket of numbers of [0, 1] when the loop starts from
    one and [next] keeps them. *)
Lemma loop_result (fuel : nat) : ∀ u v t,
  loop fuel u v = Some t →
  ∃ b, next b = None ∧ t = ndiv (nadd b.1 b.2) num_two ∧
       ((∀ b1 b2, in_unit b1.1 → in_unit b1.2 → next b1 = Some b2 →
                  in_unit b2.1 ∧ in_unit b2.2) →
        in_unit u → in_unit v → in_unit b.1 ∧ in_unit b.2).
Proof using loop_O loop_S.
  induction fuel as [|fuel IH]; intros u v t; [by rewrite loop_O|].
  rewrite loop_S. destruct (next (u, v)) as [b1|] eqn:Hnext.
  - intros Hrun. destruct (IH _ _ _ Hrun) as (b & Hend & Ht & Hunit).
    exists b. split_and!; [done..|]. intros Hkeep Hu Hv.
    destruct (Hkeep (u, v) b1 Hu Hv Hnext). by apply Hunit.
  - intros [= <-]. exists (u, v). by split_and!.
Qed.

End Loop.

Lemma cut_at_midpoint (bz : Segment F C) (c : P) (radii : F * F) (b : F * F) :
  passes bz c radii (ndiv (nadd b.1 b.2) num_two) →
  (unit_midpoints → in_unit b.1 ∧ in_unit b.2) →
  cut_at bz c radii (ndiv (nadd b.1 b.2) num_two).
Proof.
  intros [Hout Hin] Hunit. split_and!; [by split| |].
  - intros Hc1 Hc2. split; [by apply Hc1|by apply Hc2].
  - intros Hlaw. destruct (Hunit Hlaw). by apply Hlaw.
Qed.

Lemma bisect_start_cut (bz : Segment F C) (c : P) (radii : F * F) (fuel : nat) (t : F) :
  bisect_start curve_at distanceFrom bz c radii fuel num_zero num_one = Some t →
  cut_at bz c radii t.
Proof.
  intros Hrun.
  destruct (loop_result (next_start bz c radii) (bisect_start curve_at distanceFrom bz c radii)
              (fun _ _ => eq_refl) (bisect_start_turn bz c radii) fuel _ _ _ Hrun)
    as (b & Hend & -> & Hunit).
  apply cut_at_midpoint; [by apply next_start_passes|].
  intros Hlaw. apply Hunit; [|apply Hlaw..].
  intros b1 b2 H1 H2. by apply next_start_in_unit.
Qed.

Lemma bisect_end_cut (bz : Segment F C) (c : P) (radii : F * F) (fuel : nat) (t : F) :
  bisect_end curve_at distanceFrom bz c radii fuel num_zero num_one = Some t →
  cut_at bz c radii t.
Proof.
  intros Hrun.
  destruct (loop_result (next_end bz c radii) (bisect_end curve_at distanceFrom bz c radii)
              (fun _ _ => eq_refl) (bisect_end_turn bz c radii) fuel _ _ _ Hrun)
    as (b & Hend & -> & Hunit).
  apply cut_at_midpoint; [by apply next_end_passes|].
  intros Hlaw. apply Hunit; [|apply Hlaw..].
  intros b1 b2 H1 H2. by apply next_end_in_unit.
Qed.

Lemma drop_insert_here {A} (l : list A) (n : nat) (x y : A) :
  l !! n = Some y → drop n (<[n := x]> l) = x :: drop (S n) l.
Proof.
  revert n. induction l as [|a l IH]; intros [|n] Hn; simpl in *; try done.
  by apply IH.
Qed.

Lemma take_insert_here {A} (l : list A) (n : nat) (x y : A) :
  l !! n = Some y → take (S n) (<[n := x]> l) = take n l ++ [x].
Proof.
  revert n. induction l as [|a l IH]; intros [|n] Hn; simpl in *; try done.
  f_equal. by apply IH.
Qed.

(** What the two functions return, in any arithmetic. *)
Lemma truncation_cuts (fuel : nat) (segs : list (Segment F C))
    (centre : option P) (radii : option (F * F)) :
  (∀ segs', truncate_segments_start curve_at distanceFrom fuel segs centre radii = Ok segs' →
            start_cut cut_at segs centre radii segs') ∧
  (∀ segs', truncate_segments_end curve_at distanceFrom fuel segs centre radii = Ok segs' →
            end_cut cut_at segs centre radii segs').
Proof.
  split; intros segs'.
  - unfold truncate_segments_start.
    destruct centre as [c|]; [|intros [= <-]; by left].
    destruct radii as [r|]; [|done].
    destruct segs as [|s0 segs0] eqn:Hsegs; [done|]. rewrite <- Hsegs in *.
    destruct (ngtb _ _); [intros [= <-]; by left|].
    set (n := skip_start _ _ _ _ _).
    destruct (segs !! n) as [bz|] eqn:Hn; [|intros [= <-]; by left].
    destruct (bisect_start _ _ _ _ _ _ _ _) as [t|] eqn:Hb; [|done].
    intros [= <-]. rewrite (drop_insert_here _ _ _ _ Hn).
    right. exists n, bz, c, r, t. split_and!; try done. by apply (bisect_start_cut _ _ _ fuel).
  - unfold truncate_segments_end.
    destruct centre as [c|]; [|intros [= <-]; by left].
    destruct radii as [r|]; [|done].
    destruct (last segs) as [s1|]; [|done].
    destruct (ngtb _ _); [intros [= <-]; by left|].
    set (k := skip_end _ _ _ _ _).
    destruct (decide _) as [Hall|Hsome]; [intros [= <-]; by left|].
    set (n := (length segs - 1 - k)%nat).
    destruct (segs !! n) as [bz|] eqn:Hn; [|intros [= <-]; by left].
    destruct (bisect_end _ _ _ _ _ _ _ _) as [t|] eqn:Hb; [|done].
    intros [= <-]. rewrite (take_insert_here _ _ _ _ Hn).
    right. exists n, bz, c, r, t. split_and!; try done. by apply (bisect_end_cut _ _ _ fuel).
Qed.


End Truncation.

(** *** Doubles: midpoints stay in [0, 1]

    The operations of [PrimFloat] are specified by those of [SpecFloat] on
    a sign, a mantissa and an exponent.  A bound that is a power of two is
    read on the exponent, so that rounding is followed by counting the
    digits of the mantissa: a sum of two numbers of [0, 1] has at most as
    many digits as 2 has, and half a number of [0, 2] at most as many as 1. *)

Module FloatBounds.
Local Open Scope Z_scope.

Lemma digits2_pos_bounds (p : positive) :
  2 ^ (Zpos (digits2_pos p) - 1) <= Zpos p < 2 ^ Zpos (digits2_pos p).
Proof.
  induction p as [p IH|p IH|]; cbn [digits2_pos].
  - rewrite Pos2Z.inj_succ.
    replace (Z.succ (Zpos (digits2_pos p)) - 1) with (Z.succ (Zpos (digits2_pos p) - 1)) by lia.
    rewrite !Z.pow_succ_r by lia. lia.
  - rewrite Pos2Z.inj_succ.
    replace (Z.succ (Zpos (digits2_pos p)) - 1) with (Z.succ (Zpos (digits2_pos p) - 1)) by lia.
    rewrite !Z.pow_succ_r by lia. lia.
  - simpl. lia.
Qed.

Lemma Zdigits2_nonneg (m : Z) : 0 <= Zdigits2 m.
Proof. destruct m; simpl; lia. Qed.

Lemma Zdigits2_le (m j : Z) : 0 <= m < 2 ^ j -> 0 <= j -> Zdigits2 m <= j.
Proof.
  intros [Hm Hlt] Hj. destruct m as [|p|p]; simpl; [lia| |lia].
  destruct (digits2_pos_bounds p) as [Hlo _].
  assert (Hpow : 2 ^ (Zpos (digits2_pos p) - 1) < 2 ^ j) by lia.
  apply Z.pow_lt_mono_r_iff in Hpow; lia.
Qed.

Lemma Zdigits2_ge (m j : Z) : 2 ^ j <= m -> 0 <= j -> j + 1 <= Zdigits2 m.
Proof.
  intros Hm Hj. assert (0 < 2 ^ j) by (apply Z.pow_pos_nonneg; lia).
  destruct m as [|p|p]; simpl; [lia| |lia].
  destruct (digits2_pos_bounds p) as [_ Hhi].
  assert (Hpow : 2 ^ j < 2 ^ Zpos (digits2_pos p)) by lia.
  apply Z.pow_lt_mono_r_iff in Hpow; lia.
Qed.

Lemma Zdigits2_lt (m : Z) : 0 <= m -> m < 2 ^ Zdigits2 m.
Proof.
  intros Hm. destruct m as [|p|p]; simpl; [lia| |lia].
  apply digits2_pos_bounds.
Qed.

(** Shifting right. *)
Lemma shr_1_m (mrs : shr_record) :
  0 <= shr_m mrs -> shr_m (shr_1 mrs) = shr_m mrs / 2.
Proof.
  destruct mrs as [m r s]. simpl. intros Hm.
  destruct m as [|[p|p|]|p]; cbn [shr_1 shr_m]; [reflexivity| | |reflexivity|lia].
  - apply (Z.div_unique _ _ _ 1); lia.
  - apply (Z.div_unique _ _ _ 0); lia.
Qed.

Lemma iter_shr_1_m (n : positive) : forall mrs : shr_record,
  0 <= shr_m mrs -> shr_m (SpecFloat.iter_pos shr_1 n mrs) = shr_m mrs / 2 ^ Zpos n.
Proof.
  induction n as [n IH|n IH|]; intros mrs Hm; cbn [SpecFloat.iter_pos].
  - assert (H1 : 0 <= shr_m (shr_1 mrs)).
    { rewrite shr_1_m by done. apply Z.div_pos; lia. }
    assert (H2 : 0 <= shr_m (SpecFloat.iter_pos shr_1 n (shr_1 mrs))).
    { rewrite IH by done. apply Z.div_pos; [done|]. apply Z.pow_pos_nonneg; lia. }
    rewrite IH, IH, shr_1_m by done.
    rewrite !Z.div_div by (try apply Z.pow_pos_nonneg; lia).
    f_equal. replace (Zpos n~1) with (1 + Zpos n + Zpos n) by lia.
    rewrite !Z.pow_add_r by lia. lia.
  - assert (H2 : 0 <= shr_m (SpecFloat.iter_pos shr_1 n mrs)).
    { rewrite IH by done. apply Z.div_pos; [done|]. apply Z.pow_pos_nonneg; lia. }
    rewrite IH, IH by done.
    rewrite !Z.div_div by (try apply Z.pow_pos_nonneg; lia).
    f_equal. replace (Zpos n~0) with (Zpos n + Zpos n) by lia.
    rewrite !Z.pow_add_r by lia. lia.
  - by rewrite shr_1_m.
Qed.


Lemma fexp_eq (e : Z) : fexp prec emax e = Z.max (e - 53) (-1074).
Proof. reflexivity. Qed.

Lemma shr_record_of_loc_m (m : Z) (l : location) : shr_m (shr_record_of_loc m l) = m.
Proof. by destruct l as [|[]]. Qed.

(** [shr_fexp] brings the exponent up to the canonical one, when it is
    below it, and divides the mantissa accordingly. *)
Lemma shr_fexp_spec (m e : Z) (l : location) :
  0 <= m ->
  (shr_fexp prec emax m e l).2 = Z.max e (fexp prec emax (Zdigits2 m + e)) /\
  shr_m (shr_fexp prec emax m e l).1
    = m / 2 ^ Z.max 0 (fexp prec emax (Zdigits2 m + e) - e).
Proof.
  intros Hm. unfold shr_fexp, shr.
  destruct (fexp prec emax (Zdigits2 m + e) - e) as [|n|n] eqn:Hn; cbn [fst snd].
  - rewrite shr_record_of_loc_m. split; [lia|]. by rewrite Z.div_1_r.
  - rewrite iter_shr_1_m, shr_record_of_loc_m by (by rewrite shr_record_of_loc_m).
    split; [lia|]. by rewrite Z.max_r by lia.
  - rewrite shr_record_of_loc_m. split; [lia|].
    rewrite Z.max_l by lia. by rewrite Z.div_1_r.
Qed.

Lemma round_nearest_even_bounds (m : Z) (l : location) :
  m <= round_nearest_even m l <= m + 1.
Proof. destruct l as [|[]]; simpl; try lia. destruct (Z.even m); lia. Qed.

(** [0 <= x], and [x < 2^k] or [x = 2^k], read on the exponent of [x]. *)
Definition at_most (k : Z) (x : spec_float) : Prop :=
  match x with
  | S754_zero _ => True
  | S754_finite false m e => e <= k - 53 \/ (e = k - 52 /\ m = 4503599627370496%positive)
  | _ => False
  end.

Lemma round_at_most (m e : Z) (l : location) (k : Z) :
  0 <= m -> e <= fexp prec emax (Zdigits2 m + e) -> Zdigits2 m + e <= k ->
  -1021 <= k <= 1023 ->
  at_most k (binary_round_aux prec emax false m e l).
Proof.
  intros Hm Hcanon Hdig Hk. unfold binary_round_aux.
  pose proof (shr_fexp_spec m e l Hm) as [He1 Hm1].
  destruct (shr_fexp prec emax m e l) as [mrs1 e1]. cbn [fst snd] in He1, Hm1.
  pose proof (Zdigits2_lt m Hm) as Hlt.
  pose proof (Zdigits2_nonneg m) as Hd0.
  rewrite fexp_eq in Hcanon, He1, Hm1.
  set (n := Z.max 0 (Z.max (Zdigits2 m + e - 53) (-1074) - e)) in Hm1.
  assert (Hm1lo : 0 <= shr_m mrs1).
  { rewrite Hm1. apply Z.div_pos; [done|]. apply Z.pow_pos_nonneg; lia. }
  assert (Hm1hi : shr_m mrs1 < 2 ^ 53).
  { rewrite Hm1. apply Z.div_lt_upper_bound; [apply Z.pow_pos_nonneg; lia|].
    rewrite <- Z.pow_add_r by lia.
    eapply Z.lt_le_trans; [exact Hlt|]. apply Z.pow_le_mono_r; lia. }
  pose proof (round_nearest_even_bounds (shr_m mrs1) (loc_of_shr_record mrs1)) as Hr.
  set (m2 := round_nearest_even (shr_m mrs1) (loc_of_shr_record mrs1)) in *.
  assert (Hm2 : 0 <= m2) by lia.
  pose proof (shr_fexp_spec m2 e1 loc_Exact Hm2) as [He2 Hm3].
  destruct (shr_fexp prec emax m2 e1 loc_Exact) as [mrs2 e2]. cbn [fst snd] in He2, Hm3.
  rewrite fexp_eq in He2, Hm3.
  destruct (decide (m2 = 2 ^ 53)) as [Heq|Hne].
  - rewrite Heq in He2, Hm3.
    change (Zdigits2 (2 ^ 53)) with 54 in He2, Hm3.
    replace (Z.max 0 (Z.max (54 + e1 - 53) (-1074) - e1)) with 1 in Hm3 by lia.
    change (2 ^ 53 / 2 ^ 1) with 4503599627370496 in Hm3. rewrite Hm3.
    destruct (e2 <=? emax - prec) eqn:Hle; [simpl; lia|].
    apply Z.leb_gt in Hle. change (emax - prec) with 971 in Hle. lia.
  - assert (Hd2 : Zdigits2 m2 <= 53) by (apply Zdigits2_le; lia).
    replace (Z.max 0 (Z.max (Zdigits2 m2 + e1 - 53) (-1074) - e1)) with 0 in Hm3 by lia.
    rewrite Z.div_1_r in Hm3. rewrite Hm3.
    destruct m2 as [|p|p]; [done| |lia].
    destruct (e2 <=? emax - prec) eqn:Hle; [simpl; lia|].
    apply Z.leb_gt in Hle. change (emax - prec) with 971 in Hle. lia.
Qed.


Lemma iter_xO (m d : positive) : Zpos (Pos.iter xO m d) = Zpos m * 2 ^ Zpos d.
Proof.
  induction d as [|d IH] using Pos.peano_ind.
  - simpl. lia.
  - rewrite Pos.iter_succ, Pos2Z.inj_succ, Z.pow_succ_r by lia.
    change (Zpos (Pos.iter xO m d)~0) with (2 * Zpos (Pos.iter xO m d)). lia.
Qed.

Lemma shl_align_spec (m : positive) (e e' : Z) :
  (shl_align m e e').2 = Z.min e e' /\
  Zpos (shl_align m e e').1 = Zpos m * 2 ^ (e - Z.min e e').
Proof.
  unfold shl_align. destruct (e' - e) as [|d|d] eqn:Hd; cbn [fst snd].
  - rewrite Z.min_l by lia. rewrite Z.sub_diag. lia.
  - rewrite Z.min_l by lia. rewrite Z.sub_diag. lia.
  - rewrite Z.min_r by lia. split; [done|]. rewrite iter_xO. do 2 f_equal. lia.
Qed.

Lemma Zdigits2_shift (m d : Z) : 0 < m -> 0 <= d -> Zdigits2 (m * 2 ^ d) = Zdigits2 m + d.
Proof.
  intros Hm Hd. destruct m as [|p|p]; [lia| |lia].
  pose proof (digits2_pos_bounds p) as [Hlo Hhi].
  assert (H2 : 0 < 2 ^ d) by (apply Z.pow_pos_nonneg; lia).
  simpl Zdigits2 at 2.
  apply Z.le_antisymm.
  - apply Zdigits2_le; [|lia]. split; [lia|]. rewrite Z.pow_add_r by lia. nia.
  - replace (Zpos (digits2_pos p) + d) with (Zpos (digits2_pos p) - 1 + d + 1) by lia.
    apply Zdigits2_ge; [|lia]. rewrite Z.pow_add_r by lia. nia.
Qed.

Lemma binary_round_at_most (m : positive) (e k : Z) :
  Zdigits2 (Zpos m) + e <= k -> -1021 <= k <= 1023 ->
  at_most k (binary_round prec emax false m e).
Proof.
  intros Hdig Hk. unfold binary_round.
  pose proof (shl_align_spec m e (fexp prec emax (Zpos (digits2_pos m) + e))) as [He Hm].
  destruct (shl_align m e _) as [mz ez]. cbn [fst snd] in He, Hm.
  assert (Hdz : Zdigits2 (Zpos mz) + ez = Zdigits2 (Zpos m) + e).
  { rewrite Hm, Zdigits2_shift by lia. lia. }
  apply round_at_most; [lia| |lia|done].
  rewrite Hdz. simpl Zdigits2. lia.
Qed.

Definition pow2_float (k : Z) : spec_float := S754_finite false 4503599627370496 (k - 52).

(** [0 <= x < 2^k], for a float [x] in canonical form. *)
Definition below (k : Z) (x : spec_float) : Prop :=
  match x with
  | S754_zero _ => True
  | S754_finite false m e =>
      e = fexp prec emax (Zpos (digits2_pos m) + e) /\ Zpos (digits2_pos m) + e <= k
  | _ => False
  end.

Lemma at_most_leb (k : Z) (x : spec_float) :
  at_most k x ->
  SFleb (S754_zero false) x = true /\ SFleb x (pow2_float k) = true.
Proof.
  destruct x as [s|s| |[] m e]; try done. intros Hx.
  unfold SFleb, SFcompare, pow2_float. split; [done|].
  destruct Hx as [Hlt|[-> ->]].
  - by replace (e ?= k - 52) with Lt by (symmetry; apply Z.compare_lt_iff; lia).
  - by rewrite Z.compare_refl.
Qed.

Lemma le_pow2_cases (k : Z) (x : spec_float) :
  valid_binary x = true ->
  SFleb (S754_zero false) x = true -> SFleb x (pow2_float k) = true ->
  -1021 <= k ->
  below k x \/ x = pow2_float k.
Proof.
  intros Hvalid H0 Hk Hrange.
  destruct x as [s|[]| |[] m e];
    [left; exact I|discriminate H0|discriminate Hk|discriminate H0|discriminate H0|].
  unfold valid_binary, bounded, canonical_mantissa in Hvalid.
  apply andb_true_iff in Hvalid as [Hcanon _]. apply Z.eqb_eq in Hcanon.
  unfold SFleb, SFcompare, pow2_float in Hk.
  pose proof (digits2_pos_bounds m) as [Hlo Hhi].
  rewrite fexp_eq in Hcanon.
  destruct (e ?= k - 52) eqn:Hcmp; [| |discriminate Hk].
  - apply Z.compare_eq_iff in Hcmp. right. unfold pow2_float. f_equal; [|exact Hcmp].
    assert (Hle : (Zpos m <= 4503599627370496)).
    { apply Pos2Z.pos_le_pos. unfold Pos.le, Pos.compare.
      destruct (Pos.compare_cont Eq m 4503599627370496); [discriminate..|discriminate Hk]. }
    assert (Hd : Zpos (digits2_pos m) = 53) by lia.
    rewrite Hd in Hlo. change (2 ^ (53 - 1)) with 4503599627370496 in Hlo.
    apply Pos2Z.inj. lia.
  - assert (Hlt : e < k - 52) by exact Hcmp. left. cbn [below]. rewrite fexp_eq. lia.
Qed.


Lemma below_at_most (k : Z) (x : spec_float) :
  -1021 <= k -> below k x \/ x = pow2_float k -> at_most (k + 1) x.
Proof.
  intros Hk [Hx | ->]; [|cbn; lia].
  destruct x as [s|s| |[] m e]; try exact Hx.
  destruct Hx as [Hcanon Hdig]. rewrite fexp_eq in Hcanon. cbn. lia.
Qed.

(** The mantissa of [x <= 1], at a lower exponent [ez]. *)
Lemma below_scaled (m : positive) (e ez : Z) :
  below 0 (S754_finite false m e) -> ez <= e ->
  Zpos m * 2 ^ (e - ez) < 2 ^ (- ez) /\ e <= -1.
Proof.
  intros [Hcanon Hdig] Hez.
  pose proof (digits2_pos_bounds m) as [_ Hhi].
  assert (H2 : 0 < 2 ^ (e - ez)) by (apply Z.pow_pos_nonneg; lia).
  split; [|lia].
  eapply Z.lt_le_trans; [apply Z.mul_lt_mono_pos_r; [done|exact Hhi]|].
  rewrite <- Z.pow_add_r by lia. apply Z.pow_le_mono_r; lia.
Qed.

Lemma one_scaled (ez : Z) :
  ez <= -52 -> 4503599627370496 * 2 ^ (-52 - ez) = 2 ^ (- ez).
Proof.
  intros Hez. change 4503599627370496 with (2 ^ 52).
  rewrite <- Z.pow_add_r by lia. f_equal. lia.
Qed.

Lemma add_finite_at_most (mx my : positive) (ex ey : Z) :
  Zpos mx * 2 ^ (ex - Z.min ex ey) + Zpos my * 2 ^ (ey - Z.min ex ey)
    < 2 ^ (1 - Z.min ex ey) ->
  Z.min ex ey <= 1 ->
  at_most 1 (SF64add (S754_finite false mx ex) (S754_finite false my ey)).
Proof.
  intros Hsum Hez. unfold SF64add, SFadd. cbv zeta.
  pose proof (shl_align_spec mx ex (Z.min ex ey)) as [_ Hx].
  pose proof (shl_align_spec my ey (Z.min ex ey)) as [_ Hy].
  replace (Z.min ex (Z.min ex ey)) with (Z.min ex ey) in Hx by lia.
  replace (Z.min ey (Z.min ex ey)) with (Z.min ex ey) in Hy by lia.
  destruct (shl_align mx ex (Z.min ex ey)) as [ax ?].
  destruct (shl_align my ey (Z.min ex ey)) as [ay ?].
  cbn [fst snd cond_Zopp] in *.
  change (Zpos ax + Zpos ay) with (Zpos (ax + ay)).
  cbn [binary_normalize]. apply binary_round_at_most; [|lia].
  assert (Hd : Zdigits2 (Zpos (ax + ay)) <= 1 - Z.min ex ey).
  { apply Zdigits2_le; [|lia]. rewrite Pos2Z.inj_add, Hx, Hy. lia. }
  lia.
Qed.

Lemma add_at_most (x y : spec_float) :
  below 0 x \/ x = pow2_float 0 -> below 0 y \/ y = pow2_float 0 ->
  at_most 1 (SF64add x y).
Proof.
  intros Hx Hy.
  pose proof (below_at_most 0 x ltac:(lia) Hx) as Hx1.
  pose proof (below_at_most 0 y ltac:(lia) Hy) as Hy1.
  destruct x as [sx|sx| |[] mx ex]; try exact (False_ind _ Hx1);
    destruct y as [sy|sy| |[] my ey]; try exact (False_ind _ Hy1).
  - by destruct sx, sy.
  - exact Hy1.
  - exact Hx1.
  - destruct Hx as [Hx | Hx], Hy as [Hy | Hy].
    + apply add_finite_at_most; [|destruct Hx as [_ Hd]; lia].
      destruct (below_scaled mx ex (Z.min ex ey) Hx ltac:(lia)) as [Hvx ?].
      destruct (below_scaled my ey (Z.min ex ey) Hy ltac:(lia)) as [Hvy ?].
      replace (1 - Z.min ex ey) with (Z.succ (- Z.min ex ey)) by lia.
      rewrite Z.pow_succ_r by lia. lia.
    + injection Hy as -> ->.
      destruct (below_scaled mx ex (Z.min ex (0 - 52)) Hx ltac:(lia)) as [Hvx ?].
      apply add_finite_at_most; [|lia].
      pose proof (one_scaled (Z.min ex (0 - 52)) ltac:(lia)) as Hone.
      replace (0 - 52 - Z.min ex (0 - 52)) with (-52 - Z.min ex (0 - 52)) by lia.
      replace (1 - Z.min ex (0 - 52)) with (Z.succ (- Z.min ex (0 - 52))) by lia.
      rewrite Z.pow_succ_r by lia. lia.
    + injection Hx as -> ->.
      destruct (below_scaled my ey (Z.min (0 - 52) ey) Hy ltac:(lia)) as [Hvy ?].
      apply add_finite_at_most; [|lia].
      pose proof (one_scaled (Z.min (0 - 52) ey) ltac:(lia)) as Hone.
      replace (0 - 52 - Z.min (0 - 52) ey) with (-52 - Z.min (0 - 52) ey) by lia.
      replace (1 - Z.min (0 - 52) ey) with (Z.succ (- Z.min (0 - 52) ey)) by lia.
      rewrite Z.pow_succ_r by lia. lia.
    + injection Hx as -> ->. injection Hy as -> ->. vm_compute. by right.
Qed.


Lemma div_core_spec (m : positive) (e : Z) :
  let e' := Z.min (fexp prec emax (Zpos (digits2_pos m) + e - 2)) (e + 51) in
  exists l,
    SFdiv_core_binary prec emax (Zpos m) e 4503599627370496 (-51)
    = (Zpos m * 2 ^ (e + 51 - e') / 2 ^ 52, e', l).
Proof.
  intros e'. unfold SFdiv_core_binary. cbv zeta.
  change (Zdigits2 4503599627370496) with 53.
  change (Zdigits2 (Zpos m)) with (Zpos (digits2_pos m)).
  replace (Zpos (digits2_pos m) + e - (53 + -51)) with (Zpos (digits2_pos m) + e - 2) by lia.
  replace (e - -51) with (e + 51) by lia. fold e'.
  assert (Hs : 0 <= e + 51 - e') by (unfold e'; lia).
  assert (Hm : match e + 51 - e' with
               | 0 => Zpos m
               | Zpos _ => Z.shiftl (Zpos m) (e + 51 - e')
               | Zneg _ => 0
               end = Zpos m * 2 ^ (e + 51 - e')).
  { destruct (e + 51 - e') as [|p|p] eqn:Hp; [lia| |lia].
    by rewrite Z.shiftl_mul_pow2. }
  rewrite Hm. change (2 ^ 52) with 4503599627370496. unfold Z.div.
  destruct (Z.div_eucl _ _) as [q r]. by eexists.
Qed.

Lemma div_at_most (x : spec_float) :
  below 1 x \/ x = pow2_float 1 -> at_most 0 (SF64div x (pow2_float 1)).
Proof.
  intros [Hx | ->]; [|vm_compute; by right].
  destruct x as [s|s| |[] m e];
    [exact I|exact (False_ind _ Hx)|exact (False_ind _ Hx)|exact (False_ind _ Hx)|].
  destruct Hx as [Hcanon Hdig]. rewrite fexp_eq in Hcanon.
  change (pow2_float 1) with (S754_finite false 4503599627370496 (-51)).
  unfold SF64div, SFdiv.
  destruct (div_core_spec m e) as [l ->]. cbn [xorb].
  pose proof (digits2_pos_bounds m) as [Hlo Hhi].
  set (d := Zpos (digits2_pos m)) in *.
  rewrite fexp_eq.
  set (e' := Z.min (Z.max (d + e - 2 - 53) (-1074)) (e + 51)).
  set (s := e + 51 - e').
  assert (Hd : 1 <= d) by (unfold d; lia).
  assert (Hs : 0 <= s) by (unfold s, e'; lia).
  assert (H2s : 0 < 2 ^ s) by (apply Z.pow_pos_nonneg; lia).
  assert (H252 : 0 < 2 ^ 52) by done.
  set (q := Zpos m * 2 ^ s / 2 ^ 52).
  assert (Hq0 : 0 <= q) by (apply Z.div_pos; lia).
  assert (Hqhi : Zdigits2 q + e' <= 0).
  { destruct (decide (52 <= d + s)) as [Hbig|Hsmall].
    - assert (Hq : q < 2 ^ (d + s - 52)).
      { apply Z.div_lt_upper_bound; [done|]. rewrite <- Z.pow_add_r by lia.
        replace (52 + (d + s - 52)) with (d + s) by lia.
        rewrite Z.pow_add_r by lia. nia. }
      assert (Zdigits2 q <= d + s - 52) by (apply Zdigits2_le; lia).
      unfold s in *. lia.
    - assert (Hq : q = 0).
      { apply Z.div_small. split; [lia|].
        eapply Z.lt_le_trans with (2 ^ (d + s)); [rewrite Z.pow_add_r by lia; nia|].
        apply Z.pow_le_mono_r; lia. }
      rewrite Hq. simpl Zdigits2. unfold e'. lia. }
  assert (Hqlo : d + s - 53 <= Zdigits2 q).
  { destruct (decide (0 <= d + s - 53)) as [Hbig|Hsmall];
      [|pose proof (Zdigits2_nonneg q); lia].
    assert (Hq : 2 ^ (d + s - 53) <= q).
    { apply Z.div_le_lower_bound; [done|]. rewrite <- Z.pow_add_r by lia.
      replace (52 + (d + s - 53)) with (d - 1 + s) by lia.
      rewrite Z.pow_add_r by lia. nia. }
    pose proof (Zdigits2_ge q (d + s - 53) Hq Hbig). lia. }
  apply round_at_most; [done| |done|lia].
  rewrite fexp_eq. unfold s in Hqlo. unfold e' in *. lia.
Qed.

(** In doubles, the midpoint of two numbers of [0, 1] is in [0, 1]. *)
Lemma float_midpoint (u v : float) :
  (0 <=? u)%float = true -> (u <=? 1)%float = true ->
  (0 <=? v)%float = true -> (v <=? 1)%float = true ->
  (0 <=? (u + v) / 2)%float = true /\ ((u + v) / 2 <=? 1)%float = true.
Proof.
  rewrite !leb_spec, div_spec, add_spec.
  change (Prim2SF 0) with (S754_zero false).
  change (Prim2SF 1) with (pow2_float 0).
  change (Prim2SF 2) with (pow2_float 1).
  intros Hu0 Hu1 Hv0 Hv1.
  pose proof (le_pow2_cases 0 _ (Prim2SF_valid u) Hu0 Hu1 ltac:(lia)) as Hu.
  pose proof (le_pow2_cases 0 _ (Prim2SF_valid v) Hv0 Hv1 ltac:(lia)) as Hv.
  pose proof (add_at_most _ _ Hu Hv) as Hsum.
  apply at_most_leb in Hsum as [Hs0 Hs1].
  rewrite <- add_spec in Hs0, Hs1 |- *.
  pose proof (le_pow2_cases 1 _ (Prim2SF_valid (u + v)%float) Hs0 Hs1 ltac:(lia)) as Hs.
  by apply at_most_leb, div_at_most.
Qed.

End FloatBounds.

(** *** The two arithmetics *)

(** Doubles compare, but for a NaN. *)
Lemma SFcompare_swap (a b : SpecFloat.spec_float) :
  SpecFloat.SFcompare b a = option_map CompOpp (SpecFloat.SFcompare a b).
Proof.
  destruct a as [[]|[]| |[] ma ea], b as [[]|[]| |[] mb eb]; try reflexivity; simpl;
    rewrite (Z.compare_antisym ea eb); destruct (ea ?= eb)%Z; simpl; try reflexivity;
    rewrite (Pos.compare_cont_antisym ma mb Eq); simpl;
    by destruct (Pos.compare_cont Eq ma mb).
Qed.

Lemma float_compares (a b : float) :
  PrimFloat.is_nan a = false → PrimFloat.is_nan b = false → compares a b.
Proof.
  unfold compares, PrimFloat.is_nan. simpl.
  rewrite !FloatAxioms.eqb_spec, FloatAxioms.ltb_spec, FloatAxioms.leb_spec.
  unfold SpecFloat.SFeqb, SpecFloat.SFltb, SpecFloat.SFleb.
  rewrite (SFcompare_swap (Prim2SF a) (Prim2SF b)).
  destruct (Prim2SF a) as [[]|[]| |[] ma ea], (Prim2SF b) as [[]|[]| |[] mb eb];
    simpl; try done;
    destruct (ea ?= eb)%Z; simpl; try done;
    by destruct (Pos.compare_cont Eq ma mb).
Qed.

Lemma Q_nltb_true (a b : Q) : nltb a b = true ↔ (a < b)%Q.
Proof.
  simpl. rewrite negb_true_iff. split.
  - intros Hb. apply Qnot_le_lt. intros Hle. apply Qle_bool_iff in Hle. congruence.
  - intros Hlt. destruct (Qle_bool b a) eqn:Hb; [|done].
    apply Qle_bool_iff in Hb. lra.
Qed.

Lemma Q_nltb_false (a b : Q) : nltb a b = false ↔ (b <= a)%Q.
Proof.
  simpl. rewrite negb_false_iff. apply Qle_bool_iff.
Qed.

(** Exact numbers always compare, and their midpoints stay in [0, 1]. *)
Lemma Q_compares (a b : Q) : compares a b.
Proof. unfold compares. rewrite Q_nltb_false. apply Qle_bool_iff. Qed.

Lemma Q_unit_midpoints : unit_midpoints (F := Q).
Proof.
  unfold unit_midpoints, in_unit. simpl. split_and!; try done.
  intros u v [Hu0 Hu1] [Hv0 Hv1]. apply Qle_bool_iff in Hu0, Hu1, Hv0, Hv1.
  split; apply Qle_bool_iff.
  - apply Qle_shift_div_l; lra.
  - apply Qle_shift_div_r; lra.
Qed.


Lemma float_unit_midpoints : unit_midpoints (F := float).
Proof.
  split_and!; [by split..|].
  intros u v [Hu0 Hu1] [Hv0 Hv1]. by apply FloatBounds.float_midpoint.
Qed.

(** *** The cut the program makes

    The program runs on doubles.  Of the [t] at which it cuts a segment:
    it passed the test of the loop; its distance is in the band, unless
    that distance or a radius is a NaN; and it is a number of [0, 1], so
    that neither part of the cut segment runs backwards. *)
Definition double_cut_at {C P : Type} (curve_at : C → float → P)
    (distanceFrom : P → P → float)
    (bz : Segment float C) (centre : P) (radii : float * float) (t : float) : Prop :=
  passes curve_at distanceFrom bz centre radii t ∧
  (PrimFloat.is_nan (distance_at curve_at distanceFrom bz centre t) = false →
   PrimFloat.is_nan radii.1 = false → PrimFloat.is_nan radii.2 = false →
   in_band curve_at distanceFrom bz centre radii t) ∧
  in_unit t.


(** *** Straight lines along an axis, in exact arithmetic

    The instance the exact statements are run on: a curve is a line between
    two abscissae, a point is an abscissa. *)

Module Axis.
Local Open Scope Q_scope.

Definition curve_at (c : Q * Q) (t : Q) : Q := c.1 * (1 - t) + c.2 * t.
Definition distanceFrom (p q : Q) : Q := Qabs (p - q).

(** A line of length 20 that starts at the centre of a node whose join
    radius is 5. *)
Definition outward : Segment Q (Q * Q) := whole (0, 20).
Definition inward : Segment Q (Q * Q) := whole (20, 0).
Definition centre : Q := 0.
Definition band : Q * Q := (4995 # 1000, 5005 # 1000).

(** The scenario of the specification: a line of length 20 at a node of
    join radius 5 is cut at a quarter of its length, and the part kept has
    length 15. *)
Example outward_truncated :
  truncate_segments_start curve_at distanceFrom 20 [outward] (Some centre) (Some band)
  = Ok [mkSegment (0, 20) (1 # 4) 1].
Proof. vm_compute. reflexivity. Qed.

Example inward_truncated :
  truncate_segments_end curve_at distanceFrom 20 [inward] (Some centre) (Some band)
  = Ok [mkSegment (20, 0) 0 (3 # 4)].
Proof. vm_compute. reflexivity. Qed.

End Axis.

(** ** Junction truncation in double precision *)

Definition never_returns {A} (run : nat → result A) : Prop :=
  ∀ fuel, run fuel = OutOfFuel.

Module DoubleTruncation.
Import Beziers.

(** A straight line that ends at the centre of a node of join radius 1 and
    starts [2^60] away from it. *)
Definition far_line : BSegment := whole (Line (mkPoint 0x1p60 0) (mkPoint 0 0)).
Definition origin : Point := mkPoint 0 0.
Definition unit_band : float * float := (0.999 * 1, 1.001 * 1)%float.

Lemma far_line_bisection fuel :
  bisect_end curve_at distanceFrom far_line origin unit_band fuel 0%float 1%float = None.
Proof.
  assert (Hb : bracket_end curve_at distanceFrom far_line origin unit_band 54
                 num_zero num_one = Some (0x1.fffffffffffffp-1%float, 1%float))
    by (vm_compute; reflexivity).
  refine (bisect_end_never curve_at distanceFrom far_line origin unit_band 54
            _ _ Hb _ _ _ fuel); vm_compute; reflexivity.
Qed.


(** A line of length 4 that starts at the centre of a node. *)
Definition short_line : BSegment := whole (Line (mkPoint 0 0) (mkPoint 4 0)).
Definition wide_band : float * float := (4, 5)%float.
Definition nan_band : float * float := (nan, nan).



(** A line of length 20 that starts at the centre of a node of join
    radius 5. *)
Definition long_line : BSegment := whole (Line (mkPoint 0 0) (mkPoint 20 0)).
Definition join_band : float * float := (0.999 * 5, 1.001 * 5)%float.


End DoubleTruncation.

(** ** Shapes, features and attribute values *)

Abbreviation node := string (only parsing).

Module Shapely.

(** A drawn region, by what the code reads of it. *)
Record Geometry : Type := mkGeometry {
  geom_name : string;
  centroid : Beziers.Point;
  area : float;
  bounds : (float * float) * (float * float)
}.

(** What intersecting a boundary with a line can give. *)
Inductive Shape : Type :=
| Point (x y : float)
| MultiPoint (geoms : list (float * float))
| LineString (coords : list (float * float))
| GeometryCollection (geoms : list Shape).

(** [Point.distance]. *)
Definition distance (p q : float * float) : float :=
  PrimFloat.sqrt ((p.1 - q.1) * (p.1 - q.1) + (p.2 - q.2) * (p.2 - q.2)).

End Shapely.

(** An entry of an edge's ['path-components']. *)
Inductive component : Type :=
| Curve (bz : Beziers.BSegment)
| IntermediateNode (width : float) (mid_point : Beziers.Point) (start_angle end_angle : float).

(** The values that node, edge and feature dictionaries hold. *)
Inductive value : Type :=
| VNone
| VStr (s : string)
| VInt (n : Z)
| VFloat (x : float)
| VStrs (ids : list string)
| VPoint (p : Beziers.Point)
| VRadii (radii : float * float)
| VGeometry (g : Shapely.Geometry)
| VSegments (segs : list Beziers.BSegment)
| VTangents (tangents : dict string Beziers.Point)
| VComponents (parts : list component).

Abbreviation attrs := (list (string * value)) (only parsing).

(** A feature of the flatmap ([mapmaker.flatmap.feature.Feature]). *)
Record Feature : Type := mkFeature {
  feature_id : option string;
  feature_geometry : option Shapely.Geometry;
  feature_properties : attrs
}.

(** ** The store

    Graph objects and attribute dictionaries are shared and mutated in
    place: a graph is known by a reference into [graphs], a dictionary by
    a reference into [heap].  Allocation appends. *)

Abbreviation loc := nat (only parsing).
Abbreviation gref := nat (only parsing).

(** [networkx.Graph]: [_node] and [_adj].  An edge's dictionary is the same
    object under [_adj[u][v]] and [_adj[v][u]]. *)
Record Graph : Type := mkGraph {
  g_node : dict node loc;
  g_adj : dict node (dict node loc)
}.

Definition empty_graph : Graph := mkGraph [] [].

Inductive level : Type := LogError | LogWarning.

Record world : Type := mkWorld {
  graphs : list Graph;
  heap : list attrs;
  log : list (level * string)
}.

Definition M (A : Type) : Type := world → result A * world.

Definition mret {A} (a : A) : M A := fun w => (Ok a, w).

Definition mbind {A B} (m : M A) (k : A → M B) : M B :=
  fun w =>
    match m w with
    | (Ok a, w') => k a w'
    | (Raise e, w') => (Raise e, w')
    | (OutOfFuel, w') => (OutOfFuel, w')
    end.

Definition mraise {A} (e : exn) : M A := fun w => (Raise e, w).

Definition lift {A} (r : result A) : M A := fun w => (r, w).

Notation "x <~ m ;; k" := (mbind m (fun x => k))
  (at level 100, m at next level, right associativity,
   format "'[v' x  <~  m  ;;  '/' k ']'").
Notation "m ;;; k" := (mbind m (fun _ => k))
  (at level 100, right associativity, format "'[v' m  ;;;  '/' k ']'").

Fixpoint forM {A} (l : list A) (f : A → M unit) : M unit :=
  match l with
  | [] => mret ()
  | a :: l' => f a ;;; forM l' f
  end.

Fixpoint foldM {A S} (l : list A) (s : S) (f : S → A → M S) : M S :=
  match l with
  | [] => mret s
  | a :: l' => s' <~ f s a ;; foldM l' s' f
  end.

Definition log_error (msg : string) : M unit :=
  fun w => (Ok (), mkWorld (graphs w) (heap w) (log w ++ [(LogError, msg)])).

Definition log_warning (msg : string) : M unit :=
  fun w => (Ok (), mkWorld (graphs w) (heap w) (log w ++ [(LogWarning, msg)])).

(** A new, empty dictionary object holding [d]. *)
Definition alloc (d : attrs) : M loc :=
  fun w => (Ok (length (heap w)), mkWorld (graphs w) (heap w ++ [d]) (log w)).

Definition load (l : loc) : M attrs :=
  fun w => (Ok (default [] (heap w !! l)), w).

Definition store (l : loc) (d : attrs) : M unit :=
  fun w => (Ok (), mkWorld (graphs w) (<[l := d]> (heap w)) (log w)).

(** [d[key] = v] on the dictionary at [l]. *)
Definition set_item (l : loc) (key : string) (v : value) : M unit :=
  d <~ load l ;; store l (dset key v d).

(** [d.get(key)] on the dictionary at [l]. *)
Definition get_item (l : loc) (key : string) : M (option value) :=
  d <~ load l ;; mret (dget key d).

(** [nx.Graph()]. *)
Definition new_graph : M gref :=
  fun w => (Ok (length (graphs w)), mkWorld (graphs w ++ [empty_graph]) (heap w) (log w)).

Definition get_graph (r : gref) : M Graph :=
  fun w => (Ok (default empty_graph (graphs w !! r)), w).

Definition put_graph (r : gref) (g : Graph) : M unit :=
  fun w => (Ok (), mkWorld (<[r := g]> (graphs w)) (heap w) (log w)).

(** ** networkx, on the structure of a graph *)

Module nx.

Definition nodes (g : Graph) : list node := dkeys (g_node g).

(** [n in G]. *)
Definition has_node (g : Graph) (n : node) : bool := dmem n (g_node g).

(** [G[n]], the neighbours of [n] with the dictionaries of the edges. *)
Definition adj (g : Graph) (n : node) : dict node loc := dget_default n [] (g_adj g).

Definition neighbors (g : Graph) (n : node) : list node := dkeys (adj g n).

Definition has_edge (g : Graph) (u v : node) : bool := dmem v (adj g u).

(** The dictionary of the edge between [u] and [v]. *)
Definition edge_loc (g : Graph) (u v : node) : option loc := dget v (adj g u).

(** [G.degree(n)]: a self-loop counts twice. *)
Definition degree (g : Graph) (n : node) : nat :=
  length (adj g n) + (if has_edge g n n then 1 else 0).

(** [G.number_of_edges()]: half the sum of the degrees. *)
Definition number_of_edges (g : Graph) : nat :=
  Nat.div2 (list_sum (map (degree g) (nodes g))).

(** [G.edges(data=True)]: every edge once, from the end that comes first
    in the order of the nodes. *)
Fixpoint edges_from (adjacency : dict node (dict node loc)) (seen : list node)
  : list (node * node * loc) :=
  match adjacency with
  | [] => []
  | (n, nbrs) :: rest =>
      map (fun e => (n, e.1, e.2)) (filter (fun e => e.1 ∉ seen) nbrs)
      ++ edges_from rest (n :: seen)
  end.

Definition edges (g : Graph) : list (node * node * loc) := edges_from (g_adj g) [].

(** [G.subgraph(nbunch)]: the view induced on the nodes of [nbunch] that
    are in [G]; it shows the dictionaries of [G] themselves. *)
Definition subgraph (g : Graph) (nbunch : list node) : Graph :=
  mkGraph (filter (fun e => e.1 ∈ nbunch) (g_node g))
          (map (fun e => (e.1, filter (fun e' => e'.1 ∈ nbunch) e.2))
               (filter (fun e => e.1 ∈ nbunch) (g_adj g))).

(** *** Mutation *)

Definition ensure_node (r : gref) (n : node) : M unit :=
  g <~ get_graph r ;;
  if has_node g n then mret ()
  else
    l <~ alloc [] ;;
    put_graph r (mkGraph (dset n l (g_node g)) (dset n [] (g_adj g))).

Definition link (g : Graph) (u v : node) (l : loc) : Graph :=
  let g1 := mkGraph (g_node g) (dset u (dset v l (adj g u)) (g_adj g)) in
  mkGraph (g_node g1) (dset v (dset u l (adj g1 v)) (g_adj g1)).

(** [G.add_edge(u, v, **attr)]. *)
Definition add_edge (r : gref) (u v : node) (attr : attrs) : M unit :=
  ensure_node r u ;;;
  ensure_node r v ;;;
  g <~ get_graph r ;;
  datadict <~ match edge_loc g u v with
              | Some l => mret l
              | None => alloc []
              end ;;
  d <~ load datadict ;;
  store datadict (dupdate d attr) ;;;
  put_graph r (link g u v datadict).

(** [G.nodes[n]]. *)
Definition node_dict (g : Graph) (n : node) : M loc :=
  match dget n (g_node g) with
  | Some l => mret l
  | None => mraise (KeyError n)
  end.

(** [G.edges[u, v]]. *)
Definition edge_dict (g : Graph) (u v : node) : M loc :=
  match edge_loc g u v with
  | Some l => mret l
  | None => mraise (KeyError (u +:+ "," +:+ v))
  end.

(** *** Shortest paths *)

(** The walks of [k] edges that leave [source]. *)
Fixpoint walks (g : Graph) (k : nat) (source : node) : list (list node) :=
  match k with
  | O => [[source]]
  | S k' =>
      flat_map (fun p => match last p with
                         | Some x => map (fun y => p ++ [y]) (neighbors g x)
                         | None => []
                         end) (walks g k' source)
  end.

Definition ends_at (target : node) (p : list node) : bool :=
  bool_decide (last p = Some target).

(** The walks from [source] to [target] with the fewest edges, looking at
    lengths [k], [k + 1], ... for [fuel] lengths. *)
Fixpoint shortest_from (g : Graph) (source target : node) (fuel k : nat)
  : option (list (list node)) :=
  match fuel with
  | O => None
  | S fuel' =>
      match filter (fun p => ends_at target p) (walks g k source) with
      | [] => shortest_from g source target fuel' (S k)
      | paths => Some paths
      end
  end.

(** [nx.all_shortest_paths(G, source, target)]: a shortest path has fewer
    edges than [G] has nodes. *)
Definition all_shortest_paths (g : Graph) (source target : node) : result (list (list node)) :=
  if negb (has_node g source) then Raise (NodeNotFound source)
  else
    match shortest_from g source target (length (nodes g)) 0 with
    | Some paths => Ok paths
    | None => Raise (NetworkXNoPath source target)
    end.

End nx.

(** ** [get_connected_subgraph] *)

(** [itertools.combinations(l, 2)]. *)
Fixpoint combinations2 {A} (l : list A) : list (A * A) :=
  match l with
  | [] => []
  | x :: l' => map (pair x) l' ++ combinations2 l'
  end.

(** [vpp.update(path)] for every path, [vpp] a set. *)
Definition update_all (vpp : list node) (paths : list (list node)) : list node :=
  fold_left (fun acc path => list_union acc path) paths vpp.

(** The set [vpp] that the loop of [get_connected_subgraph] builds. *)
Fixpoint connecting_nodes (g : Graph) (pairs : list (node * node)) (vpp : list node)
  : result (list node) :=
  match pairs with
  | [] => Ok vpp
  | (source, target) :: pairs' =>
      rbind (nx.all_shortest_paths g source target) (fun paths =>
      connecting_nodes g pairs' (update_all vpp paths))
  end.

Definition get_connected_subgraph (g : Graph) (v_prime : list node) : result Graph :=
  rbind (connecting_nodes g (combinations2 v_prime) []) (fun vpp =>
  Ok (nx.subgraph g vpp)).

(** ** The centreline network ([Network.__init__]) *)

(** An entry of the ['centrelines'] list of a network declaration:
    [connects] and [containedIn] are empty when the key is absent. *)
Record centreline : Type := mkCentreline {
  cl_id : option string;
  cl_connects : list node;
  cl_containedIn : list string
}.

Record network_decl : Type := mkNetworkDecl {
  decl_net_id : option string;
  decl_centrelines : list centreline
}.

(** The feature map handed to [create_geometry] and to
    [route_graph_from_connectivity], by the three lookups the code makes. *)
Record FeatureMap : Type := mkFeatureMap {
  features : string → list Feature;
  get_feature : string → option Feature;
  find_features_by_anatomical_id : list string → list Feature
}.

Record Network : Type := mkNetwork {
  net_id : option string;
  centreline_graph : gref;
  centreline_ids : list string;
  contained_centrelines : dict string (list string);
  contained_count : dict string nat;
  net_feature_map : option FeatureMap
}.

Section NetworkInit.

(** [external_properties.get_property(id, key)]. *)
Variable get_property : string → string → option string.

(** The loop over [containing_features]: the index of contained
    centrelines, and the edge properties with the ['nerve'] found last. *)
Definition note_container (id : string) (acc : dict string (list string) * attrs)
    (container_id : string) : dict string (list string) * attrs :=
  (dset container_id (dget_default container_id [] acc.1 ++ [id]) acc.1,
   if decide (get_property container_id "type" = Some "nerve")
   then dset "nerve" (VStr container_id) acc.2
   else acc.2).

(** [set(centreline.get('containedIn', []))]: the ids without repetition
    (Python does not fix the order in which a set is gone through). *)
Definition containing_features (c : centreline) : list string :=
  remove_dups (cl_containedIn c).

(** One turn of [for centreline in network.get('centrelines', [])]. *)
Definition init_centreline (self : Network) (c : centreline) : M Network :=
  match cl_id c with
  | None => log_error "Centreline does not have an id" ;;; mret self
  | Some id =>
      if decide (id ∈ centreline_ids self) then
        log_error ("Centreline has a duplicated id: " +:+ id) ;;; mret self
      else
        let nodes := cl_connects c in
        if decide (length nodes < 2) then
          log_warning ("Centreline has too few nodes: " +:+ id) ;;; mret self
        else
          match head nodes, last nodes with
          | Some n0, Some n1 =>
              let edge_properties : attrs :=
                [("id", VStr id)] ++
                (if decide (2 < length nodes) then [("intermediates", VStrs (middle nodes))]
                 else []) in
              let '(contained, edge_properties) :=
                fold_left (note_container id) (containing_features c)
                          (contained_centrelines self, edge_properties) in
              nx.add_edge (centreline_graph self) n0 n1 edge_properties ;;;
              mret (mkNetwork (net_id self) (centreline_graph self)
                              (centreline_ids self ++ [id]) contained
                              (dset id (length (containing_features c)) (contained_count self))
                              (net_feature_map self))
          | _, _ => mraise IndexError
          end
  end.

Definition Network_init (network : network_decl) : M Network :=
  r <~ new_graph ;;
  foldM (decl_centrelines network)
        (mkNetwork (decl_net_id network) r [] [] [] None)
        init_centreline.

End NetworkInit.


(** ** Facts about the structure of a graph *)

(** The graph after [ensure_node]. *)
Definition grow (g : Graph) (n : node) (l : loc) : Graph :=
  if nx.has_node g n then g else mkGraph (dset n l (g_node g)) (dset n [] (g_adj g)).

Record well_formed (g : Graph) : Prop := {
  wf_keys : dkeys (g_adj g) = dkeys (g_node g);
  wf_nodup : NoDup (dkeys (g_adj g));
  wf_sym : ∀ u v, nx.has_edge g u v = nx.has_edge g v u
}.

Lemma well_formed_empty : well_formed empty_graph.
Proof. split; [done|apply NoDup_nil_2|done]. Qed.

Lemma adj_dset (a : dict node (dict node loc)) (g_n : dict node loc) (u x : node)
    (nbrs : dict node loc) :
  nx.adj (mkGraph g_n (dset u nbrs a)) x = if decide (u = x) then nbrs else nx.adj (mkGraph g_n a) x.
Proof.
  unfold nx.adj, dget_default. simpl. rewrite dget_dset. by destruct (decide (u = x)).
Qed.

Lemma adj_link (g : Graph) (u v : node) (l : loc) (x : node) :
  nx.adj (nx.link g u v l) x =
    if decide (x = u) then dset v l (nx.adj g u)
    else if decide (x = v) then dset u l (nx.adj g v)
    else nx.adj g x.
Proof.
  unfold nx.link. cbn [g_node g_adj]. rewrite !adj_dset.
  destruct g as [gn ga]. cbn [g_node g_adj].
  repeat case_decide; subst; try done.
  rewrite dset_same; [done|]. apply dget_dset_eq.
Qed.

Lemma has_edge_link (g : Graph) (u v : node) (l : loc) (x y : node) :
  nx.has_edge (nx.link g u v l) x y =
    nx.has_edge g x y || bool_decide (x = u ∧ y = v) || bool_decide (x = v ∧ y = u).
Proof.
  unfold nx.has_edge. rewrite adj_link.
  destruct (decide (x = u)) as [->|Hu].
  - rewrite dmem_dset. destruct (decide (v = y)) as [->|Hv].
    + rewrite bool_decide_eq_true_2 by done. by rewrite orb_true_r.
    + rewrite (bool_decide_eq_false_2 (u = u ∧ y = v)) by (intros [_ ->]; done).
      rewrite orb_false_r.
      destruct (decide (u = v)) as [->|Huv].
      * rewrite (bool_decide_eq_false_2 (v = v ∧ y = v)) by (intros [_ ->]; done).
        by rewrite orb_false_r.
      * rewrite (bool_decide_eq_false_2 (u = v ∧ y = u)) by (intros [? _]; done).
        by rewrite orb_false_r.
  - rewrite (bool_decide_eq_false_2 (x = u ∧ y = v)) by (intros [? _]; done).
    rewrite orb_false_r.
    destruct (decide (x = v)) as [->|Hv].
    + rewrite dmem_dset. destruct (decide (u = y)) as [->|Hy].
      * rewrite bool_decide_eq_true_2 by done. by rewrite orb_true_r.
      * rewrite (bool_decide_eq_false_2 (v = v ∧ y = u)) by (intros [_ ->]; done).
        by rewrite orb_false_r.
    + rewrite (bool_decide_eq_false_2 (x = v ∧ y = u)) by (intros [? _]; done).
      by rewrite orb_false_r.
Qed.

Lemma edge_loc_link (g : Graph) (u v : node) (l : loc) :
  nx.edge_loc (nx.link g u v l) u v = Some l.
Proof.
  unfold nx.edge_loc. rewrite adj_link, decide_True by done. apply dget_dset_eq.
Qed.

Lemma has_node_keys (g : Graph) (n : node) :
  nx.has_node g n = true ↔ n ∈ dkeys (g_node g).
Proof. apply dmem_keys. Qed.

Lemma adj_not_node (g : Graph) (n : node) :
  dkeys (g_adj g) = dkeys (g_node g) → nx.has_node g n = false → nx.adj g n = [].
Proof.
  intros Hk Hn. unfold nx.adj, dget_default.
  destruct (dget _ _) as [nbrs|] eqn:Hd; [|done].
  apply dget_Some_keys in Hd. rewrite Hk in Hd. apply has_node_keys in Hd. congruence.
Qed.

Lemma adj_grow (g : Graph) (n : node) (l : loc) (x : node) :
  dkeys (g_adj g) = dkeys (g_node g) → nx.adj (grow g n l) x = nx.adj g x.
Proof.
  intros Hk. unfold grow. destruct (nx.has_node g n) eqn:Hn; [done|].
  rewrite <- (adj_not_node g n Hk Hn) at 1.
  destruct g as [gn ga]. rewrite adj_dset. cbn [g_node g_adj].
  by destruct (decide (n = x)) as [->|Hx].
Qed.

Lemma has_node_grow (g : Graph) (n : node) (l : loc) (x : node) :
  nx.has_node (grow g n l) x = nx.has_node g x || bool_decide (n = x).
Proof.
  unfold grow. destruct (nx.has_node g n) eqn:Hn.
  - destruct (decide (n = x)) as [->|Hx].
    + by rewrite Hn.
    + by rewrite bool_decide_eq_false_2, orb_false_r.
  - unfold nx.has_node. cbn [g_node]. rewrite dmem_dset.
    destruct (decide (n = x)) as [->|Hx].
    + by rewrite bool_decide_eq_true_2, orb_true_r.
    + by rewrite bool_decide_eq_false_2, orb_false_r.
Qed.

Lemma has_node_link (g : Graph) (u v : node) (l : loc) (x : node) :
  nx.has_node (nx.link g u v l) x = nx.has_node g x.
Proof. done. Qed.

Lemma well_formed_grow (g : Graph) (n : node) (l : loc) :
  well_formed g → well_formed (grow g n l).
Proof.
  intros [Hk Hnd Hs]. split.
  - unfold grow. destruct (nx.has_node g n) eqn:Hn; [done|]. cbn [g_node g_adj].
    rewrite !dkeys_dset. unfold nx.has_node in Hn. rewrite Hn.
    destruct (dmem n (g_adj g)) eqn:Hm; [|by rewrite Hk].
    apply dmem_keys in Hm. rewrite Hk in Hm. apply dmem_keys in Hm. congruence.
  - unfold grow. destruct (nx.has_node g n); [done|]. cbn [g_adj]. by apply NoDup_dkeys_dset.
  - intros u v. unfold nx.has_edge. rewrite !adj_grow by done. apply Hs.
Qed.

Lemma well_formed_link (g : Graph) (u v : node) (l : loc) :
  well_formed g → nx.has_node g u = true → nx.has_node g v = true →
  well_formed (nx.link g u v l).
Proof.
  intros [Hk Hnd Hs] Hu Hv.
  assert (Hmem : ∀ (a : dict node (dict node loc)) n nbrs,
             n ∈ dkeys a → dkeys (dset n nbrs a) = dkeys a).
  { intros a n nbrs Hn. rewrite dkeys_dset. apply dmem_keys in Hn. by rewrite Hn. }
  assert (Hua : u ∈ dkeys (g_adj g)) by (rewrite Hk; by apply has_node_keys).
  assert (Hva : v ∈ dkeys (g_adj g)) by (rewrite Hk; by apply has_node_keys).
  assert (Hkeys : dkeys (g_adj (nx.link g u v l)) = dkeys (g_adj g)).
  { unfold nx.link. cbn [g_node g_adj]. rewrite Hmem; [by rewrite Hmem|by rewrite Hmem]. }
  split.
  - by rewrite Hkeys.
  - by rewrite Hkeys.
  - intros x y. rewrite !has_edge_link, Hs.
    rewrite <- !orb_assoc. f_equal. rewrite orb_comm.
    f_equal; apply bool_decide_ext; tauto.
Qed.

(** Twice the number of edges. *)
Definition degree_sum (g : Graph) : nat := list_sum (map (nx.degree g) (nx.nodes g)).

Definition weight (n : node) (nbrs : dict node loc) : nat :=
  length nbrs + (if dmem n nbrs then 1 else 0).

Definition adj_sum (a : dict node (dict node loc)) : nat :=
  list_sum (map (fun e => weight e.1 e.2) a).

Lemma degree_sum_adj (g : Graph) : well_formed g → degree_sum g = adj_sum (g_adj g).
Proof.
  intros [Hk Hnd _]. unfold degree_sum, nx.nodes. rewrite <- Hk. clear Hk.
  unfold nx.degree, nx.has_edge, nx.adj, adj_sum.
  induction (g_adj g) as [|[n nbrs] a IH]; [done|].
  simpl in Hnd. apply NoDup_cons in Hnd as [Hn Hnd].
  cbn [map dkeys list_sum fst snd]. unfold dget_default at 1 2. simpl.
  rewrite decide_True by done. unfold weight at 1. f_equal.
  rewrite <- (IH Hnd). f_equal. apply map_ext_in. intros x Hx.
  apply list_elem_of_In in Hx.
  unfold dget_default. simpl. rewrite decide_False; [done|].
  intros ->. done.
Qed.

Lemma adj_sum_dset (a : dict node (dict node loc)) (u : node) (old new : dict node loc) :
  dget u a = Some old →
  adj_sum (dset u new a) + weight u old = adj_sum a + weight u new.
Proof.
  unfold adj_sum. induction a as [|[n nbrs] a IH]; [done|]. simpl.
  destruct (decide (u = n)) as [->|Hne]; simpl.
  - intros [= ->]. lia.
  - intros Hd. specialize (IH Hd). lia.
Qed.

Lemma adj_sum_dset_new (a : dict node (dict node loc)) (u : node) :
  dget u a = None → adj_sum (dset u [] a) = adj_sum a.
Proof.
  unfold adj_sum. induction a as [|[n nbrs] a IH]; [done|]. simpl.
  destruct (decide (u = n)) as [->|Hne]; simpl; [done|].
  intros Hd. by rewrite (IH Hd).
Qed.

Lemma degree_sum_grow (g : Graph) (n : node) (l : loc) :
  well_formed g → degree_sum (grow g n l) = degree_sum g.
Proof.
  intros Hwf. rewrite !degree_sum_adj by (try apply well_formed_grow; done).
  unfold grow. destruct (nx.has_node g n) eqn:Hn; [done|]. cbn [g_adj].
  apply adj_sum_dset_new. apply dget_None_keys. rewrite (wf_keys g Hwf).
  intros Hin. apply has_node_keys in Hin. congruence.
Qed.

Lemma adj_Some (g : Graph) (n : node) :
  n ∈ dkeys (g_adj g) → dget n (g_adj g) = Some (nx.adj g n).
Proof.
  intros Hn. unfold nx.adj, dget_default.
  destruct (dget _ _) eqn:Hd; [done|]. by apply dget_None_keys in Hd.
Qed.

Lemma weight_dset (x y : node) (l : loc) (nbrs : dict node loc) :
  dmem y nbrs = false →
  weight x (dset y l nbrs) = weight x nbrs + (if decide (y = x) then 2 else 1).
Proof.
  intros Hy. unfold weight. rewrite length_dset, dmem_dset, Hy.
  destruct (decide (y = x)) as [->|Hne]; [rewrite Hy|]; lia.
Qed.

(** A new edge adds two to the sum of the degrees. *)
Lemma degree_sum_link (g : Graph) (u v : node) (l : loc) :
  well_formed g → nx.has_node g u = true → nx.has_node g v = true →
  nx.has_edge g u v = false →
  degree_sum (nx.link g u v l) = degree_sum g + 2.
Proof.
  intros Hwf Hu Hv He.
  rewrite !degree_sum_adj by (try apply well_formed_link; done).
  assert (Hua : u ∈ dkeys (g_adj g)) by (rewrite (wf_keys g Hwf); by apply has_node_keys).
  assert (Hva : v ∈ dkeys (g_adj g)) by (rewrite (wf_keys g Hwf); by apply has_node_keys).
  assert (He' : nx.has_edge g v u = false) by (by rewrite (wf_sym g Hwf)).
  unfold nx.has_edge in He, He'.
  unfold nx.link. cbn [g_node g_adj].
  pose proof (adj_sum_dset (g_adj g) u (nx.adj g u) (dset v l (nx.adj g u))
                (adj_Some g u Hua)) as H1.
  rewrite (weight_dset u v l _ He) in H1.
  pose proof (adj_dset (g_adj g) (g_node g) u v (dset v l (nx.adj g u))) as Hadj.
  rewrite Hadj. clear Hadj. destruct g as [gn ga]. cbn [g_node g_adj] in *.
  destruct (decide (u = v)) as [->|Huv].
  - rewrite decide_True in H1 by done.
    rewrite (dset_same v l (dset v l _)) by apply dget_dset_eq.
    rewrite (dset_same v (dset v l _) (dset v _ ga)) by apply dget_dset_eq.
    lia.
  - rewrite decide_False in H1 by done.
    pose proof (adj_sum_dset (dset u (dset v l (nx.adj (mkGraph gn ga) u)) ga) v
                  (nx.adj (mkGraph gn ga) v) (dset u l (nx.adj (mkGraph gn ga) v))) as H2.
    rewrite (weight_dset v u l _ He'), decide_False in H2 by done.
    rewrite dget_dset_ne in H2 by done.
    specialize (H2 (adj_Some (mkGraph gn ga) v Hva)). lia.
Qed.

(** *** What [add_edge] does to the store *)

Lemma ensure_node_run (r : gref) (n : node) (w : world) (g : Graph) :
  graphs w !! r = Some g →
  ∃ w', nx.ensure_node r n w = (Ok (), w') ∧
        graphs w' = <[r := grow g n (length (heap w))]> (graphs w) ∧
        log w' = log w ∧
        (∃ h, heap w' = heap w ++ h).
Proof.
  intros Hr. unfold nx.ensure_node, mbind, get_graph. rewrite Hr. simpl.
  unfold grow. destruct (nx.has_node g n).
  - eexists. split; [done|]. rewrite list_insert_id by done.
    repeat split. exists []. by rewrite app_nil_r.
  - eexists. split; [done|]. simpl. repeat split. by eexists.
Qed.

Lemma add_edge_run (r : gref) (u v : node) (attr : attrs) (w : world) (g : Graph) :
  graphs w !! r = Some g →
  ∃ w' lu lv l,
    nx.add_edge r u v attr w = (Ok (), w') ∧
    graphs w' = <[r := nx.link (grow (grow g u lu) v lv) u v l]> (graphs w) ∧
    log w' = log w.
Proof.
  intros Hr. unfold nx.add_edge. unfold mbind at 1.
  destruct (ensure_node_run r u w g Hr) as (w1 & -> & Hg1 & Hl1 & _).
  assert (Hr1 : graphs w1 !! r = Some (grow g u (length (heap w)))).
  { rewrite Hg1. apply list_lookup_insert_eq. by eapply lookup_lt_Some. }
  unfold mbind at 1.
  destruct (ensure_node_run r v w1 _ Hr1) as (w2 & -> & Hg2 & Hl2 & _).
  set (g2 := grow (grow g u (length (heap w))) v (length (heap w1))) in *.
  assert (Hr2 : graphs w2 !! r = Some g2).
  { rewrite Hg2. apply list_lookup_insert_eq. by eapply lookup_lt_Some. }
  unfold mbind, get_graph. rewrite Hr2. simpl.
  destruct (nx.edge_loc g2 u v) as [l|]; simpl.
  - eexists _, _, _, l. split; [done|]. simpl.
    rewrite Hg2, Hg1, !list_insert_insert_eq. split; [done|]. congruence.
  - eexists _, _, _, _. split; [done|]. simpl.
    rewrite Hg2, Hg1, !list_insert_insert_eq. split; [done|]. congruence.
Qed.

(** The structure after [add_edge(u, v)]. *)
Definition joined (g : Graph) (u v : node) (lu lv l : loc) : Graph :=
  nx.link (grow (grow g u lu) v lv) u v l.

Lemma joined_well_formed (g : Graph) (u v : node) (lu lv l : loc) :
  well_formed g → well_formed (joined g u v lu lv l).
Proof.
  intros Hwf. apply well_formed_link.
  - by do 2 apply well_formed_grow.
  - rewrite !has_node_grow. by rewrite bool_decide_eq_true_2, orb_true_r.
  - rewrite !has_node_grow. by rewrite (bool_decide_eq_true_2 (v = v)), orb_true_r.
Qed.

Lemma joined_has_edge (g : Graph) (u v : node) (lu lv l : loc) (x y : node) :
  well_formed g →
  nx.has_edge (joined g u v lu lv l) x y =
    nx.has_edge g x y || bool_decide (x = u ∧ y = v) || bool_decide (x = v ∧ y = u).
Proof.
  intros Hwf. unfold joined. rewrite has_edge_link. do 2 f_equal.
  unfold nx.has_edge. rewrite !adj_grow; [done|apply Hwf|].
  apply (wf_keys _ (well_formed_grow g u lu Hwf)).
Qed.

Lemma joined_degree_sum (g : Graph) (u v : node) (lu lv l : loc) :
  well_formed g → nx.has_edge g u v = false →
  degree_sum (joined g u v lu lv l) = degree_sum g + 2.
Proof.
  intros Hwf He. unfold joined. rewrite degree_sum_link.
  - rewrite !degree_sum_grow; [done|done|]. by apply well_formed_grow.
  - by do 2 apply well_formed_grow.
  - rewrite !has_node_grow. by rewrite bool_decide_eq_true_2, orb_true_r.
  - rewrite !has_node_grow. by rewrite (bool_decide_eq_true_2 (v = v)), orb_true_r.
  - unfold nx.has_edge in *. rewrite !adj_grow; [done|apply Hwf|].
    apply (wf_keys _ (well_formed_grow g u lu Hwf)).
Qed.

Lemma edge_loc_link_other (g : Graph) (u v : node) (l : loc) (x y : node) :
  ¬ (x = u ∧ y = v) → ¬ (x = v ∧ y = u) →
  nx.edge_loc (nx.link g u v l) x y = nx.edge_loc g x y.
Proof.
  intros H1 H2. unfold nx.edge_loc. rewrite adj_link.
  destruct (decide (x = u)) as [->|Hu].
  - rewrite dget_dset_ne; [done|]. intros ->. by apply H1.
  - destruct (decide (x = v)) as [->|Hv]; [|done].
    rewrite dget_dset_ne; [done|]. intros ->. by apply H2.
Qed.

Lemma edge_loc_link_sym (g : Graph) (u v : node) (l : loc) :
  nx.edge_loc (nx.link g u v l) v u = Some l.
Proof.
  unfold nx.edge_loc. rewrite adj_link.
  destruct (decide (v = u)) as [->|Hne]; [apply dget_dset_eq|].
  rewrite decide_True by done. apply dget_dset_eq.
Qed.

Lemma edge_loc_grow (g : Graph) (n : node) (l : loc) (x y : node) :
  well_formed g → nx.edge_loc (grow g n l) x y = nx.edge_loc g x y.
Proof. intros Hwf. unfold nx.edge_loc. rewrite adj_grow; [done|apply Hwf]. Qed.

Lemma edge_loc_joined (g : Graph) (u v : node) (lu lv l : loc) (x y : node) :
  well_formed g →
  nx.edge_loc (joined g u v lu lv l) x y =
    if decide ((x = u ∧ y = v) ∨ (x = v ∧ y = u)) then Some l else nx.edge_loc g x y.
Proof.
  intros Hwf. unfold joined. destruct (decide _) as [[[-> ->]|[-> ->]]|Hne].
  - apply edge_loc_link.
  - apply edge_loc_link_sym.
  - rewrite edge_loc_link_other by tauto.
    rewrite !edge_loc_grow; [done|done|by apply well_formed_grow].
Qed.

Lemma has_edge_edge_loc (g : Graph) (u v : node) :
  nx.has_edge g u v = false ↔ nx.edge_loc g u v = None.
Proof.
  unfold nx.has_edge, nx.edge_loc, dmem. rewrite bool_decide_eq_false.
  destruct (dget _ _); split; try done.
  intros Hn. destruct Hn. by eexists.
Qed.

(** [add_edge] between two nodes that no edge joins yet: the dictionary of
    the edge is a new one, it holds the attributes given, and the
    dictionaries that were there are kept. *)
Lemma add_edge_run_new (r : gref) (u v : node) (attr : attrs) (w : world) (g : Graph) :
  graphs w !! r = Some g → well_formed g → nx.has_edge g u v = false →
  ∃ w' lu lv l,
    nx.add_edge r u v attr w = (Ok (), w') ∧
    graphs w' = <[r := joined g u v lu lv l]> (graphs w) ∧
    log w' = log w ∧
    length (heap w) ≤ l ∧
    heap w' !! l = Some (dupdate [] attr) ∧
    (∀ l', l' < length (heap w) → heap w' !! l' = heap w !! l').
Proof.
  intros Hr Hwf He. unfold nx.add_edge. unfold mbind at 1.
  destruct (ensure_node_run r u w g Hr) as (w1 & -> & Hg1 & Hl1 & [h1 Hh1]).
  assert (Hr1 : graphs w1 !! r = Some (grow g u (length (heap w)))).
  { rewrite Hg1. apply list_lookup_insert_eq. by eapply lookup_lt_Some. }
  unfold mbind at 1.
  destruct (ensure_node_run r v w1 _ Hr1) as (w2 & -> & Hg2 & Hl2 & [h2 Hh2]).
  set (g2 := grow (grow g u (length (heap w))) v (length (heap w1))) in *.
  assert (Hr2 : graphs w2 !! r = Some g2).
  { rewrite Hg2. apply list_lookup_insert_eq. by eapply lookup_lt_Some. }
  unfold mbind, get_graph. rewrite Hr2. simpl.
  assert (He2 : nx.edge_loc g2 u v = None).
  { unfold g2. rewrite !edge_loc_grow; [by apply has_edge_edge_loc|done|].
    by apply well_formed_grow. }
  rewrite He2. simpl.
  eexists _, _, _, _. split; [done|]. simpl.
  rewrite Hg2, Hg1, !list_insert_insert_eq. split; [done|].
  split; [congruence|].
  rewrite lookup_app_r, Nat.sub_diag by done. simpl.
  rewrite Hh2, Hh1, !length_app. split; [lia|].
  split.
  - rewrite list_lookup_insert_eq; [done|]. rewrite !length_app. simpl. lia.
  - intros l' Hl'. rewrite list_lookup_insert_ne by lia.
    rewrite <- !app_assoc. by rewrite lookup_app_l.
Qed.

(** ** What [Network.__init__] builds *)

(** The first and the last entry of [connects]. *)
Definition ends (c : centreline) : option (node * node) :=
  match head (cl_connects c), last (cl_connects c) with
  | Some n0, Some n1 => Some (n0, n1)
  | _, _ => None
  end.

(** The centrelines of a list that the loop of [Network.__init__] makes an
    edge of, [seen] being the ids accepted before. *)
Fixpoint accepted (seen : list string) (cs : list centreline) : list centreline :=
  match cs with
  | [] => []
  | c :: cs' =>
      match cl_id c with
      | None => accepted seen cs'
      | Some id =>
          if decide (id ∈ seen) then accepted seen cs'
          else if decide (length (cl_connects c) < 2) then accepted seen cs'
          else c :: accepted (seen ++ [id]) cs'
      end
  end.

(** The graph has an edge between the ends of [c]. *)
Definition edge_of (g : Graph) (c : centreline) : Prop :=
  ∃ n0 n1, ends c = Some (n0, n1) ∧ nx.has_edge g n0 n1 = true.

Section NetworkFacts.
Variable get_property : string → string → option string.

Lemma ends_is_Some (c : centreline) :
  ¬ length (cl_connects c) < 2 → ∃ n0 n1, ends c = Some (n0, n1).
Proof.
  unfold ends. destruct (cl_connects c) as [|n0 l] eqn:Hc; simpl; [lia|]. intros _.
  destruct (last (n0 :: l)) as [n1|] eqn:Hl; [by eexists _, _|].
  by apply last_None in Hl.
Qed.

(** One turn of the loop never raises, and keeps the edges there are. *)
Lemma init_centreline_run (self : Network) (c : centreline) (w : world) (g : Graph) :
  graphs w !! centreline_graph self = Some g → well_formed g →
  ∃ self' w' g',
    init_centreline get_property self c w = (Ok self', w') ∧
    centreline_graph self' = centreline_graph self ∧
    graphs w' !! centreline_graph self = Some g' ∧ well_formed g' ∧
    (∀ x y, nx.has_edge g x y = true → nx.has_edge g' x y = true) ∧
    centreline_ids self' = centreline_ids self ++
      omap cl_id (accepted (centreline_ids self) [c]) ∧
    Forall (edge_of g') (accepted (centreline_ids self) [c]).
Proof.
  intros Hg Hwf. unfold init_centreline. cbv zeta. cbn [accepted].
  destruct (cl_id c) as [id|] eqn:Hid.
  2: { eexists self, _, g. split; [done|]. cbn. rewrite app_nil_r. by split_and!. }
  destruct (decide (id ∈ centreline_ids self)) as [Hin|Hnew].
  { eexists self, _, g. split; [done|]. cbn. rewrite app_nil_r. by split_and!. }
  destruct (decide (length (cl_connects c) < 2)) as [Hshort|Hlong].
  { eexists self, _, g. split; [done|]. cbn. rewrite app_nil_r. by split_and!. }
  destruct (ends_is_Some c Hlong) as (n0 & n1 & Hends).
  pose proof Hends as Hends'. unfold ends in Hends'.
  destruct (head (cl_connects c)) as [n0'|]; [|done].
  destruct (last (cl_connects c)) as [n1'|]; [|done].
  injection Hends' as -> ->.
  destruct (fold_left _ _ _) as [contained props].
  unfold mbind.
  destruct (add_edge_run (centreline_graph self) n0 n1 props w g Hg)
    as (w' & lu & lv & l & -> & Hg' & Hlog).
  eexists _, w', (joined g n0 n1 lu lv l). split; [done|]. simpl.
  assert (Hlook : graphs w' !! centreline_graph self = Some (joined g n0 n1 lu lv l)).
  { rewrite Hg'. apply list_lookup_insert_eq. by eapply lookup_lt_Some. }
  split_and!; try done.
  - by apply joined_well_formed.
  - intros x y Hxy. rewrite joined_has_edge by done. by rewrite Hxy.
  - by rewrite Hid.
  - constructor; [|done]. exists n0, n1. split; [done|].
    rewrite joined_has_edge by done.
    by rewrite (bool_decide_eq_true_2 (n0 = n0 ∧ n1 = n1)), orb_true_r.
Qed.

Lemma accepted_cons (seen : list string) (c : centreline) (cs : list centreline) :
  accepted seen (c :: cs) =
    accepted seen [c] ++ accepted (seen ++ omap cl_id (accepted seen [c])) cs.
Proof.
  simpl. destruct (cl_id c) as [id|] eqn:Hid; simpl; [|by rewrite app_nil_r].
  destruct (decide (id ∈ seen)); simpl; [by rewrite app_nil_r|].
  destruct (decide (length (cl_connects c) < 2)); simpl; [by rewrite app_nil_r|].
  by rewrite Hid.
Qed.

Lemma init_loop_run (cs : list centreline) : ∀ (self : Network) (w : world) (g : Graph),
  graphs w !! centreline_graph self = Some g → well_formed g →
  ∃ self' w' g',
    foldM cs self (init_centreline get_property) w = (Ok self', w') ∧
    centreline_graph self' = centreline_graph self ∧
    graphs w' !! centreline_graph self = Some g' ∧ well_formed g' ∧
    (∀ x y, nx.has_edge g x y = true → nx.has_edge g' x y = true) ∧
    centreline_ids self' = centreline_ids self ++
      omap cl_id (accepted (centreline_ids self) cs) ∧
    Forall (edge_of g') (accepted (centreline_ids self) cs).
Proof.
  induction cs as [|c cs IH]; intros self w g Hg Hwf.
  { exists self, w, g. simpl. rewrite app_nil_r. by split_and!. }
  destruct (init_centreline_run self c w g Hg Hwf)
    as (self1 & w1 & g1 & Hrun & Hr1 & Hg1 & Hwf1 & Hmono1 & Hids1 & Hedges1).
  rewrite <- Hr1 in Hg1.
  destruct (IH self1 w1 g1 Hg1 Hwf1)
    as (self2 & w2 & g2 & Hrun2 & Hr2 & Hg2 & Hwf2 & Hmono2 & Hids2 & Hedges2).
  exists self2, w2, g2. cbn [foldM]. unfold mbind. rewrite Hrun, Hrun2.
  rewrite Hr1 in Hg2. rewrite accepted_cons, omap_app, app_assoc, <- Hids1.
  split_and!; try done.
  - congruence.
  - auto.
  - apply Forall_app. split; [|done].
    eapply Forall_impl; [exact Hedges1|].
    intros c' (n0 & n1 & He & Hedge). exists n0, n1. auto.
Qed.

(** C7, as the code has it: every centreline that [Network.__init__]
    accepts makes an edge between the first and the last entry of its
    [connects]; nothing asks that the two differ. *)
Theorem accepted_centreline_edge (network : network_decl) (w : world) :
  ∃ net w' g,
    Network_init get_property network w = (Ok net, w') ∧
    graphs w' !! centreline_graph net = Some g ∧
    centreline_ids net = omap cl_id (accepted [] (decl_centrelines network)) ∧
    Forall (edge_of g) (accepted [] (decl_centrelines network)).
Proof.
  unfold Network_init, mbind, new_graph.
  set (w0 := mkWorld (graphs w ++ [empty_graph]) (heap w) (log w)).
  set (self := mkNetwork _ _ _ _ _ _).
  destruct (init_loop_run (decl_centrelines network) self w0 empty_graph)
    as (net & w' & g & Hrun & Hr & Hg & _ & _ & Hids & Hedges).
  { simpl. by rewrite lookup_app_r, Nat.sub_diag. }
  { apply well_formed_empty. }
  exists net, w', g. rewrite Hr. by split_and!.
Qed.

End NetworkFacts.

(** *** Declarations whose centrelines are all valid *)

Definition valid (c : centreline) : Prop :=
  is_Some (cl_id c) ∧ 2 ≤ length (cl_connects c).

(** [c] joins [x] and [y], in one order or the other. *)
Definition joins (c : centreline) (x y : node) : Prop :=
  ends c = Some (x, y) ∨ ends c = Some (y, x).

Definition same_ends (c c' : centreline) : Prop :=
  ∃ x y, ends c = Some (x, y) ∧ joins c' x y.

(** No two centrelines of the list join the same two nodes. *)
Fixpoint distinct_ends (cs : list centreline) : Prop :=
  match cs with
  | [] => True
  | c :: cs' => Forall (fun c' => ¬ same_ends c c') cs' ∧ distinct_ends cs'
  end.

(** What the network records of the centreline [c]: its edge, with its
    id, the number of features that contain it, and itself in the list of
    every such feature. *)
Definition recorded (net : Network) (g : Graph) (w : world) (c : centreline) : Prop :=
  ∃ id n0 n1 l d,
    cl_id c = Some id ∧ ends c = Some (n0, n1) ∧
    nx.edge_loc g n0 n1 = Some l ∧ heap w !! l = Some d ∧ dget "id" d = Some (VStr id) ∧
    dget id (contained_count net) = Some (length (remove_dups (cl_containedIn c))) ∧
    ∀ f, f ∈ cl_containedIn c → id ∈ dget_default f [] (contained_centrelines net).

Section NetworkValid.
Variable get_property : string → string → option string.

Lemma distinct_ends_app (cs cs' : list centreline) :
  distinct_ends (cs ++ cs') ↔
  distinct_ends cs ∧ distinct_ends cs' ∧
  Forall (fun c => Forall (fun c' => ¬ same_ends c c') cs') cs.
Proof.
  induction cs as [|c cs IH]; simpl.
  - split; [intros H; by split_and!|tauto].
  - rewrite IH, Forall_app, Forall_cons. tauto.
Qed.

Lemma note_container_fold (id : string) (fs : list string) :
  ∀ acc : dict string (list string) * attrs,
  let r := fold_left (note_container get_property id) fs acc in
  (∀ f, f ∈ fs → id ∈ dget_default f [] r.1) ∧
  (∀ f x, x ∈ dget_default f [] acc.1 → x ∈ dget_default f [] r.1) ∧
  dget "id" r.2 = dget "id" acc.2 ∧
  (NoDup (dkeys acc.2) → NoDup (dkeys r.2)).
Proof.
  induction fs as [|f0 fs IH]; intros acc; simpl.
  { split_and!; try done. intros f Hf. by apply elem_of_nil in Hf. }
  destruct (IH (note_container get_property id acc f0)) as (H1 & H2 & H3 & H4).
  assert (Hstep : ∀ f x, x ∈ dget_default f [] acc.1 →
            x ∈ dget_default f [] (note_container get_property id acc f0).1).
  { intros f x Hx. unfold note_container, dget_default in *. simpl. rewrite dget_dset.
    destruct (decide (f0 = f)) as [->|Hne]; [|done].
    apply elem_of_app. by left. }
  split_and!.
  - intros f Hf. apply elem_of_cons in Hf as [->|Hf]; [|by apply H1].
    apply H2. unfold note_container, dget_default. simpl. rewrite dget_dset_eq.
    apply elem_of_app. right. by apply list_elem_of_singleton.
  - intros f x Hx. apply H2. by apply Hstep.
  - rewrite H3. unfold note_container. simpl.
    destruct (decide _); [|done]. by rewrite dget_dset_ne.
  - intros Hnd. apply H4. unfold note_container. simpl.
    destruct (decide _); [|done]. by apply NoDup_dkeys_dset.
Qed.

Record inv (finished : list centreline) (self : Network) (w : world) (g : Graph) : Prop := {
  inv_graph : graphs w !! centreline_graph self = Some g;
  inv_wf : well_formed g;
  inv_sum : degree_sum g = 2 * length finished;
  inv_edges : ∀ x y, nx.has_edge g x y = true → Exists (fun c => joins c x y) finished;
  inv_bound : ∀ x y l, nx.edge_loc g x y = Some l → l < length (heap w);
  inv_ids : centreline_ids self = omap cl_id finished;
  inv_recorded : Forall (recorded self g w) finished
}.

Lemma init_centreline_valid (finished : list centreline) (self : Network) (w : world)
    (g : Graph) (c : centreline) :
  inv finished self w g → valid c →
  cl_id c ∉ map cl_id finished →
  Forall (fun c' => ¬ same_ends c' c) finished →
  ∃ self' w' g',
    init_centreline get_property self c w = (Ok self', w') ∧
    centreline_graph self' = centreline_graph self ∧
    inv (finished ++ [c]) self' w' g'.
Proof.
  intros [Hg Hwf Hsum Hedges Hbound Hids Hrec] [[id Hid] Hlen] Hfresh Hdistinct.
  unfold init_centreline. cbv zeta. rewrite Hid.
  assert (Hnew : id ∉ centreline_ids self).
  { rewrite Hids. intros Hin. apply Hfresh. rewrite Hid.
    apply list_elem_of_omap in Hin as (c' & Hc' & Hidc').
    apply list_elem_of_fmap. exists c'. split; [done|done]. }
  destruct (decide (id ∈ centreline_ids self)) as [?|_]; [done|].
  destruct (decide (length (cl_connects c) < 2)) as [?|_]; [lia|].
  destruct (ends_is_Some c) as (n0 & n1 & Hends); [lia|].
  pose proof Hends as Hends'. unfold ends in Hends'.
  destruct (head (cl_connects c)) as [n0'|]; [|done].
  destruct (last (cl_connects c)) as [n1'|]; [|done].
  injection Hends' as -> ->.
  set (props0 := [("id", VStr id)] ++ _).
  pose proof (note_container_fold id (containing_features c)
                (contained_centrelines self, props0)) as Hfold.
  destruct (fold_left _ _ _) as [contained props]. simpl in Hfold.
  destruct Hfold as (Hin & Hmono & Hpid & Hnd).
  assert (He : nx.has_edge g n0 n1 = false).
  { destruct (nx.has_edge g n0 n1) eqn:He; [|done].
    apply Hedges in He. apply Exists_exists in He as (c' & Hc' & Hj).
    rewrite Forall_forall in Hdistinct. destruct (Hdistinct c' Hc').
    destruct Hj as [Hj|Hj].
    - exists n0, n1. split; [done|by left].
    - exists n1, n0. split; [done|by right]. }
  unfold mbind.
  destruct (add_edge_run_new (centreline_graph self) n0 n1 props w g Hg Hwf He)
    as (w' & lu & lv & l & -> & Hg' & Hlog & Hl & Hcell & Hkeep).
  eexists _, w', (joined g n0 n1 lu lv l). split; [done|]. split; [done|].
  assert (Hgrow : length (heap w) ≤ length (heap w')).
  { apply lookup_lt_Some in Hcell. lia. }
  assert (Hpropid : dget "id" (dupdate [] props) = Some (VStr id)).
  { rewrite dget_dupdate.
    - rewrite Hpid. unfold props0. simpl. done.
    - apply Hnd. unfold props0. destruct (decide _); simpl.
      + apply NoDup_cons. split; [|apply NoDup_singleton].
        intros Hx. apply list_elem_of_singleton in Hx. discriminate.
      + apply NoDup_singleton. }
  split; simpl.
  - rewrite Hg'. apply list_lookup_insert_eq. by eapply lookup_lt_Some.
  - by apply joined_well_formed.
  - rewrite joined_degree_sum by done. rewrite Hsum, length_app. simpl. lia.
  - intros x y Hxy. rewrite joined_has_edge in Hxy by done.
    apply Exists_app.
    apply orb_true_iff in Hxy as [Hxy|Hxy]; [apply orb_true_iff in Hxy as [Hxy|Hxy]|].
    + left. by apply Hedges.
    + apply bool_decide_eq_true in Hxy as [-> ->]. right. constructor. by left.
    + apply bool_decide_eq_true in Hxy as [-> ->]. right. constructor. by right.
  - intros x y l' Hl'. rewrite edge_loc_joined in Hl' by done.
    destruct (decide (x = n0 ∧ y = n1 ∨ x = n1 ∧ y = n0)).
    + injection Hl' as <-. by eapply lookup_lt_Some.
    + apply Hbound in Hl'. lia.
  - rewrite Hids, omap_app. simpl. by rewrite Hid.
  - apply Forall_app. split.
    + rewrite Forall_forall in Hrec, Hdistinct. apply Forall_forall. intros c' Hc'.
      destruct (Hrec c' Hc') as (id' & x & y & l' & d & Hid' & Hends' & Hloc & Hd & Hdid & Hcount & Hcont).
      exists id', x, y, l', d. split_and!; try done.
      * rewrite edge_loc_joined by done. rewrite decide_False; [done|].
        intros Hsame. destruct (Hdistinct c' Hc'). exists x, y. split; [done|].
        destruct Hsame as [[-> ->]|[-> ->]]; [by left|by right].
      * rewrite Hkeep; [done|]. by eapply Hbound.
      * simpl. rewrite dget_dset_ne; [done|]. intros <-. apply Hfresh.
        apply list_elem_of_fmap. exists c'. split; [congruence|done].
      * simpl. intros f Hf. by apply Hmono, Hcont.
    + constructor; [|done].
      exists id, n0, n1, l, (dupdate [] props). split_and!; try done.
      * rewrite edge_loc_joined by done. rewrite decide_True; [done|]. by left.
      * simpl. by rewrite dget_dset_eq.
      * simpl. intros f Hf. apply Hin. unfold containing_features.
        by apply elem_of_remove_dups.
Qed.

Lemma init_loop_valid (cs : list centreline) :
  ∀ (finished : list centreline) (self : Network) (w : world) (g : Graph),
  inv finished self w g → Forall valid cs →
  NoDup (map cl_id (finished ++ cs)) → distinct_ends (finished ++ cs) →
  ∃ self' w' g',
    foldM cs self (init_centreline get_property) w = (Ok self', w') ∧
    centreline_graph self' = centreline_graph self ∧
    inv (finished ++ cs) self' w' g'.
Proof.
  induction cs as [|c cs IH]; intros finished self w g Hinv Hvalid Hnd Hdist.
  { exists self, w, g. rewrite app_nil_r. by split_and!. }
  apply Forall_cons in Hvalid as [Hc Hvalid].
  destruct (init_centreline_valid finished self w g c Hinv Hc)
    as (self1 & w1 & g1 & Hrun & Hr1 & Hinv1).
  { rewrite map_app in Hnd. apply NoDup_app in Hnd as (_ & Hnd & _).
    intros Hin. apply (Hnd _ Hin). simpl. left. }
  { apply distinct_ends_app in Hdist as (_ & _ & Hd).
    eapply Forall_impl; [exact Hd|]. intros c' Hc'. by apply Forall_cons in Hc' as [? _]. }
  destruct (IH (finished ++ [c]) self1 w1 g1 Hinv1 Hvalid)
    as (self2 & w2 & g2 & Hrun2 & Hr2 & Hinv2).
  { by rewrite <- app_assoc. }
  { by rewrite <- app_assoc. }
  exists self2, w2, g2. cbn [foldM]. unfold mbind. rewrite Hrun, Hrun2.
  rewrite <- app_assoc in Hinv2. split_and!; [done|congruence|done].
Qed.

(** C6, as the code has it: when the centrelines have ids, all different,
    two [connects] entries or more, and no two of them join the same two
    nodes, the graph has one edge for each, carrying its id, and the
    containment index holds what each declares. *)
Theorem network_edges_and_containment (network : network_decl) (w : world) :
  Forall valid (decl_centrelines network) →
  NoDup (map cl_id (decl_centrelines network)) →
  distinct_ends (decl_centrelines network) →
  ∃ net w' g,
    Network_init get_property network w = (Ok net, w') ∧
    graphs w' !! centreline_graph net = Some g ∧
    nx.number_of_edges g = length (decl_centrelines network) ∧
    Forall (recorded net g w') (decl_centrelines network).
Proof.
  intros Hvalid Hnd Hdist.
  unfold Network_init, mbind, new_graph.
  set (w0 := mkWorld (graphs w ++ [empty_graph]) (heap w) (log w)).
  set (self := mkNetwork _ _ _ _ _ _).
  destruct (init_loop_valid (decl_centrelines network) [] self w0 empty_graph)
    as (net & w' & g & Hrun & Hr & [Hg Hwf Hsum Hedges Hbound Hids Hrec]); try done.
  { split; try done; try apply well_formed_empty.
    simpl. by rewrite lookup_app_r, Nat.sub_diag. }
  exists net, w', g. simpl in *. split_and!; try done.
  unfold nx.number_of_edges. fold (degree_sum g). rewrite Hsum.
  set (n := length _). replace (n + (n + 0)) with (2 * n) by lia.
  apply Nat.div2_double.
Qed.

End NetworkValid.

Definition no_properties : string → string → option string := fun _ _ => None.
Definition empty_world : world := mkWorld [] [] [].

(** A centreline whose [connects] starts and ends with the same node. *)
Definition looping : network_decl :=
  mkNetworkDecl (Some "net") [mkCentreline (Some "A") ["n1"; "n2"; "n1"] []].

(** C7 as stated fails: the centreline is accepted, and its edge is a
    self-loop. *)
Lemma accepted_centreline_self_loop :
  ∃ net w g,
    Network_init no_properties looping empty_world = (Ok net, w) ∧
    graphs w !! centreline_graph net = Some g ∧
    centreline_ids net = ["A"] ∧
    map (fun e => (e.1.1, e.1.2)) (nx.edges g) = [("n1", "n1")].
Proof. eexists _, _, _. vm_compute. by split_and!. Qed.

(** The declaration of the scenario of the specification: [A] joins [n1]
    and [n2], [B] joins [n2] and [n3] over an intermediate node. *)
Definition two_lines : network_decl :=
  mkNetworkDecl (Some "net")
    [mkCentreline (Some "A") ["n1"; "n2"] ["F"; "G"; "F"];
     mkCentreline (Some "B") ["n2"; "x"; "n3"] ["F"]].

Example two_lines_network :
  Network_init no_properties two_lines empty_world =
  (Ok (mkNetwork (Some "net") 0 ["A"; "B"] [("G", ["A"]); ("F", ["A"; "B"])]
                 [("A", 2); ("B", 1)] None),
   mkWorld [mkGraph [("n1", 0); ("n2", 1); ("n3", 3)]
                    [("n1", [("n2", 2)]); ("n2", [("n1", 2); ("n3", 4)]); ("n3", [("n2", 4)])]]
           [[]; []; [("id", VStr "A")]; [];
            [("id", VStr "B"); ("intermediates", VStrs ["x"])]]
           []).
Proof. vm_compute. reflexivity. Qed.

Lemma network_edges_and_containment_witness :
  ∃ net w' g,
    Network_init no_properties two_lines empty_world = (Ok net, w') ∧
    graphs w' !! centreline_graph net = Some g ∧
    nx.number_of_edges g = length (decl_centrelines two_lines) ∧
    Forall (recorded net g w') (decl_centrelines two_lines).
Proof.
  apply (network_edges_and_containment no_properties two_lines empty_world).
  - repeat constructor; simpl; by eexists.
  - by_decision.
  - simpl. split_and!; try done. repeat constructor.
    intros (x & y & H1 & [H2|H2]); vm_compute in H1; vm_compute in H2; congruence.
Defined.

(** Two centrelines, with different ids, between the same two nodes. *)
Definition parallel : network_decl :=
  mkNetworkDecl (Some "net")
    [mkCentreline (Some "A") ["n1"; "n2"] [];
     mkCentreline (Some "B") ["n2"; "n1"] []].

(** C6 as stated fails: the graph is a simple graph, and the second
    centreline takes over the edge of the first. *)
Lemma parallel_centrelines_share_an_edge :
  Forall valid (decl_centrelines parallel) ∧
  NoDup (map cl_id (decl_centrelines parallel)) ∧
  ∃ net w g,
    Network_init no_properties parallel empty_world = (Ok net, w) ∧
    graphs w !! centreline_graph net = Some g ∧
    nx.number_of_edges g = 1 ∧ length (decl_centrelines parallel) = 2 ∧
    (l ← nx.edge_loc g "n1" "n2"; d ← heap w !! l; dget "id" d) = Some (VStr "B").
Proof.
  split_and!.
  - repeat constructor; simpl; by eexists.
  - by_decision.
  - eexists _, _, _. vm_compute. by split_and!.
Qed.

(** ** [get_connected_subgraph] on the network of the scenario *)

Definition two_lines_graph : Graph :=
  mkGraph [("n1", 0); ("n2", 1); ("n3", 3)]
          [("n1", [("n2", 2)]); ("n2", [("n1", 2); ("n3", 4)]); ("n3", [("n2", 4)])].

(** Asking for [n1] and [n3] gives the three nodes and the two edges. *)
Example subgraph_n1_n3 :
  get_connected_subgraph two_lines_graph ["n1"; "n3"] = Ok two_lines_graph.
Proof. vm_compute. reflexivity. Qed.

(** C1 fails in the code for a single vertex: there is no pair to join,
    the set of nodes stays empty, and the vertex asked for is not in the
    subgraph returned. *)
Theorem single_vertex_subgraph_is_empty :
  get_connected_subgraph two_lines_graph ["n1"] = Ok empty_graph ∧
  "n1" ∈ nx.nodes two_lines_graph ∧
  "n1" ∉ nx.nodes empty_graph.
Proof.
  split_and!.
  - vm_compute. reflexivity.
  - by_decision.
  - apply not_elem_of_nil.
Qed.

(** ** The geometry binder ([Network.create_geometry]) *)

(** [self.__find_feature]. *)
Definition find_feature (feature_map : FeatureMap) (id : string) : M (option Feature) :=
  match features feature_map id with
  | [feature] => mret (Some feature)
  | [] => log_warning ("Unknown network feature: " +:+ id) ;;; mret None
  | _ => log_warning ("Multiple network features for: " +:+ id) ;;; mret None
  end.

(** Python's [max(a, b)]. *)
Definition py_max (a b : float) : float := if PrimFloat.ltb a b then b else a.

Definition math_pi : float := 0x1.921fb54442d18p+1%float.

Section Geometry.

(** [MIN_EDGE_JOIN_RADIUS] of [mapmaker.routing.options]. *)
Variable MIN_EDGE_JOIN_RADIUS : float.

(** What the code asks of [beziers], [mapmaker.geometry.beziers] and
    [shapely] besides points and distances.  [join_mid_point a b] is
    [BezierPath.fromSegments([a, b]).pointAtTime(0.5)]. *)
Variable tangentAtTime : Beziers.BSegment → float → Beziers.Point.
Variable normalAtTime : Beziers.BSegment → float → Beziers.Point.
Variable startAngle : Beziers.BSegment → float.
Variable endAngle : Beziers.BSegment → float.
Variable join_mid_point : Beziers.BSegment → Beziers.BSegment → Beziers.Point.
Variable fromAngle : float → Beziers.Point.
Variable bezier_to_linestring : Beziers.BSegment → list (float * float).
Variable closest_time : Beziers.BSegment → float * float → float.
Variable intersects : Shapely.Geometry → list (float * float) → bool.
Variable boundary_intersection : Shapely.Geometry → list (float * float) → Shapely.Shape.

Abbreviation b_pointAtTime := (pointAtTime Beziers.curve_at) (only parsing).
Abbreviation b_splitAtTime := (@splitAtTime float _ Beziers.Curve) (only parsing).

(** [self.__set_node_properties_from_feature(node_dict, feature_id)], the
    dictionary being the one at [node_dict].  The warning is kept without
    the [node_dict.get("id")] the source prints in it. *)
Definition set_node_properties_from_feature (self : Network) (node_dict : loc)
    (feature_id : string) : M unit :=
  match net_feature_map self with
  | None => mraise AttributeError
  | Some feature_map =>
      feature <~ find_feature feature_map feature_id ;;
      match feature with
      | None => mret ()
      | Some feature =>
          d <~ load node_dict ;;
          (if dmem "geometry" d then mret ()
           else
             store node_dict
               (dset "geometry"
                  (match feature_geometry feature with
                   | Some g => VGeometry g
                   | None => VNone
                   end)
                  (dupdate d (feature_properties feature)))) ;;;
          geometry <~ get_item node_dict "geometry" ;;
          match geometry with
          | Some (VGeometry geometry) =>
              set_item node_dict "centre" (VPoint (Shapely.centroid geometry)) ;;;
              let radius :=
                py_max (PrimFloat.sqrt (Shapely.area geometry / math_pi)) MIN_EDGE_JOIN_RADIUS in
              set_item node_dict "radii" (VRadii (0.999 * radius, 1.001 * radius)%float)
          | Some VNone | None => log_warning "Centreline node has no geometry"
          | Some _ => mraise AttributeError
          end
      end
  end.

(** [node_dict.get('centre')] and [node_dict.get('radii')]. *)
Definition centre_of (d : attrs) : option Beziers.Point :=
  match dget "centre" d with
  | Some (VPoint p) => Some p
  | _ => None
  end.

Definition radii_of (d : attrs) : option (float * float) :=
  match dget "radii" d with
  | Some (VRadii r) => Some r
  | _ => None
  end.

(** *** Where a centreline crosses its intermediate nodes *)

(** The crossing times of one node on one segment: a tuple when the
    boundary is met in a point, a sorted list otherwise. *)
Inductive times : Type :=
| TimesTuple (ts : list float)
| TimesList (ts : list float).

Definition times_of (t : times) : list float :=
  match t with
  | TimesTuple ts | TimesList ts => ts
  end.

(** Python's [<] on sequences of floats. *)
Fixpoint floats_lt (a b : list float) : bool :=
  match a, b with
  | [], [] => false
  | [], _ :: _ => true
  | _ :: _, [] => false
  | x :: a', y :: b' => if PrimFloat.eqb x y then floats_lt a' b' else PrimFloat.ltb x y
  end.

Fixpoint floats_eq (a b : list float) : bool :=
  match a, b with
  | [], [] => true
  | x :: a', y :: b' => PrimFloat.eqb x y && floats_eq a' b'
  | _, _ => false
  end.

Fixpoint insert_float (x : float) (l : list float) : list float :=
  match l with
  | [] => [x]
  | y :: l' => if PrimFloat.ltb x y then x :: l else y :: insert_float x l'
  end.

(** [sorted] on floats. *)
Definition sorted_floats (l : list float) : list float :=
  fold_left (fun acc x => insert_float x acc) l [].

(** Python's [<] on the entries of [time_points]: a tuple and a list do
    not compare. *)
Definition time_point_lt (a b : times * string) : result bool :=
  match a.1, b.1 with
  | TimesTuple ta, TimesTuple tb | TimesList ta, TimesList tb =>
      Ok (if floats_eq ta tb then String.ltb a.2 b.2 else floats_lt ta tb)
  | _, _ => Raise TypeError
  end.

Fixpoint insert_time_point (x : times * string) (l : list (times * string))
  : result (list (times * string)) :=
  match l with
  | [] => Ok [x]
  | y :: l' =>
      rbind (time_point_lt x y) (fun lt =>
      if lt then Ok (x :: l)
      else rbind (insert_time_point x l') (fun r => Ok (y :: r)))
  end.

(** [sorted(time_points)]. *)
Definition sorted_time_points (l : list (times * string)) : result (list (times * string)) :=
  fold_left (fun acc x => rbind acc (insert_time_point x)) l (Ok []).

(** [intersection.geoms]: the members of a collection; a single geometry
    has none to give. *)
Definition intersecting_points (s : Shapely.Shape) : result (list Shapely.Shape) :=
  match s with
  | Shapely.Point _ _ => Raise AttributeError
  | Shapely.MultiPoint geoms => Ok (map (fun pt => Shapely.Point pt.1 pt.2) geoms)
  | Shapely.LineString _ => Raise AttributeError
  | Shapely.GeometryCollection geoms => Ok geoms
  end.

(** [(pt.x, pt.y)]. *)
Definition point_coords (pt : Shapely.Shape) : result (float * float) :=
  match pt with
  | Shapely.Point x y => Ok (x, y)
  | _ => Raise AttributeError
  end.

(** One turn of [for node_id, geometry in intermediates.items()]. *)
Definition crossing (edge_id : string) (bz : Beziers.BSegment)
    (time_points : list (times * string)) (item : string * option Shapely.Geometry)
  : M (list (times * string)) :=
  let '(node_id, geometry) := item in
  match geometry with
  | None => mraise AttributeError
  | Some geometry =>
      let line := bezier_to_linestring bz in
      if intersects geometry line then
        match boundary_intersection geometry line with
        | Shapely.Point x y =>
            mret (time_points ++ [(TimesTuple [closest_time bz (x, y)], node_id)])
        | intersection =>
            geoms <~ lift (intersecting_points intersection) ;;
            if decide (2 < length geoms) then
              log_warning ("Intermediate node " +:+ node_id +:+
                           " has multiple intersections with centreline " +:+ edge_id) ;;;
              mret time_points
            else
              pts <~ lift (rmap point_coords geoms) ;;
              mret (time_points ++
                    [(TimesList (sorted_floats (map (closest_time bz) pts)), node_id)])
        end
      else
        log_warning ("Intermediate node " +:+ node_id +:+ " doesn't intersect centreline " +:+
                     edge_id) ;;;
        mret time_points
  end.

(** [intersection_times[seg_num]]. *)
Definition segment_crossings (edge_id : string)
    (intermediates : dict string (option Shapely.Geometry)) (bz : Beziers.BSegment)
  : M (list (times * string)) :=
  time_points <~ foldM intermediates [] (crossing edge_id bz) ;;
  lift (sorted_time_points time_points).

(** *** The width of an intermediate node *)

(** The probe of [node_width_along_line]: the line through [point] along
    [dirn], of twice the diagonal of the bounding box of the node. *)
Definition probe_line (geometry : Shapely.Geometry) (point dirn : Beziers.Point)
  : list (float * float) :=
  let bounds := Shapely.bounds geometry in
  let max_width := Shapely.distance bounds.1 bounds.2 in
  let p0 := Beziers.minus point (Beziers.scale dirn max_width) in
  let p1 := Beziers.plus point (Beziers.scale dirn max_width) in
  [(Beziers.px p0, Beziers.py p0); (Beziers.px p1, Beziers.py p1)].

(** The two points of an intersection that is a [MultiPoint] of two. *)
Definition two_points (s : Shapely.Shape) : option ((float * float) * (float * float)) :=
  match s with
  | Shapely.MultiPoint [q0; q1] => Some (q0, q1)
  | _ => None
  end.

(** The nested function [node_width_along_line]. *)
Definition node_width_along_line (intermediates : dict string (option Shapely.Geometry))
    (node_id : string) (point dirn : Beziers.Point) : M float :=
  match dget node_id intermediates with
  | None => mraise (KeyError node_id)
  | Some None => mraise AttributeError
  | Some (Some geometry) =>
      let line := probe_line geometry point dirn in
      match
        (if intersects geometry line
         then two_points (boundary_intersection geometry line)
         else None)
      with
      | Some (q0, q1) => mret (Shapely.distance q0 q1)
      | None =>
          log_error ("Cannot get width of intermediate " +:+ node_id) ;;;
          mret 0%float
      end
  end.

(** *** The path components of a segment *)

(** What [time_scale] returns when it returns. *)
Definition scaled (sx T : float) : float := ((sx - T) / (1 - T))%float.

(** [time_scale(scale, T, x)], that is [(scale(x) - T)/(1.0 - T)]: the
    division of Python raises when the divisor is zero. *)
Definition time_scale (scale : float → result float) (T x : float) : result float :=
  rbind (scale x) (fun sx =>
  if PrimFloat.eqb (1 - T) 0 then Raise ZeroDivisionError else Ok (scaled sx T)).

(** The variables of the [while] loop over the crossings of a segment. *)
Record walk : Type := mkWalk {
  walk_bz : Beziers.BSegment;
  walk_scale : float → result float;
  last_intersection : option (Beziers.BSegment * string);
  prev_intersection : option (float * string);
  path_components : list component
}.

(** One crossing with a single time. *)
Definition single_crossing (intermediates : dict string (option Shapely.Geometry))
    (edge_id node_id : string) (time_0 : float) (is_last : bool) (st : walk) : M walk :=
  match last_intersection st with
  | Some (last_bz, last_id) =>
      if decide (node_id = last_id) then
        let parts := b_splitAtTime (walk_bz st) time_0 in
        let mid_point := join_mid_point last_bz parts.1 in
        let mid_normal :=
          fromAngle ((math_pi + startAngle last_bz - endAngle parts.1) / 2)%float in
        width <~ node_width_along_line intermediates node_id mid_point mid_normal ;;
        mret (mkWalk parts.2 (time_scale (walk_scale st) time_0) None (prev_intersection st)
                (path_components st ++
                 [IntermediateNode width mid_point (startAngle last_bz) (endAngle parts.1)]))
      else mraise AssertionError
  | None =>
      if is_last then
        let parts := b_splitAtTime (walk_bz st) time_0 in
        mret (mkWalk (walk_bz st) (walk_scale st) (Some (parts.2, node_id))
                (prev_intersection st) (path_components st ++ [Curve parts.1]))
      else
        log_error ("Node " +:+ node_id +:+ " only intersects once with centreline " +:+
                   edge_id) ;;;
        mret st
  end.

(** One crossing with two times. *)
Definition double_crossing (intermediates : dict string (option Shapely.Geometry))
    (edge_id node_id : string) (t0 t1 time_0 : float) (st : walk) : M walk :=
  let overlap :=
    match prev_intersection st with
    | Some (prev_time, prev_id) =>
        if PrimFloat.leb t0 prev_time then Some prev_id else None
    | None => None
    end in
  st' <~ (match overlap with
          | Some prev_id =>
            log_error ("Intermediate nodes " +:+ prev_id +:+ " and " +:+ node_id +:+
                       " overlap on centreline " +:+ edge_id) ;;;
            mret st
          | None =>
            let parts := b_splitAtTime (walk_bz st) time_0 in
            let scale := time_scale (walk_scale st) time_0 in
            time_1 <~ lift (scale t1) ;;
            let parts' := b_splitAtTime parts.2 time_1 in
            let mid_point := b_pointAtTime parts'.1 0.5%float in
            width <~ node_width_along_line intermediates node_id mid_point
                       (normalAtTime parts'.1 0.5%float) ;;
            mret (mkWalk parts'.2 (time_scale scale time_1) (last_intersection st)
                    (prev_intersection st)
                    (path_components st ++
                     [Curve parts.1;
                      IntermediateNode width mid_point (startAngle parts'.1)
                        (endAngle parts'.1)]))
          end) ;;
  mret (mkWalk (walk_bz st') (walk_scale st') (last_intersection st')
          (Some (t1, node_id)) (path_components st')).

(** The [while intersection_num < len(node_intersections)] loop, on the
    crossings not looked at yet.  A crossing with no time makes the source
    [continue] without moving on: the loop then never ends. *)
Fixpoint walk_crossings (intermediates : dict string (option Shapely.Geometry))
    (edge_id : string) (node_intersections : list (times * string)) (st : walk) : M walk :=
  match node_intersections with
  | [] => mret st
  | (ts, node_id) :: rest =>
      match times_of ts with
      | [] => lift OutOfFuel
      | [t0] =>
          time_0 <~ lift (walk_scale st t0) ;;
          st' <~ single_crossing intermediates edge_id node_id time_0
                   (bool_decide (rest = [])) st ;;
          walk_crossings intermediates edge_id rest st'
      | t0 :: t1 :: _ =>
          time_0 <~ lift (walk_scale st t0) ;;
          st' <~ double_crossing intermediates edge_id node_id t0 t1 time_0 st ;;
          walk_crossings intermediates edge_id rest st'
      end
  end.

(** One turn of [for seg_num in range(len(segments))]. *)
Definition segment_components (intermediates : dict string (option Shapely.Geometry))
    (edge_id : string) (parts : list component)
    (seg : Beziers.BSegment * list (times * string)) : M (list component) :=
  st <~ walk_crossings intermediates edge_id seg.2
          (mkWalk seg.1 (time_scale (fun x => Ok x) 0) None None parts) ;;
  match last_intersection st with
  | Some (_, node_id) =>
      log_error ("Last intermediate node " +:+ node_id +:+ " on centreline " +:+ edge_id +:+
                 " only intersects once") ;;;
      mret (path_components st)
  | None => mret (path_components st ++ [Curve (walk_bz st)])
  end.

(** *** The loop over the edges *)

Definition edge_id_of (d : attrs) : option string :=
  match dget "id" d with
  | Some (VStr id) => Some id
  | _ => None
  end.

Definition node_of (v : option value) : M node :=
  match v with
  | Some (VStr n) => mret n
  | Some _ => mraise TypeError
  | None => mraise (KeyError "start-node")
  end.

(** [truncate_segments_start(segs, node)] and [truncate_segments_end(segs,
    node)], reading the centre and the radii of [node] in the graph. *)
Definition truncate_at (at_start : bool) (fuel : nat) (g : Graph)
    (segs : list Beziers.BSegment) (n : node) : M (list Beziers.BSegment) :=
  node_dict <~ nx.node_dict g n ;;
  d <~ load node_dict ;;
  lift ((if at_start
         then truncate_segments_start Beziers.curve_at Beziers.distanceFrom
         else truncate_segments_end Beziers.curve_at Beziers.distanceFrom)
          fuel segs (centre_of d) (radii_of d)).

(** The segments of an edge, and its orientation (lines 225 to 243). *)
Definition oriented_segments (g : Graph) (feature : Feature) (node_0 node_1 : node)
    (edge_dict : loc) : M (list Beziers.BSegment) :=
  l0 <~ nx.node_dict g node_0 ;;
  d0 <~ load l0 ;;
  l1 <~ nx.node_dict g node_1 ;;
  d1 <~ load l1 ;;
  segments <~ match dget "bezier-segments" (feature_properties feature) with
              | Some (VSegments segments) => mret segments
              | _ => mraise TypeError
              end ;;
  match segments with
  | [] =>
      log_warning ("Centreline " +:+ default "None" (feature_id feature) +:+
                   " has no Bezier path") ;;;
      match centre_of d0, centre_of d1 with
      | Some node_0_centre, Some node_1_centre =>
          set_item edge_dict "start-node" (VStr node_0) ;;;
          set_item edge_dict "end-node" (VStr node_1) ;;;
          mret [whole (Beziers.Line node_0_centre node_1_centre)]
      | _, _ => mret []
      end
  | s0 :: _ =>
      let start := b_pointAtTime s0 0%float in
      match centre_of d0, centre_of d1 with
      | Some node_0_centre, Some node_1_centre =>
          if PrimFloat.leb (Beziers.distanceFrom start node_0_centre)
                           (Beziers.distanceFrom start node_1_centre)
          then
            set_item edge_dict "start-node" (VStr node_0) ;;;
            set_item edge_dict "end-node" (VStr node_1) ;;;
            mret segments
          else
            set_item edge_dict "start-node" (VStr node_1) ;;;
            set_item edge_dict "end-node" (VStr node_0) ;;;
            mret segments
      | _, _ => mraise AttributeError
      end
  end.

(** The body of [if segments:] (lines 245 to 367): the path components
    of the edge. *)
Definition edge_components (feature_map : FeatureMap) (fuel : nat)
    (g : Graph) (edge_id : string) (node_0 node_1 : node) (edge_dict : loc)
    (segments : list Beziers.BSegment) : M (list component) :=
  start_node <~ (v <~ get_item edge_dict "start-node" ;; node_of v) ;;
  end_node <~ (v <~ get_item edge_dict "end-node" ;; node_of v) ;;
  segments <~ (if decide (2 < nx.degree g node_0)
               then truncate_at (bool_decide (start_node = node_0)) fuel g segments node_0
               else mret segments) ;;
  segments <~ (if decide (2 < nx.degree g node_1)
               then truncate_at (negb (bool_decide (start_node = node_0))) fuel g segments node_1
               else mret segments) ;;
  match head segments, last segments with
  | Some first, Some final =>
      set_item edge_dict "tangents"
        (VTangents (dset end_node (tangentAtTime final 1%float)
                      [(start_node, tangentAtTime first 0%float)])) ;;;
      ls <~ nx.node_dict g start_node ;;
      set_item ls "angle" (VFloat (startAngle first)) ;;;
      le <~ nx.node_dict g end_node ;;
      set_item le "angle" (VFloat (endAngle final)) ;;;
      d <~ load edge_dict ;;
      intermediates <~
        foldM (match dget "intermediates" d with Some (VStrs ids) => ids | _ => [] end) []
          (fun (acc : dict string (option Shapely.Geometry)) intermediate =>
             feature <~ find_feature feature_map intermediate ;;
             match feature with
             | Some feature => mret (dset intermediate (feature_geometry feature) acc)
             | None => mret acc
             end) ;;
      intersection_times <~
        foldM segments [] (fun acc bz =>
          time_points <~ segment_crossings edge_id intermediates bz ;;
          mret (acc ++ [(bz, time_points)])) ;;
      foldM intersection_times [] (segment_components intermediates edge_id)
  | _, _ => mraise IndexError
  end.

(** One turn of [for node_0, node_1, edge_dict in ...edges(data=True)].
    [path_components] is the local variable of that name as the turn finds
    it: [None] while nothing has been assigned to it. *)
Definition bind_edge (feature_map : FeatureMap) (fuel : nat) (g : Graph)
    (path_components : option (list component)) (e : node * node * loc)
  : M (option (list component)) :=
  let '(node_0, node_1, edge_dict) := e in
  d <~ load edge_dict ;;
  feature <~ match edge_id_of d with
             | Some edge_id => find_feature feature_map edge_id
             | None => log_warning "Unknown network feature: None" ;;; mret None
             end ;;
  path_components <~
    match feature with
    | None => mret path_components
    | Some feature =>
        segments <~ oriented_segments g feature node_0 node_1 edge_dict ;;
        match segments with
        | [] => mret path_components
        | _ =>
            parts <~ edge_components feature_map fuel g
                       (default "" (edge_id_of d)) node_0 node_1 edge_dict segments ;;
            mret (Some parts)
        end
    end ;;
  match path_components with
  | None => mraise (UnboundLocalError "path_components")
  | Some parts =>
      set_item edge_dict "path-components" (VComponents parts) ;;;
      mret path_components
  end.

(** [Network.create_geometry(feature_map)].  [fuel] bounds the iterations
    of each bisection. *)
Definition create_geometry (self : Network) (feature_map : FeatureMap) (fuel : nat)
  : M Network :=
  let self := mkNetwork (net_id self) (centreline_graph self) (centreline_ids self)
                (contained_centrelines self) (contained_count self) (Some feature_map) in
  g <~ get_graph (centreline_graph self) ;;
  forM (nx.nodes g) (fun node_id =>
    node_dict <~ nx.node_dict g node_id ;;
    set_item node_dict "degree" (VInt (Z.of_nat (nx.degree g node_id))) ;;;
    set_node_properties_from_feature self node_dict node_id) ;;;
  foldM (nx.edges g) None (bind_edge feature_map fuel g) ;;;
  mret self.

(** *** The binder writes in place *)

(** Running [m] leaves every graph of the store as it is and creates no
    dictionary, whatever [m] gives. *)
Definition in_place {A} (m : M A) : Prop :=
  ∀ w, graphs (m w).2 = graphs w ∧ length (heap (m w).2) = length (heap w).

Lemma in_place_ret {A} (a : A) : in_place (mret a).
Proof. by intros w. Qed.

Lemma in_place_raise {A} (e : exn) : in_place (@mraise A e).
Proof. by intros w. Qed.

Lemma in_place_lift {A} (r : result A) : in_place (lift r).
Proof. by intros w. Qed.

Lemma in_place_log_error (msg : string) : in_place (log_error msg).
Proof. by intros w. Qed.

Lemma in_place_log_warning (msg : string) : in_place (log_warning msg).
Proof. by intros w. Qed.

Lemma in_place_load (l : loc) : in_place (load l).
Proof. by intros w. Qed.

Lemma in_place_store (l : loc) (d : attrs) : in_place (store l d).
Proof. intros w. simpl. by rewrite length_insert. Qed.

Lemma in_place_get_graph (r : gref) : in_place (get_graph r).
Proof. by intros w. Qed.

Lemma in_place_bind {A B} (m : M A) (k : A → M B) :
  in_place m → (∀ a, in_place (k a)) → in_place (mbind m k).
Proof.
  intros Hm Hk w. unfold mbind. specialize (Hm w).
  destruct (m w) as [[a|e|] w1]; simpl in *; [|done..].
  destruct Hm as [Hm1 Hm2]. destruct (Hk a w1) as [H1 H2]. split; congruence.
Qed.

Lemma in_place_set_item (l : loc) (key : string) (v : value) : in_place (set_item l key v).
Proof. apply in_place_bind; [apply in_place_load|intros d; apply in_place_store]. Qed.

Lemma in_place_get_item (l : loc) (key : string) : in_place (get_item l key).
Proof. apply in_place_bind; [apply in_place_load|intros d; apply in_place_ret]. Qed.

Lemma in_place_forM {A} (l : list A) (f : A → M unit) :
  (∀ a, in_place (f a)) → in_place (forM l f).
Proof.
  intros Hf. induction l as [|a l IH]; simpl; [apply in_place_ret|].
  apply in_place_bind; [apply Hf|by intros _].
Qed.

Lemma in_place_foldM {A S} (l : list A) (f : S → A → M S) :
  (∀ s a, in_place (f s a)) → ∀ s, in_place (foldM l s f).
Proof.
  intros Hf. induction l as [|a l IH]; intros s; simpl; [apply in_place_ret|].
  apply in_place_bind; [apply Hf|intros s'; apply IH].
Qed.

Lemma in_place_node_dict (g : Graph) (n : node) : in_place (nx.node_dict g n).
Proof. unfold nx.node_dict. destruct (dget _ _); [apply in_place_ret|apply in_place_raise]. Qed.

(** The steps that are in place by one of the lemmas above. *)
Ltac in_place_step :=
  first
    [ apply in_place_ret | apply in_place_raise | apply in_place_lift
    | apply in_place_log_error | apply in_place_log_warning
    | apply in_place_load | apply in_place_store | apply in_place_get_graph
    | apply in_place_set_item | apply in_place_get_item | apply in_place_node_dict
    | apply in_place_bind; [|intros ?] ].

Ltac in_place := repeat in_place_step.

Lemma in_place_find_feature (feature_map : FeatureMap) (id : string) :
  in_place (find_feature feature_map id).
Proof. unfold find_feature. destruct (features _ _) as [|f [|f' fs]]; in_place. Qed.

Lemma in_place_set_node_properties (self : Network) (node_dict : loc) (feature_id : string) :
  in_place (set_node_properties_from_feature self node_dict feature_id).
Proof.
  unfold set_node_properties_from_feature.
  destruct (net_feature_map self) as [feature_map|]; [|in_place].
  apply in_place_bind; [apply in_place_find_feature|intros [feature|]]; [|in_place].
  in_place.
  - destruct (dmem _ _); in_place.
  - destruct a1 as [[]|]; in_place.
Qed.

Lemma in_place_node_width (intermediates : dict string (option Shapely.Geometry))
    (node_id : string) (point dirn : Beziers.Point) :
  in_place (node_width_along_line intermediates node_id point dirn).
Proof.
  unfold node_width_along_line. destruct (dget _ _) as [[geometry|]|]; [|in_place..].
  destruct (if intersects _ _ then _ else _) as [[q0 q1]|]; in_place.
Qed.

Lemma in_place_crossing (edge_id : string) (bz : Beziers.BSegment)
    (time_points : list (times * string)) (item : string * option Shapely.Geometry) :
  in_place (crossing edge_id bz time_points item).
Proof.
  unfold crossing. destruct item as [node_id [geometry|]]; [|in_place].
  destruct (intersects _ _); [|in_place].
  destruct (boundary_intersection _ _); in_place; destruct (decide _); in_place.
Qed.

Lemma in_place_segment_crossings (edge_id : string)
    (intermediates : dict string (option Shapely.Geometry)) (bz : Beziers.BSegment) :
  in_place (segment_crossings edge_id intermediates bz).
Proof.
  unfold segment_crossings. apply in_place_bind; [|in_place].
  apply in_place_foldM. intros. apply in_place_crossing.
Qed.

Lemma in_place_single_crossing (intermediates : dict string (option Shapely.Geometry))
    (edge_id node_id : string) (time_0 : float) (is_last : bool) (st : walk) :
  in_place (single_crossing intermediates edge_id node_id time_0 is_last st).
Proof.
  unfold single_crossing. destruct (last_intersection st) as [[last_bz last_id]|].
  - destruct (decide _); [|in_place].
    apply in_place_bind; [apply in_place_node_width|in_place].
  - destruct is_last; in_place.
Qed.

Lemma in_place_double_crossing (intermediates : dict string (option Shapely.Geometry))
    (edge_id node_id : string) (t0 t1 time_0 : float) (st : walk) :
  in_place (double_crossing intermediates edge_id node_id t0 t1 time_0 st).
Proof.
  unfold double_crossing. cbv zeta. apply in_place_bind; [|in_place].
  destruct (match prev_intersection st with Some _ => _ | None => _ end); [in_place|].
  apply in_place_bind; [apply in_place_lift|intros time_1].
  apply in_place_bind; [apply in_place_node_width|in_place].
Qed.

Lemma in_place_walk_crossings (intermediates : dict string (option Shapely.Geometry))
    (edge_id : string) (node_intersections : list (times * string)) :
  ∀ st, in_place (walk_crossings intermediates edge_id node_intersections st).
Proof.
  induction node_intersections as [|[ts node_id] rest IH]; intros st; simpl; [in_place|].
  destruct (times_of ts) as [|t0 [|t1 ts']]; [in_place|..].
  - apply in_place_bind; [apply in_place_lift|intros time_0].
    apply in_place_bind; [apply in_place_single_crossing|intros st'; apply IH].
  - apply in_place_bind; [apply in_place_lift|intros time_0].
    apply in_place_bind; [apply in_place_double_crossing|intros st'; apply IH].
Qed.

Lemma in_place_segment_components (intermediates : dict string (option Shapely.Geometry))
    (edge_id : string) (parts : list component)
    (seg : Beziers.BSegment * list (times * string)) :
  in_place (segment_components intermediates edge_id parts seg).
Proof.
  unfold segment_components. apply in_place_bind; [apply in_place_walk_crossings|].
  intros st. destruct (last_intersection st) as [[? ?]|]; in_place.
Qed.

Lemma in_place_truncate_at (at_start : bool) (fuel : nat) (g : Graph)
    (segs : list Beziers.BSegment) (n : node) :
  in_place (truncate_at at_start fuel g segs n).
Proof. unfold truncate_at. in_place. Qed.

Lemma in_place_oriented_segments (g : Graph) (feature : Feature) (node_0 node_1 : node)
    (edge_dict : loc) :
  in_place (oriented_segments g feature node_0 node_1 edge_dict).
Proof.
  unfold oriented_segments. in_place.
  - destruct (dget _ _) as [[]|]; in_place.
  - destruct a3 as [|s0 segs].
    + in_place. destruct (centre_of a0), (centre_of a2); in_place.
    + destruct (centre_of a0), (centre_of a2); in_place.
      destruct (PrimFloat.leb _ _); in_place.
Qed.

Lemma in_place_node_of (v : option value) : in_place (node_of v).
Proof. unfold node_of. destruct v as [[]|]; in_place. Qed.

Lemma in_place_edge_components (feature_map : FeatureMap) (fuel : nat) (g : Graph)
    (edge_id : string) (node_0 node_1 : node) (edge_dict : loc)
    (segments : list Beziers.BSegment) :
  in_place (edge_components feature_map fuel g edge_id node_0 node_1 edge_dict segments).
Proof.
  unfold edge_components.
  apply in_place_bind; [in_place; apply in_place_node_of|intros start_node].
  apply in_place_bind; [in_place; apply in_place_node_of|intros end_node].
  apply in_place_bind; [destruct (decide _); [apply in_place_truncate_at|in_place]|intros segs1].
  apply in_place_bind; [destruct (decide _); [apply in_place_truncate_at|in_place]|intros segs2].
  destruct (head segs2) as [first|]; [|in_place].
  destruct (last segs2) as [final|]; [|in_place].
  apply in_place_bind; [apply in_place_set_item|intros _].
  apply in_place_bind; [apply in_place_node_dict|intros ls].
  apply in_place_bind; [apply in_place_set_item|intros _].
  apply in_place_bind; [apply in_place_node_dict|intros le].
  apply in_place_bind; [apply in_place_set_item|intros _].
  apply in_place_bind; [apply in_place_load|intros d].
  apply in_place_bind.
  { apply in_place_foldM. intros acc intermediate.
    apply in_place_bind; [apply in_place_find_feature|intros [f|]; in_place]. }
  intros intermediates.
  apply in_place_bind.
  { apply in_place_foldM. intros acc bz.
    apply in_place_bind; [apply in_place_segment_crossings|in_place]. }
  intros intersection_times.
  apply in_place_foldM. intros. apply in_place_segment_components.
Qed.

Lemma in_place_bind_edge (feature_map : FeatureMap) (fuel : nat) (g : Graph)
    (path_components : option (list component)) (e : node * node * loc) :
  in_place (bind_edge feature_map fuel g path_components e).
Proof.
  unfold bind_edge. destruct e as [[node_0 node_1] edge_dict].
  apply in_place_bind; [in_place|intros d].
  apply in_place_bind.
  { destruct (edge_id_of d); [apply in_place_find_feature|in_place]. }
  intros feature. apply in_place_bind.
  - destruct feature as [feature|]; [|in_place].
    apply in_place_bind; [apply in_place_oriented_segments|intros [|s segs]]; [in_place|].
    apply in_place_bind; [apply in_place_edge_components|in_place].
  - intros [parts|]; in_place.
Qed.

(** Binding the geometry never adds or removes a node, an edge or a
    dictionary: whether [create_geometry] returns, raises, or runs a
    bisection that does not end, the graphs of the store are what they
    were, and so is the number of dictionaries. *)
Theorem create_geometry_in_place (self : Network) (feature_map : FeatureMap)
    (fuel : nat) (w : world) :
  graphs (create_geometry self feature_map fuel w).2 = graphs w ∧
  length (heap (create_geometry self feature_map fuel w).2) = length (heap w).
Proof.
  revert w. change (in_place (create_geometry self feature_map fuel)).
  unfold create_geometry. cbv zeta.
  apply in_place_bind; [in_place|intros g].
  apply in_place_bind.
  { apply in_place_forM. intros node_id.
    apply in_place_bind; [apply in_place_node_dict|intros node_dict].
    apply in_place_bind; [apply in_place_set_item|intros _].
    apply in_place_set_node_properties. }
  intros _. apply in_place_bind; [|in_place].
  apply in_place_foldM. intros. apply in_place_bind_edge.
Qed.

(** *** Reading and writing one dictionary *)

Lemma set_item_run (l : loc) (key : string) (v : value) (w : world) (d : attrs) :
  heap w !! l = Some d →
  set_item l key v w = (Ok (), mkWorld (graphs w) (<[l := dset key v d]> (heap w)) (log w)).
Proof. intros Hl. unfold set_item, mbind, load, store. by rewrite Hl. Qed.

Lemma get_item_run (l : loc) (key : string) (w : world) (d : attrs) :
  heap w !! l = Some d → get_item l key w = (Ok (dget key d), w).
Proof. intros Hl. unfold get_item, mbind, load, mret. by rewrite Hl. Qed.

Lemma find_feature_one (feature_map : FeatureMap) (id : string) (f : Feature) (w : world) :
  features feature_map id = [f] → find_feature feature_map id w = (Ok (Some f), w).
Proof. intros Hf. unfold find_feature. by rewrite Hf. Qed.

Lemma find_feature_none (feature_map : FeatureMap) (id : string) (w : world) :
  (∀ f, features feature_map id ≠ [f]) →
  ∃ msg, find_feature feature_map id w =
         (Ok None, mkWorld (graphs w) (heap w) (log w ++ [(LogWarning, msg)])).
Proof.
  intros Hf. unfold find_feature. destruct (features feature_map id) as [|f [|f' fs]].
  - by eexists.
  - by destruct (Hf f).
  - by eexists.
Qed.

(** *** The centre and the radii of a node *)

(** The radius band of a node of geometry [g]. *)
Definition radii_for (g : Shapely.Geometry) : float * float :=
  let radius :=
    py_max (PrimFloat.sqrt (Shapely.area g / math_pi)) MIN_EDGE_JOIN_RADIUS in
  (0.999 * radius, 1.001 * radius)%float.

(** When the feature of a node is found, setting the properties of the
    node writes its own dictionary only.  A dictionary that already has a
    ['geometry'] keeps it and every other entry but ['centre'] and
    ['radii']: the properties of the feature are not copied again.  And
    whenever the dictionary then holds a geometry, the call has returned
    without a warning and the dictionary holds the centroid of that
    geometry as centre, together with the radius band computed from its
    area. *)
Theorem node_properties_from_feature (self : Network) (feature_map : FeatureMap)
    (feature_id : string) (f : Feature) (node_dict : loc) (w : world) (d : attrs) :
  net_feature_map self = Some feature_map →
  features feature_map feature_id = [f] →
  heap w !! node_dict = Some d →
  ∃ r w' d',
    set_node_properties_from_feature self node_dict feature_id w = (r, w') ∧
    graphs w' = graphs w ∧ heap w' = <[node_dict := d']> (heap w) ∧
    (dmem "geometry" d = true →
     ∀ key, key ≠ "centre" → key ≠ "radii" → dget key d' = dget key d) ∧
    (∀ g, dget "geometry" d' = Some (VGeometry g) →
          r = Ok () ∧ log w' = log w ∧
          centre_of d' = Some (Shapely.centroid g) ∧ radii_of d' = Some (radii_for g)).
Proof.
  intros Hmap Hf Hd. unfold set_node_properties_from_feature. rewrite Hmap.
  unfold mbind at 1. rewrite (find_feature_one _ _ _ _ Hf).
  unfold mbind at 1. unfold load at 1. rewrite Hd. simpl.
  pose proof (lookup_lt_Some _ _ _ Hd) as Hlt.
  set (d1 := if dmem "geometry" d then d
             else dset "geometry"
                    (match feature_geometry f with Some g => VGeometry g | None => VNone end)
                    (dupdate d (feature_properties f))).
  set (w1 := mkWorld (graphs w) (<[node_dict := d1]> (heap w)) (log w)).
  assert (Hstep : (if dmem "geometry" d then mret ()
                   else store node_dict
                          (dset "geometry"
                             (match feature_geometry f with
                              | Some g => VGeometry g | None => VNone end)
                             (dupdate d (feature_properties f)))) w = (Ok (), w1)).
  { unfold w1, d1. destruct (dmem "geometry" d); [|done].
    unfold mret. rewrite list_insert_id by done. by destruct w. }
  unfold mbind at 1. rewrite Hstep.
  assert (Hd1 : heap w1 !! node_dict = Some d1).
  { unfold w1. simpl. by apply list_lookup_insert_eq. }
  unfold mbind at 1. rewrite (get_item_run _ _ _ _ Hd1).
  assert (Hkeep : dmem "geometry" d = true → d1 = d).
  { unfold d1. by intros ->. }
  destruct (dget "geometry" d1) as [v|] eqn:Hg.
  2: { eexists _, _, d1. split; [done|]. simpl. split_and!; try done.
       - intros Hm key _ _. by rewrite Hkeep.
       - intros g Hg'. congruence. }
  destruct v; try (eexists _, _, d1; split; [done|]; simpl; split_and!; try done;
                   [intros Hm key _ _; by rewrite Hkeep|intros g' Hg'; congruence]).
  unfold mbind. rewrite (set_item_run _ _ _ _ _ Hd1). simpl.
  set (d2 := dset "centre" (VPoint (Shapely.centroid g)) d1).
  assert (Hd2 : heap (mkWorld (graphs w1) (<[node_dict := d2]> (heap w1)) (log w1))
                  !! node_dict = Some d2).
  { simpl. apply list_lookup_insert_eq. unfold w1. simpl. by rewrite length_insert. }
  rewrite (set_item_run _ _ _ _ _ Hd2). simpl.
  eexists _, _, _. split; [done|]. simpl. rewrite !list_insert_insert_eq.
  split_and!; try done.
  - intros Hm key Hc Hr. rewrite dget_dset_ne by done. unfold d2.
    rewrite dget_dset_ne by done. by rewrite Hkeep.
  - intros g' Hg'. rewrite dget_dset_ne in Hg' by done. unfold d2 in Hg'.
    rewrite dget_dset_ne in Hg' by done. rewrite Hg in Hg'. injection Hg' as <-.
    split_and!; try done.
    + unfold centre_of. rewrite dget_dset_ne by done. unfold d2. by rewrite dget_dset_eq.
    + unfold radii_of. by rewrite dget_dset_eq.
Qed.

(** *** Crossing one intermediate node *)

(** What the probe of [node_width_along_line] finds. *)
Definition probe (geometry : Shapely.Geometry) (point dirn : Beziers.Point)
  : option ((float * float) * (float * float)) :=
  if intersects geometry (probe_line geometry point dirn)
  then two_points (boundary_intersection geometry (probe_line geometry point dirn))
  else None.

Definition no_width (node_id : string) : level * string :=
  (LogError, "Cannot get width of intermediate " +:+ node_id).

Lemma node_width_run (intermediates : dict string (option Shapely.Geometry))
    (node_id : string) (geometry : Shapely.Geometry) (point dirn : Beziers.Point) (w : world) :
  dget node_id intermediates = Some (Some geometry) →
  node_width_along_line intermediates node_id point dirn w =
    match probe geometry point dirn with
    | Some (q0, q1) => (Ok (Shapely.distance q0 q1), w)
    | None => (Ok 0%float, mkWorld (graphs w) (heap w) (log w ++ [no_width node_id]))
    end.
Proof.
  intros Hn. unfold node_width_along_line, probe. rewrite Hn. cbv zeta.
  by destruct (if intersects _ _ then _ else _) as [[q0 q1]|].
Qed.

Lemma mbind_run {A B} (m : M A) (k : A → M B) (w w1 : world) (a : A) :
  m w = (Ok a, w1) → mbind m k w = k a w1.
Proof. intros H. unfold mbind. by rewrite H. Qed.

Lemma mbind_raises_run {A B} (m : M A) (k : A → M B) (w w1 : world) (e : exn) :
  m w = (Raise e, w1) → mbind m k w = (Raise e, w1).
Proof. intros H. unfold mbind. by rewrite H. Qed.

Lemma time_scale_first (t : float) : time_scale (fun x => Ok x) 0 t = Ok (scaled t 0).
Proof. reflexivity. Qed.

Lemma time_scale_second (t time_0 : float) :
  time_scale (time_scale (fun x => Ok x) 0) time_0 t =
    if PrimFloat.eqb (1 - time_0) 0 then Raise ZeroDivisionError
    else Ok (scaled (scaled t 0) time_0).
Proof. unfold time_scale at 1. by rewrite time_scale_first. Qed.

Lemma double_crossing_run (intermediates : dict string (option Shapely.Geometry))
    (edge_id node_id : string) (t0 t1 time_0 time_1 : float) (st : walk) (width : float)
    (w w' : world) :
  prev_intersection st = None →
  time_scale (walk_scale st) time_0 t1 = Ok time_1 →
  let parts := b_splitAtTime (walk_bz st) time_0 in
  let scale := time_scale (walk_scale st) time_0 in
  let parts' := b_splitAtTime parts.2 time_1 in
  let mid_point := b_pointAtTime parts'.1 0.5%float in
  node_width_along_line intermediates node_id mid_point (normalAtTime parts'.1 0.5%float) w =
    (Ok width, w') →
  double_crossing intermediates edge_id node_id t0 t1 time_0 st w =
    (Ok (mkWalk parts'.2 (time_scale scale time_1) (last_intersection st)
           (Some (t1, node_id))
           (path_components st ++
            [Curve parts.1;
             IntermediateNode width mid_point (startAngle parts'.1) (endAngle parts'.1)])),
     w').
Proof.
  intros Hprev Htime parts scale parts' mid_point Hwidth. unfold double_crossing.
  rewrite Hprev. cbv zeta. rewrite Htime.
  erewrite mbind_run;
    [|erewrite mbind_run; [|reflexivity]; erewrite mbind_run; [|exact Hwidth]; reflexivity].
  reflexivity.
Qed.

Lemma double_crossing_raises (intermediates : dict string (option Shapely.Geometry))
    (edge_id node_id : string) (t0 t1 time_0 : float) (st : walk) (e : exn) (w : world) :
  prev_intersection st = None →
  time_scale (walk_scale st) time_0 t1 = Raise e →
  double_crossing intermediates edge_id node_id t0 t1 time_0 st w = (Raise e, w).
Proof.
  intros Hprev Htime. unfold double_crossing. rewrite Hprev. cbv zeta. by rewrite Htime.
Qed.

(** A segment that passes through one intermediate node gives three
    components: the curve up to the node, the marker of the node, and the
    curve after it.  The three pieces follow one another on the curve the
    segment is cut from, the first starts where the segment starts and the
    last ends where it ends.  The marker is there whether or not the width
    probe succeeds: its width is the distance between the two points the
    probe finds, and 0, with an error logged, when it does not find two.
    That is so unless the node is entered at the very end of the segment:
    when [1.0 - time_0] is zero, rescaling the second time divides by zero
    and the method raises. *)
Theorem pass_through_components (intermediates : dict string (option Shapely.Geometry))
    (edge_id node_id : string) (geometry : Shapely.Geometry) (parts : list component)
    (bz : Beziers.BSegment) (ts : times) (t0 t1 : float) (rest : list float) (w : world) :
  dget node_id intermediates = Some (Some geometry) →
  times_of ts = t0 :: t1 :: rest →
  let time_0 := scaled t0 0 in
  let front := b_splitAtTime bz time_0 in
  let back := b_splitAtTime front.2 (scaled (scaled t1 0) time_0) in
  let mid_point := b_pointAtTime back.1 0.5%float in
  if PrimFloat.eqb (1 - time_0) 0 then
    segment_components intermediates edge_id parts (bz, [(ts, node_id)]) w =
      (Raise ZeroDivisionError, w)
  else
    ∃ width w',
      segment_components intermediates edge_id parts (bz, [(ts, node_id)]) w =
        (Ok (parts ++ [Curve front.1;
                       IntermediateNode width mid_point (startAngle back.1) (endAngle back.1);
                       Curve back.2]), w') ∧
      graphs w' = graphs w ∧ heap w' = heap w ∧
      (width, log w') =
        match probe geometry mid_point (normalAtTime back.1 0.5%float) with
        | Some (q0, q1) => (Shapely.distance q0 q1, log w)
        | None => (0%float, log w ++ [no_width node_id])
        end ∧
      seg_lo front.1 = seg_lo bz ∧ seg_hi front.1 = seg_lo back.1 ∧
      seg_hi back.1 = seg_lo back.2 ∧ seg_hi back.2 = seg_hi bz ∧
      seg_curve front.1 = seg_curve bz ∧ seg_curve back.1 = seg_curve bz ∧
      seg_curve back.2 = seg_curve bz.
Proof.
  intros Hn Hts time_0 front back mid_point.
  pose proof (time_scale_second t1 time_0) as Htime.
  destruct (PrimFloat.eqb (1 - time_0) 0) eqn:Hzero.
  { unfold segment_components. cbn [walk_crossings fst snd]. rewrite Hts.
    cbn [walk_scale]. rewrite time_scale_first. fold time_0.
    apply mbind_raises_run. erewrite mbind_run; [|reflexivity].
    apply mbind_raises_run. by apply double_crossing_raises. }
  pose proof (node_width_run _ _ _ mid_point (normalAtTime back.1 0.5%float) w Hn) as Hw.
  assert (Hrun : ∀ width w',
            node_width_along_line intermediates node_id mid_point
              (normalAtTime back.1 0.5%float) w = (Ok width, w') →
            segment_components intermediates edge_id parts (bz, [(ts, node_id)]) w =
              (Ok (parts ++ [Curve front.1;
                             IntermediateNode width mid_point (startAngle back.1)
                               (endAngle back.1);
                             Curve back.2]), w')).
  { intros width w' Hwidth. unfold segment_components. cbn [walk_crossings fst snd].
    rewrite Hts. cbn [walk_scale]. rewrite time_scale_first. fold time_0.
    erewrite mbind_run;
      [|erewrite mbind_run; [|reflexivity];
        erewrite mbind_run; [|eapply double_crossing_run; [done|exact Htime|exact Hwidth]];
        reflexivity].
    cbn [last_intersection path_components walk_bz]. unfold mret.
    by rewrite <- (app_assoc parts). }
  destruct (probe geometry mid_point (normalAtTime back.1 0.5%float)) as [[q0 q1]|].
  - eexists _, _. split; [by apply Hrun|]. by split_and!.
  - eexists _, _. split; [by apply Hrun|]. by split_and!.
Qed.

Definition once_only (node_id edge_id : string) : level * string :=
  (LogError,
   "Last intermediate node " +:+ node_id +:+ " on centreline " +:+ edge_id +:+
   " only intersects once").

(** A segment whose only crossing has a single time loses what comes after
    the crossing: the part before it is the only component added, and an
    error is logged. *)
Theorem single_crossing_drops_the_rest
    (intermediates : dict string (option Shapely.Geometry)) (edge_id node_id : string)
    (parts : list component) (bz : Beziers.BSegment) (ts : times) (t0 : float) (w : world) :
  times_of ts = [t0] →
  segment_components intermediates edge_id parts (bz, [(ts, node_id)]) w =
    (Ok (parts ++ [Curve (b_splitAtTime bz (scaled t0 0)).1]),
     mkWorld (graphs w) (heap w) (log w ++ [once_only node_id edge_id])).
Proof.
  intros Hts. unfold segment_components. cbn [walk_crossings fst snd]. rewrite Hts.
  cbn [walk_scale]. rewrite time_scale_first.
  unfold single_crossing. cbn [last_intersection walk_bz walk_scale path_components].
  rewrite bool_decide_eq_true_2 by done. reflexivity.
Qed.

(** *** An edge whose feature is not found *)

(** When the feature of an edge is not found (none, or several, for its
    id), the edge is given the path components that the local variable
    holds from the edge before it; and when it is the first edge of the
    loop, the variable has no value and the method raises. *)
Theorem bind_edge_unresolved (feature_map : FeatureMap) (fuel : nat) (g : Graph)
    (node_0 node_1 : node) (edge_dict : loc) (w : world) (d : attrs) (id : string) :
  heap w !! edge_dict = Some d → edge_id_of d = Some id →
  (∀ f, features feature_map id ≠ [f]) →
  ∃ msg,
    bind_edge feature_map fuel g None (node_0, node_1, edge_dict) w =
      (Raise (UnboundLocalError "path_components"),
       mkWorld (graphs w) (heap w) (log w ++ [(LogWarning, msg)])) ∧
    ∀ parts,
      bind_edge feature_map fuel g (Some parts) (node_0, node_1, edge_dict) w =
        (Ok (Some parts),
         mkWorld (graphs w)
                 (<[edge_dict := dset "path-components" (VComponents parts) d]> (heap w))
                 (log w ++ [(LogWarning, msg)])).
Proof.
  intros Hd Hid Hf. destruct (find_feature_none feature_map id w Hf) as [msg Hfind].
  exists msg. unfold bind_edge. split; [|intros parts].
  - unfold mbind at 1. unfold load at 1. rewrite Hd. simpl. rewrite Hid.
    unfold mbind at 1. by rewrite Hfind.
  - unfold mbind at 1. unfold load at 1. rewrite Hd. simpl. rewrite Hid.
    unfold mbind at 1. rewrite Hfind. unfold mbind at 1. simpl.
    unfold mbind. rewrite (set_item_run _ _ _ _ d); [done|done].
Qed.

(** *** Crossings that cannot be sorted, and crossings without a point *)

Definition is_tuple (tp : times * string) : bool :=
  match tp.1 with TimesTuple _ => true | TimesList _ => false end.

Lemma time_point_lt_kind (a b : times * string) :
  is_tuple a ≠ is_tuple b → time_point_lt a b = Raise TypeError.
Proof. unfold is_tuple, time_point_lt. by destruct a.1, b.1. Qed.

Lemma time_point_lt_same (a b : times * string) :
  is_tuple a = is_tuple b → ∃ lt, time_point_lt a b = Ok lt.
Proof. unfold is_tuple, time_point_lt. destruct a.1, b.1; try done; eauto. Qed.

Lemma insert_uniform (x : times * string) (l : list (times * string)) (k : bool) :
  is_tuple x = k → Forall (fun a => is_tuple a = k) l →
  ∃ l', insert_time_point x l = Ok l' ∧ l' ≠ [] ∧ Forall (fun a => is_tuple a = k) l'.
Proof.
  intros Hx. induction l as [|a l IH]; intros Hl; simpl.
  - eexists. split_and!; [done..|]. by constructor.
  - inversion Hl as [|? ? Ha Hl']; subst.
    destruct (time_point_lt_same x a) as [lt ->]; [congruence|]. simpl.
    destruct lt.
    + eexists. split_and!; [done..|]. by constructor.
    + destruct (IH Hl') as (l' & -> & _ & Hf). simpl.
      eexists. split_and!; [done..|]. by constructor.
Qed.

Lemma sorted_raise_stays (l : list (times * string)) (e : exn) :
  fold_left (fun acc x => rbind acc (insert_time_point x)) l (Raise e) = Raise e.
Proof. induction l as [|x l IH]; simpl; [done|apply IH]. Qed.

Lemma sorted_mixed_from (l : list (times * string)) :
  ∀ acc k, Forall (fun a => is_tuple a = k) acc → acc ≠ [] →
    (∃ b, b ∈ l ∧ is_tuple b ≠ k) →
    fold_left (fun acc x => rbind acc (insert_time_point x)) l (Ok acc) = Raise TypeError.
Proof.
  induction l as [|x l IH]; intros acc k Hacc Hne (b & Hb & Hk).
  - by apply elem_of_nil in Hb.
  - cbn [fold_left rbind]. destruct (decide (is_tuple x = k)) as [Hx|Hx].
    + destruct (insert_uniform x acc k Hx Hacc) as (l' & -> & Hne' & Hf').
      apply (IH l' k); [done..|]. exists b. split; [|done].
      apply elem_of_cons in Hb as [->|Hb]; [done|done].
    + destruct acc as [|a acc]; [done|]. inversion Hacc as [|? ? Ha _]; subst.
      cbn [insert_time_point]. rewrite time_point_lt_kind by done.
      apply sorted_raise_stays.
Qed.

(** [sorted] cannot order a list that holds a tuple of times and a list
    of times. *)
Lemma sorted_mixed (l : list (times * string)) (a b : times * string) :
  a ∈ l → b ∈ l → is_tuple a = true → is_tuple b = false →
  sorted_time_points l = Raise TypeError.
Proof.
  intros Ha Hb Hta Htb. unfold sorted_time_points. destruct l as [|x l].
  - by apply elem_of_nil in Ha.
  - cbn [fold_left rbind insert_time_point].
    apply (sorted_mixed_from l [x] (is_tuple x)); [by repeat constructor|done|].
    destruct (is_tuple x) eqn:Hx.
    + exists b. rewrite Htb. split; [|done].
      apply elem_of_cons in Hb as [->|Hb]; [congruence|done].
    + exists a. rewrite Hta. split; [|done].
      apply elem_of_cons in Ha as [->|Ha]; [congruence|done].
Qed.

Lemma crossing_point (edge_id : string) (bz : Beziers.BSegment)
    (time_points : list (times * string)) (node_id : string) (geometry : Shapely.Geometry)
    (x y : float) (w : world) :
  intersects geometry (bezier_to_linestring bz) = true →
  boundary_intersection geometry (bezier_to_linestring bz) = Shapely.Point x y →
  crossing edge_id bz time_points (node_id, Some geometry) w =
    (Ok (time_points ++ [(TimesTuple [closest_time bz (x, y)], node_id)]), w).
Proof. intros Hi Hb. unfold crossing. cbv zeta. by rewrite Hi, Hb. Qed.

Lemma rmap_point_coords (pts : list (float * float)) :
  rmap point_coords (map (fun pt => Shapely.Point pt.1 pt.2) pts) = Ok pts.
Proof. induction pts as [|[x y] pts IH]; simpl; [done|]. by rewrite IH. Qed.

Lemma crossing_points (edge_id : string) (bz : Beziers.BSegment)
    (time_points : list (times * string)) (node_id : string) (geometry : Shapely.Geometry)
    (geoms : list Shapely.Shape) (pts : list (float * float)) (w : world) :
  intersects geometry (bezier_to_linestring bz) = true →
  intersecting_points (boundary_intersection geometry (bezier_to_linestring bz)) = Ok geoms →
  length geoms ≤ 2 →
  rmap point_coords geoms = Ok pts →
  crossing edge_id bz time_points (node_id, Some geometry) w =
    (Ok (time_points ++ [(TimesList (sorted_floats (map (closest_time bz) pts)), node_id)]), w).
Proof.
  intros Hi Hgeoms Hlen Hpts. unfold crossing. cbv zeta. rewrite Hi.
  destruct (boundary_intersection _ _) as [x y| | |] eqn:Hb; [done|..];
    rewrite Hgeoms; unfold mbind, lift; simpl;
    (destruct (decide (2 < length geoms)) as [?|_]; [lia|by rewrite Hpts]).
Qed.

Lemma crossing_keeps (edge_id : string) (bz : Beziers.BSegment)
    (time_points : list (times * string)) (item : string * option Shapely.Geometry)
    (w : world) :
  (crossing edge_id bz time_points item w).1 ≠ OutOfFuel ∧
  ∀ time_points', (crossing edge_id bz time_points item w).1 = Ok time_points' →
    ∀ a, a ∈ time_points → a ∈ time_points'.
Proof.
  unfold crossing. destruct item as [node_id [geometry|]]; [|done]. cbv zeta.
  destruct (intersects _ _).
  - assert (Hrest : ∀ s,
      let m := (geoms <~ lift (intersecting_points s) ;;
                if decide (2 < length geoms)
                then log_warning ("Intermediate node " +:+ node_id +:+
                                  " has multiple intersections with centreline " +:+
                                  edge_id) ;;;
                     mret time_points
                else pts <~ lift (rmap point_coords geoms) ;;
                     mret (time_points ++
                           [(TimesList (sorted_floats (map (closest_time bz) pts)),
                             node_id)])) in
      (m w).1 ≠ OutOfFuel ∧
      ∀ time_points', (m w).1 = Ok time_points' → ∀ a, a ∈ time_points → a ∈ time_points').
    { intros s m. unfold m, mbind, lift.
      assert (Hcoords : ∀ geoms, rmap point_coords geoms ≠ OutOfFuel).
      { induction geoms as [|[] geoms IH]; simpl; try done.
        by destruct (rmap _ geoms). }
      destruct (intersecting_points s) as [geoms| |] eqn:Hs; simpl;
        [|done|by destruct s].
      destruct (decide _); simpl.
      - split; [done|]. by intros ? [= <-].
      - pose proof (Hcoords geoms) as Hc.
        destruct (rmap point_coords geoms) as [pts| |]; simpl; [|done..].
        split; [done|]. intros ? [= <-] a Ha. apply elem_of_app. by left. }
    destruct (boundary_intersection _ _) as [x y|geoms|coords|geoms]; try apply Hrest.
    simpl. split; [done|]. intros ? [= <-] a Ha. apply elem_of_app. by left.
  - simpl. split; [done|]. by intros ? [= <-].
Qed.

Lemma crossings_fold (edge_id : string) (bz : Beziers.BSegment)
    (intermediates : list (string * option Shapely.Geometry)) :
  ∀ time_points w,
    let run := foldM intermediates time_points (crossing edge_id bz) w in
    run.1 ≠ OutOfFuel ∧
    ∀ time_points', run.1 = Ok time_points' →
      (∀ a, a ∈ time_points → a ∈ time_points') ∧
      ∀ node_id geometry, (node_id, Some geometry) ∈ intermediates →
        intersects geometry (bezier_to_linestring bz) = true →
        (∀ x y, boundary_intersection geometry (bezier_to_linestring bz) = Shapely.Point x y →
                ∃ a, a ∈ time_points' ∧ is_tuple a = true) ∧
        (∀ pts, boundary_intersection geometry (bezier_to_linestring bz) =
                  Shapely.MultiPoint pts → length pts ≤ 2 →
                ∃ b, b ∈ time_points' ∧ is_tuple b = false).
Proof.
  induction intermediates as [|item intermediates IH]; intros time_points w; cbn [foldM].
  - cbv zeta. simpl. split; [done|]. intros ? [= <-]. split; [done|].
    intros ? ? H. by apply elem_of_nil in H.
  - cbv zeta. unfold mbind at 1 2.
    destruct (crossing_keeps edge_id bz time_points item w) as [Hfuel Hkeep].
    destruct (crossing edge_id bz time_points item w) as [[tp1|e|] w1] eqn:Hstep;
      [|done..].
    simpl in Hkeep. specialize (Hkeep tp1 eq_refl).
    destruct (IH tp1 w1) as [Hfuel' Hrest]. split; [done|].
    intros time_points' Hrun. destruct (Hrest _ Hrun) as [Hsub Hitems].
    split; [by intros a Ha; apply Hsub, Hkeep|].
    intros node_id geometry Hin Hi.
    apply elem_of_cons in Hin as [<-|Hin]; [|exact (Hitems _ _ Hin Hi)].
    split.
    + intros x y Hb. rewrite (crossing_point _ _ _ _ _ x y _ Hi Hb) in Hstep.
      injection Hstep as <- <-.
      eexists. split; [apply Hsub, elem_of_app; right; left|reflexivity].
    + intros pts Hb Hlen.
      rewrite (crossing_points _ _ _ _ _ (map (fun pt => Shapely.Point pt.1 pt.2) pts) pts)
        in Hstep;
        [|done|by rewrite Hb|by rewrite length_map|apply rmap_point_coords].
      injection Hstep as <- <-.
      eexists. split; [apply Hsub, elem_of_app; right; left|reflexivity].
Qed.

(** A segment that one intermediate node touches in a single point and
    another crosses in two points has no crossing times: looking for them
    raises, as a tuple of times and a list of times do not compare when
    the crossings are sorted. *)
Theorem touching_and_crossing_raises (edge_id : string)
    (intermediates : dict string (option Shapely.Geometry)) (bz : Beziers.BSegment)
    (n1 n2 : string) (g1 g2 : Shapely.Geometry) (x y : float) (pts : list (float * float))
    (w : world) :
  (n1, Some g1) ∈ intermediates → (n2, Some g2) ∈ intermediates →
  intersects g1 (bezier_to_linestring bz) = true →
  boundary_intersection g1 (bezier_to_linestring bz) = Shapely.Point x y →
  intersects g2 (bezier_to_linestring bz) = true →
  boundary_intersection g2 (bezier_to_linestring bz) = Shapely.MultiPoint pts →
  length pts ≤ 2 →
  ∃ e w', segment_crossings edge_id intermediates bz w = (Raise e, w').
Proof.
  intros Hn1 Hn2 Hi1 Hb1 Hi2 Hb2 Hlen. unfold segment_crossings, mbind.
  destruct (crossings_fold edge_id bz intermediates [] w) as [Hfuel Hrun].
  destruct (foldM intermediates [] (crossing edge_id bz) w) as [[time_points|e|] w'];
    [|by eauto|done].
  destruct (Hrun time_points eq_refl) as [_ Hitems].
  destruct (Hitems n1 g1 Hn1 Hi1) as [Htuple _].
  destruct (Hitems n2 g2 Hn2 Hi2) as [_ Hlist].
  destruct (Htuple x y Hb1) as (a & Ha & Hta).
  destruct (Hlist pts Hb2 Hlen) as (b & Hb & Htb).
  exists TypeError, w'. unfold lift. by rewrite (sorted_mixed _ a b).
Qed.

(** A segment that meets an intermediate node while the boundary of the
    node meets it in no point (the segment lies inside the node) gets a
    crossing with no time, and the loop over the crossings of the segment
    then never ends: the crossing is looked at again and again. *)
Theorem crossing_without_points_never_returns (edge_id node_id : string)
    (geometry : Shapely.Geometry) (bz : Beziers.BSegment) (parts : list component)
    (w : world) :
  intersects geometry (bezier_to_linestring bz) = true →
  intersecting_points (boundary_intersection geometry (bezier_to_linestring bz)) = Ok [] →
  (time_points <~ segment_crossings edge_id [(node_id, Some geometry)] bz ;;
   segment_components [(node_id, Some geometry)] edge_id parts (bz, time_points)) w =
    (OutOfFuel, w).
Proof.
  intros Hi Hpts. unfold segment_crossings. cbn [foldM].
  assert (Hstep : crossing edge_id bz [] (node_id, Some geometry) w =
                    (Ok [(TimesList [], node_id)], w)).
  { by rewrite (crossing_points _ _ _ _ _ [] []); [|done|done|simpl; lia|done]. }
  unfold mbind at 1 2 3. rewrite Hstep. reflexivity.
Qed.

End Geometry.

(** *** The binder on a small plane

    A stand-in for the geometry libraries, for the examples below: every
    curve has angle 0 and normal (0, 1), and no probe line meets a node. *)
Module Flat.

Definition tangentAtTime (bz : Beziers.BSegment) (t : float) : Beziers.Point :=
  Beziers.mkPoint 1 0.
Definition normalAtTime (bz : Beziers.BSegment) (t : float) : Beziers.Point :=
  Beziers.mkPoint 0 1.
Definition startAngle (bz : Beziers.BSegment) : float := 0%float.
Definition endAngle (bz : Beziers.BSegment) : float := 0%float.
Definition join_mid_point (a b : Beziers.BSegment) : Beziers.Point :=
  pointAtTime Beziers.curve_at a 1%float.
Definition fromAngle (angle : float) : Beziers.Point := Beziers.mkPoint 1 0.
Definition bezier_to_linestring (bz : Beziers.BSegment) : list (float * float) := [].
Definition closest_time (bz : Beziers.BSegment) (q : float * float) : float := 0%float.
Definition intersects (g : Shapely.Geometry) (line : list (float * float)) : bool := false.
Definition boundary_intersection (g : Shapely.Geometry) (line : list (float * float))
  : Shapely.Shape := Shapely.MultiPoint [].

(** A line from (0, 0) to (8, 0), and a node of area 4 around (4, 0). *)
Definition street : Beziers.BSegment :=
  whole (Beziers.Line (Beziers.mkPoint 0 0) (Beziers.mkPoint 8 0)).
Definition square : Shapely.Geometry :=
  Shapely.mkGeometry "Polygon" (Beziers.mkPoint 4 0) 4 ((3, -1), (5, 1))%float.

(** A map with one feature, [n], and a network bound to it. *)
Definition feature_n : Feature := mkFeature (Some "n") (Some square) [("name", VStr "N")].
Definition one_feature : FeatureMap :=
  mkFeatureMap (fun id => if decide (id = "n") then [feature_n] else [])
               (fun id => if decide (id = "n") then Some feature_n else None)
               (fun _ => []).
Definition bound : Network := mkNetwork (Some "net") 0 [] [] [] (Some one_feature).

(** A store with the dictionary of node [n] and that of an edge [E]. *)
Definition store : world :=
  mkWorld [] [[("degree", VInt 1)]; [("id", VStr "E")]] [].

End Flat.

Lemma node_properties_from_feature_witness :
  ∃ r w' d',
    set_node_properties_from_feature 1%float Flat.bound 0 "n" Flat.store = (r, w') ∧
    graphs w' = graphs Flat.store ∧ heap w' = <[0 := d']> (heap Flat.store) ∧
    (dmem "geometry" [("degree", VInt 1)] = true →
     ∀ key, key ≠ "centre" → key ≠ "radii" →
            dget key d' = dget key [("degree", VInt 1)]) ∧
    (∀ g, dget "geometry" d' = Some (VGeometry g) →
          r = Ok () ∧ log w' = log Flat.store ∧
          centre_of d' = Some (Shapely.centroid g) ∧
          radii_of d' = Some (radii_for 1%float g)).
Proof.
  apply (node_properties_from_feature 1%float Flat.bound Flat.one_feature "n"
           Flat.feature_n 0 Flat.store [("degree", VInt 1)]); reflexivity.
Defined.

Lemma pass_through_components_witness :
  let front := splitAtTime Flat.street (scaled 0.25 0) in
  let back := splitAtTime front.2 (scaled (scaled 0.75 0) (scaled 0.25 0)) in
  let mid_point := pointAtTime Beziers.curve_at back.1 0.5%float in
  ∃ width w',
    segment_components Flat.normalAtTime Flat.startAngle Flat.endAngle Flat.join_mid_point
      Flat.fromAngle Flat.intersects Flat.boundary_intersection
      [("n", Some Flat.square)] "E" []
      (Flat.street, [(TimesTuple [0.25; 0.75]%float, "n")]) Flat.store =
      (Ok ([] ++ [Curve front.1;
                  IntermediateNode width mid_point (Flat.startAngle back.1)
                    (Flat.endAngle back.1);
                  Curve back.2]), w') ∧
    graphs w' = graphs Flat.store ∧ heap w' = heap Flat.store ∧
    (width, log w') =
      match probe Flat.intersects Flat.boundary_intersection Flat.square mid_point
              (Flat.normalAtTime back.1 0.5%float) with
      | Some (q0, q1) => (Shapely.distance q0 q1, log Flat.store)
      | None => (0%float, log Flat.store ++ [no_width "n"])
      end ∧
    seg_lo front.1 = seg_lo Flat.street ∧ seg_hi front.1 = seg_lo back.1 ∧
    seg_hi back.1 = seg_lo back.2 ∧ seg_hi back.2 = seg_hi Flat.street ∧
    seg_curve front.1 = seg_curve Flat.street ∧ seg_curve back.1 = seg_curve Flat.street ∧
    seg_curve back.2 = seg_curve Flat.street.
Proof.
  apply (pass_through_components Flat.normalAtTime Flat.startAngle Flat.endAngle
           Flat.join_mid_point Flat.fromAngle Flat.intersects Flat.boundary_intersection
           [("n", Some Flat.square)] "E" "n" Flat.square [] Flat.street
           (TimesTuple [0.25; 0.75]%float) 0.25%float 0.75%float [] Flat.store);
    reflexivity.
Defined.

(** A first crossing at the very end of the line: the rescaling of the
    second time divides by [1.0 - 1.0], and Python raises. *)
Example crossing_at_the_end_raises :
  segment_components Flat.normalAtTime Flat.startAngle Flat.endAngle Flat.join_mid_point
    Flat.fromAngle Flat.intersects Flat.boundary_intersection
    [("n", Some Flat.square)] "E" []
    (Flat.street, [(TimesTuple [1; 1]%float, "n")]) Flat.store =
    (Raise ZeroDivisionError, Flat.store).
Proof. vm_compute. reflexivity. Qed.

Lemma single_crossing_drops_the_rest_witness :
  segment_components Flat.normalAtTime Flat.startAngle Flat.endAngle Flat.join_mid_point
    Flat.fromAngle Flat.intersects Flat.boundary_intersection
    [("n", Some Flat.square)] "E" []
    (Flat.street, [(TimesTuple [0.25]%float, "n")]) Flat.store =
    (Ok ([] ++ [Curve (splitAtTime Flat.street (scaled 0.25 0)).1]),
     mkWorld (graphs Flat.store) (heap Flat.store) (log Flat.store ++ [once_only "n" "E"])).
Proof.
  apply (single_crossing_drops_the_rest Flat.normalAtTime Flat.startAngle Flat.endAngle
           Flat.join_mid_point Flat.fromAngle Flat.intersects Flat.boundary_intersection
           [("n", Some Flat.square)] "E" "n" [] Flat.street
           (TimesTuple [0.25]%float) 0.25%float Flat.store).
  reflexivity.
Defined.

Lemma bind_edge_unresolved_witness :
  ∃ msg,
    bind_edge Flat.tangentAtTime Flat.normalAtTime Flat.startAngle Flat.endAngle
      Flat.join_mid_point Flat.fromAngle Flat.bezier_to_linestring Flat.closest_time
      Flat.intersects Flat.boundary_intersection Flat.one_feature 0 empty_graph None
      ("n", "m", 1) Flat.store =
      (Raise (UnboundLocalError "path_components"),
       mkWorld (graphs Flat.store) (heap Flat.store)
               (log Flat.store ++ [(LogWarning, msg)])) ∧
    ∀ parts,
      bind_edge Flat.tangentAtTime Flat.normalAtTime Flat.startAngle Flat.endAngle
        Flat.join_mid_point Flat.fromAngle Flat.bezier_to_linestring Flat.closest_time
        Flat.intersects Flat.boundary_intersection Flat.one_feature 0 empty_graph
        (Some parts) ("n", "m", 1) Flat.store =
        (Ok (Some parts),
         mkWorld (graphs Flat.store)
                 (<[1 := dset "path-components" (VComponents parts) [("id", VStr "E")]]>
                    (heap Flat.store))
                 (log Flat.store ++ [(LogWarning, msg)])).
Proof.
  apply (bind_edge_unresolved Flat.tangentAtTime Flat.normalAtTime Flat.startAngle
           Flat.endAngle Flat.join_mid_point Flat.fromAngle Flat.bezier_to_linestring
           Flat.closest_time Flat.intersects Flat.boundary_intersection Flat.one_feature 0
           empty_graph "n" "m" 1 Flat.store [("id", VStr "E")] "E").
  - reflexivity.
  - reflexivity.
  - intros f. vm_compute. discriminate.
Defined.

(** *** Nodes that meet the street

    A second stand-in for shapely: every geometry meets every line, and
    its name tells how its boundary does. *)
Module Meeting.

Definition intersects (g : Shapely.Geometry) (line : list (float * float)) : bool := true.

Definition boundary_intersection (g : Shapely.Geometry) (line : list (float * float))
  : Shapely.Shape :=
  if decide (Shapely.geom_name g = "touch") then Shapely.Point 1 0
  else if decide (Shapely.geom_name g = "cross") then Shapely.MultiPoint [(2, 0); (6, 0)]%float
  else Shapely.GeometryCollection [].

Definition touch : Shapely.Geometry :=
  Shapely.mkGeometry "touch" (Beziers.mkPoint 1 1) 4 ((0, 0), (2, 2))%float.
Definition cross : Shapely.Geometry :=
  Shapely.mkGeometry "cross" (Beziers.mkPoint 4 0) 16 ((2, -2), (6, 2))%float.
Definition cover : Shapely.Geometry :=
  Shapely.mkGeometry "cover" (Beziers.mkPoint 4 0) 400 ((-6, -10), (14, 10))%float.

(** Two nodes with their centres, the edge [E] between them, and the
    feature of the edge. *)
Definition pair : Graph :=
  mkGraph [("n", 0); ("m", 1)] [("n", [("m", 2)]); ("m", [("n", 2)])].
Definition yard : world :=
  mkWorld [pair]
          [[("centre", VPoint (Beziers.mkPoint 0 0))];
           [("centre", VPoint (Beziers.mkPoint 8 0))];
           [("id", VStr "E")]]
          [].
Definition feature_E : Feature :=
  mkFeature (Some "E") None [("bezier-segments", VSegments [Flat.street])].

End Meeting.

Lemma touching_and_crossing_raises_witness :
  ∃ e w',
    segment_crossings Flat.bezier_to_linestring Flat.closest_time Meeting.intersects
      Meeting.boundary_intersection "E"
      [("a", Some Meeting.touch); ("b", Some Meeting.cross)] Flat.street Flat.store =
      (Raise e, w').
Proof.
  apply (touching_and_crossing_raises Flat.bezier_to_linestring Flat.closest_time
           Meeting.intersects Meeting.boundary_intersection "E"
           [("a", Some Meeting.touch); ("b", Some Meeting.cross)] Flat.street
           "a" "b" Meeting.touch Meeting.cross 1%float 0%float [(2, 0); (6, 0)]%float
           Flat.store).
  - left.
  - right. left.
  - reflexivity.
  - reflexivity.
  - reflexivity.
  - reflexivity.
  - simpl. lia.
Defined.

Lemma crossing_without_points_never_returns_witness :
  (time_points <~ segment_crossings Flat.bezier_to_linestring Flat.closest_time
                    Meeting.intersects Meeting.boundary_intersection "E"
                    [("c", Some Meeting.cover)] Flat.street ;;
   segment_components Flat.normalAtTime Flat.startAngle Flat.endAngle Flat.join_mid_point
     Flat.fromAngle Meeting.intersects Meeting.boundary_intersection
     [("c", Some Meeting.cover)] "E" [] (Flat.street, time_points)) Flat.store =
    (OutOfFuel, Flat.store).
Proof.
  apply (crossing_without_points_never_returns Flat.normalAtTime Flat.startAngle
           Flat.endAngle Flat.join_mid_point Flat.fromAngle Flat.bezier_to_linestring
           Flat.closest_time Meeting.intersects Meeting.boundary_intersection "E" "c"
           Meeting.cover Flat.street [] Flat.store).
  - reflexivity.
  - reflexivity.
Defined.

(** ** The orientation of an edge *)

Lemma set_ends_run (edge_dict : loc) (a b : node) (w : world) :
  edge_dict < length (heap w) →
  ∃ d',
    (set_item edge_dict "start-node" (VStr a) ;;;
     set_item edge_dict "end-node" (VStr b)) w =
      (Ok (), mkWorld (graphs w) (<[edge_dict := d']> (heap w)) (log w)) ∧
    dget "start-node" d' = Some (VStr a) ∧ dget "end-node" d' = Some (VStr b) ∧
    ∀ key, key ≠ "start-node" → key ≠ "end-node" →
           dget key d' = dget key (default [] (heap w !! edge_dict)).
Proof.
  intros Hlt. destruct (lookup_lt_is_Some_2 _ _ Hlt) as [d Hd].
  exists (dset "end-node" (VStr b) (dset "start-node" (VStr a) d)).
  split_and!.
  - unfold mbind at 1. rewrite (set_item_run _ _ _ _ _ Hd).
    erewrite set_item_run; [|by apply list_lookup_insert_eq].
    simpl. by rewrite list_insert_insert_eq.
  - rewrite dget_dset_ne by done. apply dget_dset_eq.
  - apply dget_dset_eq.
  - intros key H1 H2. rewrite Hd. simpl. by rewrite !dget_dset_ne.
Qed.

(** When the segments of an edge are found, the dictionary of the edge
    names its two ends as ['start-node'] and ['end-node'], in one order or
    the other; its other entries, the other dictionaries and the graphs
    are as they were. *)
Theorem edge_orientation (g : Graph) (feature : Feature) (node_0 node_1 : node)
    (edge_dict : loc) (w w' : world) (segments : list Beziers.BSegment) :
  edge_dict < length (heap w) →
  oriented_segments g feature node_0 node_1 edge_dict w = (Ok segments, w') →
  segments ≠ [] →
  ∃ d',
    heap w' = <[edge_dict := d']> (heap w) ∧ graphs w' = graphs w ∧
    ((dget "start-node" d' = Some (VStr node_0) ∧ dget "end-node" d' = Some (VStr node_1)) ∨
     (dget "start-node" d' = Some (VStr node_1) ∧ dget "end-node" d' = Some (VStr node_0))) ∧
    ∀ key, key ≠ "start-node" → key ≠ "end-node" →
           dget key d' = dget key (default [] (heap w !! edge_dict)).
Proof.
  intros Hlt Hrun Hne. unfold oriented_segments in Hrun.
  unfold mbind at 1 in Hrun. unfold nx.node_dict at 1 in Hrun.
  destruct (dget node_0 (g_node g)) as [l0|]; [|done].
  unfold mbind at 1 in Hrun. unfold mret at 1, load at 1 in Hrun.
  unfold mbind at 1 in Hrun. unfold nx.node_dict at 1 in Hrun.
  destruct (dget node_1 (g_node g)) as [l1|]; [|done].
  unfold mbind at 1 in Hrun. unfold mret at 1, load at 1 in Hrun.
  unfold mbind at 1 in Hrun.
  destruct (dget "bezier-segments" (feature_properties feature)) as [[]|]; try done.
  unfold mret at 1 in Hrun.
  set (d0 := default [] (heap w !! l0)) in Hrun.
  set (d1 := default [] (heap w !! l1)) in Hrun.
  destruct segs as [|s0 segs].
  - unfold mbind at 1, log_warning at 1 in Hrun.
    destruct (centre_of d0) as [c0|], (centre_of d1) as [c1|];
      try (injection Hrun as <- <-; done).
    set (w1 := mkWorld _ _ _) in Hrun.
    destruct (set_ends_run edge_dict node_0 node_1 w1 Hlt) as (d' & Hset & Hs & He & Hk).
    unfold mbind at 1 in Hrun. unfold mbind at 1 in Hset.
    unfold mbind at 1 in Hrun.
    destruct (set_item edge_dict "start-node" (VStr node_0) w1) as [[[]| |] w2]; try done.
    rewrite Hset in Hrun. injection Hrun as <- <-.
    exists d'. split_and!; [done|done|by left|done].
  - destruct (centre_of d0) as [c0|], (centre_of d1) as [c1|]; try done.
    destruct (PrimFloat.leb _ _).
    + destruct (set_ends_run edge_dict node_0 node_1 w Hlt) as (d' & Hset & Hs & He & Hk).
      unfold mbind at 1 in Hrun. unfold mbind at 1 in Hset.
      unfold mbind at 1 in Hrun.
      destruct (set_item edge_dict "start-node" (VStr node_0) w) as [[[]| |] w2]; try done.
      rewrite Hset in Hrun. injection Hrun as <- <-.
      exists d'. split_and!; [done|done|by left|done].
    + destruct (set_ends_run edge_dict node_1 node_0 w Hlt) as (d' & Hset & Hs & He & Hk).
      unfold mbind at 1 in Hrun. unfold mbind at 1 in Hset.
      unfold mbind at 1 in Hrun.
      destruct (set_item edge_dict "start-node" (VStr node_1) w) as [[[]| |] w2]; try done.
      rewrite Hset in Hrun. injection Hrun as <- <-.
      exists d'. split_and!; [done|done|by right|done].
Qed.

Lemma edge_orientation_witness :
  ∃ d',
    heap (oriented_segments Meeting.pair Meeting.feature_E "n" "m" 2 Meeting.yard).2 =
      <[2 := d']> (heap Meeting.yard) ∧
    graphs (oriented_segments Meeting.pair Meeting.feature_E "n" "m" 2 Meeting.yard).2 =
      graphs Meeting.yard ∧
    ((dget "start-node" d' = Some (VStr "n") ∧ dget "end-node" d' = Some (VStr "m")) ∨
     (dget "start-node" d' = Some (VStr "m") ∧ dget "end-node" d' = Some (VStr "n"))) ∧
    ∀ key, key ≠ "start-node" → key ≠ "end-node" →
           dget key d' = dget key (default [] (heap Meeting.yard !! 2)).
Proof.
  apply (edge_orientation Meeting.pair Meeting.feature_E "n" "m" 2 Meeting.yard
           (oriented_segments Meeting.pair Meeting.feature_E "n" "m" 2 Meeting.yard).2
           [Flat.street]).
  - simpl. lia.
  - vm_compute. reflexivity.
  - done.
Defined.

(** ** What junction truncation keeps, whatever the arithmetic *)

Section TruncationShape.
Context {F : Type} `{Num F}.
Context {C P : Type}.
Variable curve_at : C → F → P.
Variable distanceFrom : P → P → F.

Lemma skip_start_le (c : P) (inner : F) (segs : list (Segment F C)) :
  skip_start curve_at distanceFrom c inner segs ≤ length segs.
Proof. induction segs as [|s segs IH]; simpl; [done|]. destruct (nltb _ _); lia. Qed.

Lemma last_drop {A} (l : list A) (n : nat) : n < length l → last (drop n l) = last l.
Proof.
  revert n. induction l as [|a l IH]; intros n Hn; [simpl in Hn; lia|].
  destruct n as [|n]; [done|]. simpl in Hn. rewrite skipn_cons.
  rewrite IH by lia. destruct l; [simpl in Hn; lia|done].
Qed.

(** Truncating at the start never empties the list, never makes it longer,
    and leaves the far end of the centreline where it was: the last segment
    handed back is cut from the same curve as the last one given, and ends
    at the same parameter. *)
Theorem truncate_start_keeps_far_end (fuel : nat) (segs segs' : list (Segment F C))
    (centre : option P) (radii : option (F * F)) (final : Segment F C) :
  last segs = Some final →
  truncate_segments_start curve_at distanceFrom fuel segs centre radii = Ok segs' →
  0 < length segs' ≤ length segs ∧
  ∃ final', last segs' = Some final' ∧
            seg_curve final' = seg_curve final ∧ seg_hi final' = seg_hi final.
Proof.
  intros Hlast. unfold truncate_segments_start.
  assert (Hlen : 0 < length segs) by (destruct segs; [done|simpl; lia]).
  assert (Hsame : 0 < length segs ≤ length segs ∧
            ∃ final', last segs = Some final' ∧
              seg_curve final' = seg_curve final ∧ seg_hi final' = seg_hi final).
  { split; [lia|]. by exists final. }
  destruct centre as [c|]; [|by intros [= <-]].
  destruct radii as [r|]; [|done].
  destruct segs as [|s0 segs0] eqn:Hsegs; [done|]. rewrite <- Hsegs in *.
  destruct (ngtb _ _); [by intros [= <-]|].
  set (n := skip_start _ _ _ _ _).
  destruct (segs !! n) as [bz|] eqn:Hn; [|by intros [= <-]].
  destruct (bisect_start _ _ _ _ _ _ _ _) as [t|]; [|done].
  intros [= <-]. rewrite (drop_insert_here _ _ _ _ Hn).
  pose proof (lookup_lt_Some _ _ _ Hn) as Hlt.
  split.
  - simpl. rewrite length_drop. lia.
  - destruct (decide (S n = length segs)) as [Heq|Hne].
    + rewrite drop_ge by lia. simpl. eexists. split; [done|].
      assert (Hbz : last segs = Some bz).
      { rewrite last_lookup. rewrite <- Hn. f_equal. lia. }
      rewrite Hlast in Hbz. injection Hbz as ->. done.
    + exists final. split; [|done].
      rewrite <- Hlast. rewrite <- (last_drop segs (S n)) by lia.
      destruct (drop (S n) segs) eqn:Hd; [|done].
      apply (f_equal length) in Hd. rewrite length_drop in Hd. simpl in Hd. lia.
Qed.

(** Truncating at the end likewise keeps the near end: the first segment
    handed back starts where the first one given starts. *)
Theorem truncate_end_keeps_near_end (fuel : nat) (segs segs' : list (Segment F C))
    (centre : option P) (radii : option (F * F)) (first : Segment F C) :
  head segs = Some first →
  truncate_segments_end curve_at distanceFrom fuel segs centre radii = Ok segs' →
  0 < length segs' ≤ length segs ∧
  ∃ first', head segs' = Some first' ∧
            seg_curve first' = seg_curve first ∧ seg_lo first' = seg_lo first.
Proof.
  intros Hhead. unfold truncate_segments_end.
  assert (Hlen : 0 < length segs) by (destruct segs; [done|simpl; lia]).
  assert (Hsame : 0 < length segs ≤ length segs ∧
            ∃ first', head segs = Some first' ∧
              seg_curve first' = seg_curve first ∧ seg_lo first' = seg_lo first).
  { split; [lia|]. by exists first. }
  destruct centre as [c|]; [|by intros [= <-]].
  destruct radii as [r|]; [|done].
  destruct (last segs) as [s1|]; [|done].
  destruct (ngtb _ _); [by intros [= <-]|].
  set (k := skip_end _ _ _ _ _).
  destruct (decide _) as [Hall|Hsome]; [by intros [= <-]|].
  set (n := length segs - 1 - k).
  destruct (segs !! n) as [bz|] eqn:Hn; [|by intros [= <-]].
  destruct (bisect_end _ _ _ _ _ _ _ _) as [t|]; [|done].
  intros [= <-]. rewrite (take_insert_here _ _ _ _ Hn).
  pose proof (lookup_lt_Some _ _ _ Hn) as Hlt.
  split.
  - rewrite length_app, length_take. simpl. lia.
  - destruct n as [|n'].
    + simpl. eexists. split; [done|].
      destruct segs as [|s segs0]; [done|]. simpl in Hn, Hhead.
      injection Hn as ->. injection Hhead as ->. done.
    + exists first. split; [|done].
      destruct segs as [|s segs0]; [done|]. simpl in *. done.
Qed.

End TruncationShape.

Lemma truncate_start_keeps_far_end_witness :
  0 < length [mkSegment (0, 20)%Q (1 # 4) 1%Q] ≤ length [Axis.outward] ∧
  ∃ final', last [mkSegment (0, 20)%Q (1 # 4) 1%Q] = Some final' ∧
            seg_curve final' = seg_curve Axis.outward ∧ seg_hi final' = seg_hi Axis.outward.
Proof.
  apply (truncate_start_keeps_far_end Axis.curve_at Axis.distanceFrom 20 [Axis.outward] _
           (Some Axis.centre) (Some Axis.band) Axis.outward).
  - reflexivity.
  - vm_compute. reflexivity.
Defined.

Lemma truncate_end_keeps_near_end_witness :
  0 < length [mkSegment (20, 0)%Q 0%Q (3 # 4)] ≤ length [Axis.inward] ∧
  ∃ first', head [mkSegment (20, 0)%Q 0%Q (3 # 4)] = Some first' ∧
            seg_curve first' = seg_curve Axis.inward ∧ seg_lo first' = seg_lo Axis.inward.
Proof.
  apply (truncate_end_keeps_near_end Axis.curve_at Axis.distanceFrom 20 [Axis.inward] _
           (Some Axis.centre) (Some Axis.band) Axis.inward).
  - reflexivity.
  - vm_compute. reflexivity.
Defined.

(** ** More on route requests *)

Module PathwaysFacts.
Import Pathways.

Section ListRequests.
Variable id_init : ascii → bool.
Variable id_body : ascii → bool.

Lemma too_short_not_syntax (pid : string) : too_short pid ≠ syntax_error.
Proof. unfold too_short, syntax_error. simpl. discriminate. Qed.

Lemma parse_end_item_grouped (it : route_item) (n : route_node) :
  parse_end_item id_init id_body it = Ok n → n = Grouped (make_list n).
Proof.
  destruct it; simpl.
  - destruct (parse_node_id _ _ _); simpl; [|done..]. by intros [= <-].
  - destruct (rmap _ _); simpl; [|done..]. by intros [= <-].
Qed.

(** A route given as a list is never refused as too short: an empty list
    raises [IndexError], and any other list that parses gives a route whose
    start nodes are the first item and whose end nodes are the last item, so
    that a list of one item is a route from that item to itself. *)
Theorem list_route_request (pid : string) (items : list route_item) :
  (items = [] → Route_init id_init id_body pid (RouteList items) = Raise IndexError) ∧
  (∀ r, Route_init id_init id_body pid (RouteList items) = Ok r →
     ∃ first final,
       head items = Some first ∧ last items = Some final ∧
       parse_end_item id_init id_body first = Ok (Grouped (start_nodes r)) ∧
       parse_end_item id_init id_body final = Ok (Grouped (end_nodes r))) ∧
  Route_init id_init id_body pid (RouteList items) ≠ Raise (too_short pid).
Proof.
  split_and!.
  - by intros ->.
  - intros r. unfold Route_init, parse_route_nodes.
    destruct (head items) as [first|] eqn:Hh; [|done].
    destruct (last items) as [final|] eqn:Hl; [|done].
    destruct (parse_end_item id_init id_body first) as [n0| |] eqn:H0; [|done..].
    simpl. destruct (rmap _ (middle items)) as [mid| |]; [|done..].
    simpl. destruct (parse_end_item id_init id_body final) as [n1| |] eqn:H1; [|done..].
    simpl. destruct (decide _) as [Hshort|_].
    { rewrite length_app in Hshort. simpl in Hshort. lia. }
    rewrite app_comm_cons, last_snoc. intros [= <-]. simpl.
    exists first, final. split_and!; try done.
    + rewrite H0. f_equal. by apply parse_end_item_grouped in H0.
    + rewrite H1. f_equal. by apply parse_end_item_grouped in H1.
  - unfold Route_init, parse_route_nodes.
    destruct (head items) as [first|]; [|done].
    destruct (last items) as [final|]; [|done].
    assert (Hid : ∀ s n, parse_node_id id_init id_body s ≠ Raise (too_short n)).
    { intros s n. unfold parse_node_id. destruct (NODE_ID _ _ _) as [[? ?]|]; [done|].
      intros Heq. unfold syntax_error, too_short in Heq. simpl in Heq. discriminate Heq. }
    assert (Hend : ∀ it n, parse_end_item id_init id_body it ≠ Raise (too_short n)).
    { intros [s|ids] n; simpl.
      - pose proof (Hid s n). destruct (parse_node_id _ _ s); simpl; congruence.
      - induction ids as [|i ids IH]; simpl; [done|].
        pose proof (Hid i n). destruct (parse_node_id _ _ i); simpl; [|congruence|done].
        destruct (rmap _ ids); simpl in *; done. }
    assert (Hmid : ∀ l n, rmap (parse_middle_item id_init id_body) l ≠ Raise (too_short n)).
    { intros l n. induction l as [|[s|ids] l IH]; simpl; [done| |done].
      pose proof (Hid s n). destruct (parse_node_id _ _ s); simpl; [|congruence|done].
      destruct (rmap _ l); simpl in *; done. }
    destruct (parse_end_item id_init id_body first) as [n0|e|] eqn:H0; simpl;
      [|intros [= ->]; by apply (Hend first pid)|done].
    destruct (rmap _ (middle items)) as [mid|e|] eqn:Hm; simpl;
      [|intros [= ->]; by apply (Hmid (middle items) pid)|done].
    destruct (parse_end_item id_init id_body final) as [n1|e|] eqn:H1; simpl;
      [|intros [= ->]; by apply (Hend final pid)|done].
    destruct (decide _) as [Hshort|_].
    { rewrite length_app in Hshort. simpl in Hshort. lia. }
    by destruct (last _).
Qed.

End ListRequests.

(** Three paths, the second with a route of a single node. *)
Definition short_second : list path_decl :=
  [mkPath "p1" (Some (LinesStr "l1")) (Some (RouteStr "a, b")) None (Some "symp") None;
   mkPath "p2" (Some (LinesStr "l2")) (Some (RouteStr "a")) None None None;
   mkPath "p3" (Some (LinesStr "l3")) (Some (RouteStr "c, d")) None None None].

Definition no_pathways : pathways := mkPathways [] [] [] [] [] [] [] [] 0 [].

Lemma extend_pathways_stops_witness :
  extend_pathways alphanum id_char no_pathways short_second =
  (Raise (too_short "p2"),
   mkPathways ["p1"; "p2"] [("p1", mkRoute "p1" ["a"] [] ["b"])] [("p1", "symp")] [] [] [] [] []
     0 [("p1", 0); ("p2", 0)]).
Proof.
  apply (extend_pathways_stops alphanum id_char no_pathways
           (mkPathways ["p1"] [("p1", mkRoute "p1" ["a"] [] ["b"])] [("p1", "symp")] []
              [] [] [] [] 0 [("p1", 0)])
           ([("p1", ["l1"])], [])
           [mkPath "p1" (Some (LinesStr "l1")) (Some (RouteStr "a, b")) None (Some "symp") None]
           (mkPath "p2" (Some (LinesStr "l2")) (Some (RouteStr "a")) None None None)
           [mkPath "p3" (Some (LinesStr "l3")) (Some (RouteStr "c, d")) None None None]
           (LinesStr "l2") ["l2"] (RouteStr "a") (too_short "p2")); reflexivity.
Defined.



End PathwaysFacts.

(** ** The shape of the graph that [Network.__init__] builds *)

(** [n] is the first or the last entry of the [connects] of [c]. *)
Definition is_end (n : node) (c : centreline) : Prop :=
  ∃ n0 n1, ends c = Some (n0, n1) ∧ (n = n0 ∨ n = n1).

(** The nodes of [g] are the ends of the centrelines of [cs], and its
    edges join the two ends of each. *)
Record shaped (cs : list centreline) (g : Graph) : Prop := {
  shaped_wf : well_formed g;
  shaped_edges : ∀ x y, nx.has_edge g x y = true ↔ Exists (fun c => joins c x y) cs;
  shaped_nodes : ∀ n, nx.has_node g n = true ↔ Exists (is_end n) cs
}.

(** [Network.contains(id)]. *)
Definition Network_contains (self : Network) (id : string) : M bool :=
  g <~ get_graph (centreline_graph self) ;;
  mret (bool_decide (id ∈ centreline_ids self) || nx.has_node g id).

Section NetworkShape.
Variable get_property : string → string → option string.

Lemma joined_has_node (g : Graph) (u v : node) (lu lv l : loc) (n : node) :
  nx.has_node (joined g u v lu lv l) n =
    nx.has_node g n || bool_decide (u = n) || bool_decide (v = n).
Proof. unfold joined. by rewrite has_node_link, !has_node_grow. Qed.

Lemma shaped_snoc (cs : list centreline) (g : Graph) (c : centreline) (n0 n1 : node)
    (lu lv l : loc) :
  shaped cs g → ends c = Some (n0, n1) → shaped (cs ++ [c]) (joined g n0 n1 lu lv l).
Proof.
  intros [Hwf He Hn] Hends. split.
  - by apply joined_well_formed.
  - intros x y. rewrite joined_has_edge by done. rewrite Exists_app, Exists_cons, Exists_nil.
    rewrite !orb_true_iff, !bool_decide_eq_true, He. unfold joins. rewrite Hends.
    split.
    + intros [[H1|[-> ->]]|[-> ->]]; auto.
    + intros [H1|[[[= -> ->]|[= -> ->]]|[]]]; auto.
  - intros n. rewrite joined_has_node. rewrite Exists_app, Exists_cons, Exists_nil.
    rewrite !orb_true_iff, !bool_decide_eq_true, Hn. unfold is_end. rewrite Hends.
    split.
    + intros [[H1|<-]|<-]; [by left|right; left; eauto..].
    + intros [H1|[(a & b & [= <- <-] & [->| ->])|[]]]; auto.
Qed.

Lemma init_centreline_shape (acc : list centreline) (self : Network) (c : centreline)
    (w : world) (g : Graph) :
  graphs w !! centreline_graph self = Some g → shaped acc g →
  NoDup (centreline_ids self) →
  ∃ self' w' g',
    init_centreline get_property self c w = (Ok self', w') ∧
    centreline_graph self' = centreline_graph self ∧
    graphs w' !! centreline_graph self = Some g' ∧
    length (graphs w') = length (graphs w) ∧
    shaped (acc ++ accepted (centreline_ids self) [c]) g' ∧
    centreline_ids self' = centreline_ids self ++
      omap cl_id (accepted (centreline_ids self) [c]) ∧
    NoDup (centreline_ids self') ∧
    length (log w') + length (accepted (centreline_ids self) [c]) = S (length (log w)).
Proof.
  intros Hg Hsh Hnd. unfold init_centreline. cbv zeta. cbn [accepted].
  destruct (cl_id c) as [id|] eqn:Hid.
  2: { eexists self, _, g. split; [done|]. cbn. rewrite !app_nil_r, length_app.
       split_and!; try done. simpl. lia. }
  destruct (decide (id ∈ centreline_ids self)) as [Hin|Hnew].
  { eexists self, _, g. split; [done|]. cbn. rewrite !app_nil_r, length_app.
    split_and!; try done. simpl. lia. }
  destruct (decide (length (cl_connects c) < 2)) as [Hshort|Hlong].
  { eexists self, _, g. split; [done|]. cbn. rewrite !app_nil_r, length_app.
    split_and!; try done. simpl. lia. }
  destruct (ends_is_Some c Hlong) as (n0 & n1 & Hends).
  pose proof Hends as Hends'. unfold ends in Hends'.
  destruct (head (cl_connects c)) as [n0'|]; [|done].
  destruct (last (cl_connects c)) as [n1'|]; [|done].
  injection Hends' as -> ->.
  destruct (fold_left _ _ _) as [contained props].
  unfold mbind.
  destruct (add_edge_run (centreline_graph self) n0 n1 props w g Hg)
    as (w' & lu & lv & l & -> & Hg' & Hlog).
  eexists _, w', (joined g n0 n1 lu lv l). split; [done|]. simpl.
  split_and!; try done.
  - rewrite Hg'. apply list_lookup_insert_eq. by eapply lookup_lt_Some.
  - rewrite Hg'. apply length_insert.
  - by apply shaped_snoc.
  - by rewrite Hid.
  - apply NoDup_app. split_and!; [done| |apply NoDup_singleton].
    intros x Hx Hx'. apply list_elem_of_singleton in Hx' as ->. done.
  - rewrite Hlog. lia.
Qed.

Lemma init_loop_shape (cs : list centreline) :
  ∀ (acc : list centreline) (self : Network) (w : world) (g : Graph),
  graphs w !! centreline_graph self = Some g → shaped acc g →
  NoDup (centreline_ids self) →
  ∃ self' w' g',
    foldM cs self (init_centreline get_property) w = (Ok self', w') ∧
    centreline_graph self' = centreline_graph self ∧
    graphs w' !! centreline_graph self = Some g' ∧
    length (graphs w') = length (graphs w) ∧
    shaped (acc ++ accepted (centreline_ids self) cs) g' ∧
    centreline_ids self' = centreline_ids self ++
      omap cl_id (accepted (centreline_ids self) cs) ∧
    NoDup (centreline_ids self') ∧
    length (log w') + length (accepted (centreline_ids self) cs) =
      length (log w) + length cs.
Proof.
  induction cs as [|c cs IH]; intros acc self w g Hg Hsh Hnd.
  { exists self, w, g. simpl. rewrite !app_nil_r. by split_and!. }
  destruct (init_centreline_shape acc self c w g Hg Hsh Hnd)
    as (self1 & w1 & g1 & Hrun & Hr1 & Hg1 & Hlen1 & Hsh1 & Hids1 & Hnd1 & Hlog1).
  rewrite <- Hr1 in Hg1.
  destruct (IH _ self1 w1 g1 Hg1 Hsh1 Hnd1)
    as (self2 & w2 & g2 & Hrun2 & Hr2 & Hg2 & Hlen2 & Hsh2 & Hids2 & Hnd2 & Hlog2).
  exists self2, w2, g2. cbn [foldM]. unfold mbind. rewrite Hrun, Hrun2.
  rewrite Hr1 in Hg2. rewrite accepted_cons, omap_app, !app_assoc, <- Hids1.
  split_and!; try done; try congruence.
  rewrite length_app. cbn [length]. lia.
Qed.

(** Whatever the declaration, [Network.__init__] does not raise; the nodes
    of the graph it builds are exactly the first and last [connects]
    entries of the centrelines it accepts (the entries in between are not
    nodes of their own), and two nodes are joined exactly when an accepted
    centreline runs between them. *)
Theorem network_graph_shape (network : network_decl) (w : world) :
  ∃ net w' g,
    Network_init get_property network w = (Ok net, w') ∧
    centreline_graph net = length (graphs w) ∧
    graphs w' !! centreline_graph net = Some g ∧
    shaped (accepted [] (decl_centrelines network)) g.
Proof.
  unfold Network_init, mbind, new_graph.
  set (w0 := mkWorld (graphs w ++ [empty_graph]) (heap w) (log w)).
  set (self := mkNetwork _ _ _ _ _ _).
  destruct (init_loop_shape (decl_centrelines network) [] self w0 empty_graph)
    as (net & w' & g & Hrun & Hr & Hg & _ & Hsh & _).
  { simpl. by rewrite lookup_app_r, Nat.sub_diag. }
  { split; [apply well_formed_empty|..]; intros; rewrite Exists_nil; by split. }
  { apply NoDup_nil_2. }
  exists net, w', g. rewrite Hr. by split_and!.
Qed.

(** A centreline without an id, with an id already taken, or with fewer
    than two [connects] entries is skipped with one log entry and nothing
    else: the ids kept are those of the accepted centrelines, none twice,
    and the log grows by the number of centrelines skipped. *)
Theorem network_skips_and_logs (network : network_decl) (w : world) :
  ∃ net w',
    Network_init get_property network w = (Ok net, w') ∧
    centreline_ids net = omap cl_id (accepted [] (decl_centrelines network)) ∧
    NoDup (centreline_ids net) ∧
    length (log w') + length (accepted [] (decl_centrelines network)) =
      length (log w) + length (decl_centrelines network).
Proof.
  unfold Network_init, mbind, new_graph.
  set (w0 := mkWorld (graphs w ++ [empty_graph]) (heap w) (log w)).
  set (self := mkNetwork _ _ _ _ _ _).
  destruct (init_loop_shape (decl_centrelines network) [] self w0 empty_graph)
    as (net & w' & g & Hrun & Hr & Hg & _ & _ & Hids & Hnd & Hlog).
  { simpl. by rewrite lookup_app_r, Nat.sub_diag. }
  { split; [apply well_formed_empty|..]; intros; rewrite Exists_nil; by split. }
  { apply NoDup_nil_2. }
  exists net, w'. by split_and!.
Qed.

(** After construction [contains] answers yes for the id of every accepted
    centreline and for both of its end nodes. *)
Theorem network_contains_accepted (network : network_decl) (w : world) :
  ∃ net w',
    Network_init get_property network w = (Ok net, w') ∧
    Forall (fun c =>
      ∃ id n0 n1, cl_id c = Some id ∧ ends c = Some (n0, n1) ∧
        Network_contains net id w' = (Ok true, w') ∧
        Network_contains net n0 w' = (Ok true, w') ∧
        Network_contains net n1 w' = (Ok true, w'))
      (accepted [] (decl_centrelines network)).
Proof.
  unfold Network_init, mbind, new_graph.
  set (w0 := mkWorld (graphs w ++ [empty_graph]) (heap w) (log w)).
  set (self := mkNetwork _ _ _ _ _ _).
  destruct (init_loop_shape (decl_centrelines network) [] self w0 empty_graph)
    as (net & w' & g & Hrun & Hr & Hg & _ & Hsh & Hids & _).
  { simpl. by rewrite lookup_app_r, Nat.sub_diag. }
  { split; [apply well_formed_empty|..]; intros; rewrite Exists_nil; by split. }
  { apply NoDup_nil_2. }
  exists net, w'. split; [done|]. simpl in Hsh, Hids.
  apply Forall_forall. intros c Hc.
  assert (Hacc : ∀ seen cs c, c ∈ accepted seen cs →
            ∃ id n0 n1, cl_id c = Some id ∧ ends c = Some (n0, n1)).
  { intros seen cs. revert seen. induction cs as [|c0 cs IH]; intros seen c' Hc'.
    - by apply elem_of_nil in Hc'.
    - simpl in Hc'. destruct (cl_id c0) as [id0|] eqn:Hid0; [|by eapply IH].
      destruct (decide (id0 ∈ seen)); [by eapply IH|].
      destruct (decide (length (cl_connects c0) < 2)) as [|Hlong]; [by eapply IH|].
      apply elem_of_cons in Hc' as [->|Hc']; [|by eapply IH].
      destruct (ends_is_Some c0 Hlong) as (n0 & n1 & He). eauto. }
  destruct (Hacc _ _ _ Hc) as (id & n0 & n1 & Hid & Hends).
  exists id, n0, n1. split; [done|]. split; [done|].
  unfold Network_contains, mbind, get_graph, mret. rewrite <- Hr in Hg. rewrite Hg. simpl.
  assert (Hn : ∀ n, is_end n c → nx.has_node g n = true).
  { intros n Hn. apply (shaped_nodes _ _ Hsh). apply Exists_exists. eauto. }
  split_and!; do 2 f_equal.
  - apply orb_true_iff. left. apply bool_decide_eq_true. rewrite Hids.
    apply list_elem_of_omap. eauto.
  - apply orb_true_iff. right. apply Hn. exists n0, n1. auto.
  - apply orb_true_iff. right. apply Hn. exists n0, n1. auto.
Qed.

End NetworkShape.

(** ** [get_connected_subgraph] on two vertices or more *)

Definition adjacent (g : Graph) (u v : node) : Prop := nx.has_edge g u v = true.

(** Any two nodes of [g] are joined by edges of [g]. *)
Definition connected (g : Graph) : Prop :=
  ∀ u v, nx.has_node g u = true → nx.has_node g v = true → rtc (adjacent g) u v.

(** Each node of [p] is adjacent to the next. *)
Fixpoint chain (g : Graph) (p : list node) : Prop :=
  match p with
  | [] => True
  | x :: p' => match p' with [] => True | y :: _ => adjacent g x y end ∧ chain g p'
  end.

Section ConnectedSubgraph.

Lemma dget_filter_key {V} (S : list node) (k : node) (d : dict node V) :
  dget k (filter (fun e => e.1 ∈ S) d) = if decide (k ∈ S) then dget k d else None.
Proof.
  induction d as [|[k' v] d IH]; simpl; [by destruct (decide _)|].
  rewrite filter_cons. simpl. destruct (decide (k' ∈ S)) as [Hk'|Hk']; simpl.
  - destruct (decide (k = k')) as [->|]; [by rewrite decide_True|done].
  - rewrite IH. destruct (decide (k = k')) as [->|]; [|done].
    by destruct (decide (k' ∈ S)).
Qed.

Lemma dget_map_values {V W} (f : V → W) (k : node) (d : dict node V) :
  dget k (map (fun e => (e.1, f e.2)) d) = f <$> dget k d.
Proof.
  induction d as [|[k' v] d IH]; simpl; [done|]. by destruct (decide (k = k')).
Qed.

Lemma adj_subgraph (g : Graph) (S : list node) (u : node) :
  nx.adj (nx.subgraph g S) u =
    if decide (u ∈ S) then filter (fun e => e.1 ∈ S) (nx.adj g u) else [].
Proof.
  unfold nx.adj, dget_default, nx.subgraph. simpl.
  rewrite (dget_map_values (filter (fun e => e.1 ∈ S))), dget_filter_key.
  destruct (decide (u ∈ S)); [|done]. by destruct (dget u (g_adj g)).
Qed.

Lemma has_edge_subgraph (g : Graph) (S : list node) (u v : node) :
  nx.has_edge (nx.subgraph g S) u v =
    bool_decide (u ∈ S) && bool_decide (v ∈ S) && nx.has_edge g u v.
Proof.
  unfold nx.has_edge. rewrite adj_subgraph. unfold dmem.
  destruct (decide (u ∈ S)) as [Hu|Hu].
  - rewrite (bool_decide_eq_true_2 _ Hu), dget_filter_key.
    destruct (decide (v ∈ S)) as [Hv|Hv].
    + by rewrite (bool_decide_eq_true_2 _ Hv).
    + by rewrite (bool_decide_eq_false_2 _ Hv).
  - by rewrite (bool_decide_eq_false_2 _ Hu).
Qed.

Lemma has_node_subgraph (g : Graph) (S : list node) (v : node) :
  nx.has_node (nx.subgraph g S) v = bool_decide (v ∈ S) && nx.has_node g v.
Proof.
  unfold nx.has_node, nx.subgraph, dmem. simpl. rewrite dget_filter_key.
  destruct (decide (v ∈ S)) as [Hv|Hv].
  - by rewrite (bool_decide_eq_true_2 _ Hv).
  - by rewrite (bool_decide_eq_false_2 _ Hv).
Qed.

Lemma adjacent_node (g : Graph) (x y : node) :
  well_formed g → adjacent g x y → nx.has_node g y = true.
Proof.
  intros Hwf Hxy. unfold adjacent in Hxy. rewrite (wf_sym _ Hwf) in Hxy.
  destruct (nx.has_node g y) eqn:Hy; [done|].
  unfold nx.has_edge in Hxy. by rewrite (adj_not_node _ _ (wf_keys _ Hwf) Hy) in Hxy.
Qed.

(** *** Walks *)

Lemma chain_snoc (g : Graph) (p : list node) (x y : node) :
  chain g p → last p = Some x → adjacent g x y → chain g (p ++ [y]).
Proof.
  intros Hc Hl Hxy. induction p as [|a p IH]; [done|].
  destruct p as [|b p].
  - simpl in *. injection Hl as ->. done.
  - destruct Hc as [Hab Hc]. split; [done|]. by apply IH.
Qed.

Lemma head_snoc (p : list node) (x y : node) : last p = Some x → head (p ++ [y]) = head p.
Proof. by destruct p. Qed.

Lemma walks_chain (g : Graph) (source : node) (k : nat) (p : list node) :
  p ∈ nx.walks g k source → head p = Some source ∧ chain g p.
Proof.
  revert p. induction k as [|k IH]; intros p Hp; simpl in Hp.
  - apply list_elem_of_singleton in Hp as ->. done.
  - apply list_elem_of_In, in_flat_map in Hp as (q & Hq & Hp).
    apply list_elem_of_In, IH in Hq as [Hh Hc].
    destruct (last q) as [x|] eqn:Hl; [|done].
    apply in_map_iff in Hp as (y & <- & Hy). apply list_elem_of_In in Hy.
    split.
    + by rewrite (head_snoc _ _ _ Hl).
    + apply (chain_snoc _ _ x); [done..|]. by apply dmem_keys.
Qed.

Lemma chain_reach (g : Graph) (p : list node) :
  ∀ a x, chain g (a :: p) → x ∈ a :: p → rtc (adjacent g) a x.
Proof.
  induction p as [|b p IH]; intros a x Hc Hx.
  - apply list_elem_of_singleton in Hx as ->. done.
  - destruct Hc as [Hab Hc]. apply elem_of_cons in Hx as [->|Hx]; [done|].
    eapply rtc_l; [exact Hab|]. by apply IH.
Qed.

Lemma chain_subgraph (g : Graph) (S : list node) (p : list node) :
  chain g p → (∀ x, x ∈ p → x ∈ S) → chain (nx.subgraph g S) p.
Proof.
  induction p as [|a p IH]; [done|]. intros [Hab Hc] HS. split.
  - destruct p as [|b p]; [done|]. unfold adjacent. rewrite has_edge_subgraph, Hab.
    rewrite !bool_decide_eq_true_2; [done|apply HS..].
    + right. left.
    + left.
  - apply IH; [done|]. intros x Hx. apply HS. by right.
Qed.

Lemma chain_nodes (g : Graph) (p : list node) :
  well_formed g →
  ∀ a x, nx.has_node g a = true → chain g (a :: p) → x ∈ a :: p → nx.has_node g x = true.
Proof.
  intros Hwf. induction p as [|b p IH]; intros a x Ha Hc Hx.
  - by apply list_elem_of_singleton in Hx as ->.
  - destruct Hc as [Hab Hc]. apply elem_of_cons in Hx as [->|Hx]; [done|].
    apply (IH b); [|done..]. by apply (adjacent_node g a).
Qed.

(** *** The shortest paths *)

Lemma shortest_from_spec (g : Graph) (source target : node) (fuel : nat) :
  ∀ k paths, nx.shortest_from g source target fuel k = Some paths →
    paths ≠ [] ∧
    ∀ p, p ∈ paths → head p = Some source ∧ last p = Some target ∧ chain g p.
Proof.
  induction fuel as [|fuel IH]; intros k paths; simpl; [done|].
  destruct (filter _ _) as [|p0 ps] eqn:Hf; [apply IH|].
  intros [= <-]. split; [done|]. intros p Hp. rewrite <- Hf in Hp.
  apply list_elem_of_filter in Hp as [Hend Hp]. apply walks_chain in Hp as [Hh Hc].
  split_and!; [done| |done]. unfold nx.ends_at in Hend. by apply bool_decide_unpack in Hend.
Qed.

Lemma all_shortest_paths_spec (g : Graph) (source target : node) (paths : list (list node)) :
  nx.all_shortest_paths g source target = Ok paths →
  nx.has_node g source = true ∧ paths ≠ [] ∧
  ∀ p, p ∈ paths → head p = Some source ∧ last p = Some target ∧ chain g p.
Proof.
  unfold nx.all_shortest_paths. destruct (nx.has_node g source); [|done]. simpl.
  destruct (nx.shortest_from _ _ _ _ _) as [ps|] eqn:Hs; [|done].
  intros [= <-]. split; [done|]. by eapply shortest_from_spec.
Qed.

(** *** The set of nodes *)

Lemma elem_of_update_all (paths : list (list node)) :
  ∀ vpp x, x ∈ update_all vpp paths ↔ x ∈ vpp ∨ ∃ p, p ∈ paths ∧ x ∈ p.
Proof.
  unfold update_all. induction paths as [|q paths IH]; intros vpp x; simpl.
  - split; [by left|]. intros [?|(p & Hp & _)]; [done|]. by apply elem_of_nil in Hp.
  - rewrite IH, list_elem_of_union. split.
    + intros [[?|?]|(p & Hp & Hx)]; [by left|right..].
      * exists q. split; [left|done].
      * exists p. split; [by right|done].
    + intros [?|(p & Hp & Hx)]; [by left; left|].
      apply elem_of_cons in Hp as [->|Hp]; [by left; right|right; eauto].
Qed.

Lemma connecting_nodes_spec (g : Graph) (pairs : list (node * node)) :
  ∀ vpp0 vpp, connecting_nodes g pairs vpp0 = Ok vpp →
    (∀ x, x ∈ vpp0 → x ∈ vpp) ∧
    (∀ s t, (s, t) ∈ pairs →
       ∃ paths, nx.all_shortest_paths g s t = Ok paths ∧
                ∀ p x, p ∈ paths → x ∈ p → x ∈ vpp) ∧
    (∀ x, x ∈ vpp →
       x ∈ vpp0 ∨
       ∃ s t paths p, (s, t) ∈ pairs ∧ nx.all_shortest_paths g s t = Ok paths ∧
                      p ∈ paths ∧ x ∈ p).
Proof.
  induction pairs as [|[s t] pairs IH]; intros vpp0 vpp; simpl.
  - intros [= <-]. split_and!; [done| |by left]. intros s t Hst. by apply elem_of_nil in Hst.
  - destruct (nx.all_shortest_paths g s t) as [paths| |] eqn:Hp; simpl; [|done..].
    intros Hrun. destruct (IH _ _ Hrun) as (Hin & Hpairs & Hout). split_and!.
    + intros x Hx. apply Hin, elem_of_update_all. by left.
    + intros s' t' Hst. apply elem_of_cons in Hst as [[= -> ->]|Hst]; [|by apply Hpairs].
      exists paths. split; [done|]. intros p x Hpp Hx. apply Hin, elem_of_update_all.
      right. eauto.
    + intros x Hx. destruct (Hout x Hx) as [Hx0|(s' & t' & ps & p & Hst & Hps & Hpp & Hxp)].
      * apply elem_of_update_all in Hx0 as [?|(p & Hpp & Hxp)]; [by left|].
        right. exists s, t, paths, p. split_and!; [left|done..].
      * right. exists s', t', ps, p. split_and!; [by right|done..].
Qed.

(** *** The pairs *)

Lemma combinations2_elems (l : list node) (a c : node) :
  (a, c) ∈ combinations2 l → a ∈ l ∧ c ∈ l.
Proof.
  induction l as [|x l IH]; simpl; [intros H; by apply elem_of_nil in H|].
  rewrite elem_of_app. intros [H|H].
  - apply list_elem_of_In, in_map_iff in H as (y & [= <- <-] & Hy).
    apply list_elem_of_In in Hy. split; [left|by right].
  - destruct (IH H). split; by right.
Qed.

Lemma combinations2_head (x : node) (l : list node) (c : node) :
  c ∈ l → (x, c) ∈ combinations2 (x :: l).
Proof.
  intros Hc. simpl. apply elem_of_app. left.
  apply list_elem_of_In, in_map_iff. exists c. split; [done|by apply list_elem_of_In].
Qed.

Lemma combinations2_total (l : list node) (a c : node) :
  a ∈ l → c ∈ l → a = c ∨ (a, c) ∈ combinations2 l ∨ (c, a) ∈ combinations2 l.
Proof.
  induction l as [|x l IH]; [intros H; by apply elem_of_nil in H|].
  intros Ha Hc. apply elem_of_cons in Ha as [->|Ha]; apply elem_of_cons in Hc as [->|Hc].
  - by left.
  - right. left. by apply combinations2_head.
  - right. right. by apply combinations2_head.
  - destruct (IH Ha Hc) as [?|[?|?]]; [by left|right; left|right; right];
      simpl; apply elem_of_app; by right.
Qed.

Lemma combinations2_covers (l : list node) (v : node) :
  2 ≤ length l → v ∈ l → ∃ u, (v, u) ∈ combinations2 l ∨ (u, v) ∈ combinations2 l.
Proof.
  intros Hlen Hv. destruct l as [|x [|y l]]; [simpl in Hlen; lia..|].
  apply elem_of_cons in Hv as [->|Hv].
  - exists y. left. apply combinations2_head. left.
  - exists x. right. by apply combinations2_head.
Qed.

Lemma rtc_adjacent_sym (g : Graph) (u v : node) :
  (∀ x y, nx.has_edge g x y = nx.has_edge g y x) →
  rtc (adjacent g) u v → rtc (adjacent g) v u.
Proof.
  intros Hsym Huv. induction Huv as [|x y z Hxy _ IH]; [done|].
  eapply rtc_r; [exact IH|]. unfold adjacent. by rewrite Hsym.
Qed.

Lemma head_elem (p : list node) (x : node) : head p = Some x → x ∈ p.
Proof. destruct p; [done|]. intros [= ->]. left. Qed.

Lemma last_elem (p : list node) (x : node) : last p = Some x → x ∈ p.
Proof.
  intros Hl. destruct (last_Some p x) as [[q ->] _]; [done|].
  apply elem_of_app. right. left.
Qed.

(** For two vertices or more, and a graph whose adjacency is symmetric
    (as every graph that [Network.__init__] builds is), the docstring of
    [get_connected_subgraph] holds whenever the function returns: the graph
    returned has every vertex asked for, it is connected, and its edges are
    edges of the graph given. *)
Theorem connected_subgraph_of_two (g : Graph) (v_prime : list node) (g' : Graph) :
  well_formed g → 2 ≤ length v_prime →
  get_connected_subgraph g v_prime = Ok g' →
  (∀ v, v ∈ v_prime → nx.has_node g' v = true) ∧
  connected g' ∧
  (∀ u v, adjacent g' u v → adjacent g u v).
Proof.
  intros Hwf Hlen. unfold get_connected_subgraph.
  destruct (connecting_nodes g (combinations2 v_prime) []) as [vpp| |] eqn:Hrun;
    simpl; [|done..].
  intros [= <-]. destruct (connecting_nodes_spec _ _ _ _ Hrun) as (_ & Hpairs & Hout).
  (* a path between a pair lies in the subgraph *)
  assert (Hpath : ∀ s t, (s, t) ∈ combinations2 v_prime →
            ∃ p, head p = Some s ∧ last p = Some t ∧ chain (nx.subgraph g vpp) p ∧
                 (∀ x, x ∈ p → x ∈ vpp ∧ nx.has_node g x = true)).
  { intros s t Hst. destruct (Hpairs s t Hst) as (paths & Hps & Hin).
    destruct (all_shortest_paths_spec _ _ _ _ Hps) as (Hs & Hne & Hall).
    destruct paths as [|p paths]; [done|]. exists p.
    destruct (Hall p) as (Hh & Hl & Hc); [left|].
    assert (Hp : ∀ x, x ∈ p → x ∈ vpp) by (intros x Hx; apply (Hin p); [left|done]).
    split_and!; [done..|by apply chain_subgraph|].
    intros x Hx. split; [by apply Hp|].
    destruct p as [|a p]; [done|]. injection Hh as ->.
    by apply (chain_nodes g p Hwf s). }
  assert (Hsym : ∀ x y, nx.has_edge (nx.subgraph g vpp) x y =
                        nx.has_edge (nx.subgraph g vpp) y x).
  { intros x y. rewrite !has_edge_subgraph, (wf_sym _ Hwf x y).
    by destruct (bool_decide (x ∈ vpp)), (bool_decide (y ∈ vpp)). }
  assert (Hreach : ∀ s t, (s, t) ∈ combinations2 v_prime →
            ∀ p, head p = Some s → chain (nx.subgraph g vpp) p →
                 ∀ x, x ∈ p → rtc (adjacent (nx.subgraph g vpp)) s x).
  { intros s t _ p Hh Hc x Hx. destruct p as [|a p]; [done|]. injection Hh as ->.
    by apply (chain_reach _ p). }
  assert (Hends : ∀ s t, (s, t) ∈ combinations2 v_prime →
            rtc (adjacent (nx.subgraph g vpp)) s t ∧
            s ∈ vpp ∧ t ∈ vpp ∧ nx.has_node g s = true ∧ nx.has_node g t = true).
  { intros s t Hst. destruct (Hpath s t Hst) as (p & Hh & Hl & Hc & Hp).
    pose proof (head_elem _ _ Hh) as Hs. pose proof (last_elem _ _ Hl) as Ht.
    split_and!; try (by apply Hp). by apply (Hreach s t Hst p). }
  split_and!.
  - intros v Hv. rewrite has_node_subgraph.
    destruct (combinations2_covers _ _ Hlen Hv) as [u [Hvu|Huv]].
    + destruct (Hends _ _ Hvu) as (_ & Hin & _ & Hn & _).
      by rewrite (bool_decide_eq_true_2 _ Hin), Hn.
    + destruct (Hends _ _ Huv) as (_ & _ & Hin & _ & Hn).
      by rewrite (bool_decide_eq_true_2 _ Hin), Hn.
  - (* every node of the subgraph is joined to the source of its pair *)
    assert (Hto : ∀ x, nx.has_node (nx.subgraph g vpp) x = true →
              ∃ a, a ∈ v_prime ∧ rtc (adjacent (nx.subgraph g vpp)) a x).
    { intros x Hx. rewrite has_node_subgraph in Hx. apply andb_true_iff in Hx as [Hx _].
      apply bool_decide_eq_true in Hx.
      destruct (Hout x Hx) as [Hx0|(s & t & paths & p & Hst & Hps & Hpp & Hxp)];
        [by apply elem_of_nil in Hx0|].
      exists s. split; [by apply (combinations2_elems _ _ _ Hst)|].
      destruct (Hpairs s t Hst) as (paths' & Hps' & Hin).
      rewrite Hps in Hps'. injection Hps' as <-.
      destruct (all_shortest_paths_spec _ _ _ _ Hps) as (_ & _ & Hall).
      destruct (Hall p Hpp) as (Hh & _ & Hc).
      apply (Hreach s t Hst p); [done| |done].
      apply chain_subgraph; [done|]. intros y Hy. by apply (Hin p). }
    intros u v Hu Hv.
    destruct (Hto u Hu) as (a & Ha & Hau). destruct (Hto v Hv) as (c & Hc & Hcv).
    transitivity a; [by apply rtc_adjacent_sym|]. transitivity c; [|done].
    destruct (combinations2_total _ _ _ Ha Hc) as [->|[Hac|Hca]]; [done|..].
    + by destruct (Hends _ _ Hac).
    + apply rtc_adjacent_sym; [done|]. by destruct (Hends _ _ Hca).
  - intros u v. unfold adjacent. rewrite has_edge_subgraph.
    intros H. by apply andb_true_iff in H as [_ H].
Qed.

Lemma connecting_nodes_returns (g : Graph) (pairs : list (node * node)) :
  ∀ vpp, connecting_nodes g pairs vpp ≠ OutOfFuel.
Proof.
  induction pairs as [|[s t] pairs IH]; intros vpp; simpl; [done|].
  unfold nx.all_shortest_paths. destruct (nx.has_node g s); simpl; [|done].
  destruct (nx.shortest_from _ _ _ _ _); simpl; [apply IH|done].
Qed.

Lemma pair_ends_nodes (g : Graph) (pairs : list (node * node)) (vpp0 vpp : list node) :
  well_formed g → connecting_nodes g pairs vpp0 = Ok vpp →
  ∀ s t, (s, t) ∈ pairs → nx.has_node g s = true ∧ nx.has_node g t = true.
Proof.
  intros Hwf Hrun s t Hst.
  destruct (connecting_nodes_spec _ _ _ _ Hrun) as (_ & Hpairs & _).
  destruct (Hpairs s t Hst) as (paths & Hps & _).
  destruct (all_shortest_paths_spec _ _ _ _ Hps) as (Hs & Hne & Hall).
  split; [done|]. destruct paths as [|p paths]; [done|].
  destruct (Hall p) as (Hh & Hl & Hc); [left|].
  destruct p as [|a p]; [done|]. injection Hh as ->.
  apply (chain_nodes g p Hwf s); [done..|]. by apply last_elem.
Qed.

(** Asking for a vertex that the graph does not have, among two vertices
    or more, raises. *)
Theorem missing_vertex_raises (g : Graph) (v_prime : list node) (v : node) :
  well_formed g → 2 ≤ length v_prime → v ∈ v_prime → nx.has_node g v = false →
  ∃ e, get_connected_subgraph g v_prime = Raise e.
Proof.
  intros Hwf Hlen Hv Hnode. unfold get_connected_subgraph.
  destruct (connecting_nodes g (combinations2 v_prime) []) as [vpp|e|] eqn:Hrun; simpl.
  - destruct (combinations2_covers _ _ Hlen Hv) as [u [Hvu|Huv]].
    + destruct (pair_ends_nodes _ _ _ _ Hwf Hrun _ _ Hvu). congruence.
    + destruct (pair_ends_nodes _ _ _ _ Hwf Hrun _ _ Huv). congruence.
  - by exists e.
  - by destruct (connecting_nodes_returns g (combinations2 v_prime) []).
Qed.

End ConnectedSubgraph.

Lemma two_lines_graph_well_formed : well_formed two_lines_graph.
Proof.
  split.
  - reflexivity.
  - by_decision.
  - intros u v. unfold nx.has_edge, nx.adj, dget_default, dmem, two_lines_graph; simpl.
    repeat (case_decide; subst; simpl); try done; by_decision.
Qed.

Lemma connected_subgraph_of_two_witness :
  (∀ v, v ∈ ["n1"; "n3"] → nx.has_node two_lines_graph v = true) ∧
  connected two_lines_graph ∧
  (∀ u v, adjacent two_lines_graph u v → adjacent two_lines_graph u v).
Proof.
  apply (connected_subgraph_of_two two_lines_graph ["n1"; "n3"] two_lines_graph).
  - exact two_lines_graph_well_formed.
  - simpl. lia.
  - vm_compute. reflexivity.
Defined.

Lemma missing_vertex_raises_witness :
  ∃ e, get_connected_subgraph two_lines_graph ["n1"; "n9"] = Raise e.
Proof.
  apply (missing_vertex_raises two_lines_graph ["n1"; "n9"] "n9").
  - exact two_lines_graph_well_formed.
  - simpl. lia.
  - right. left.
  - reflexivity.
Defined.

(** ** Route graphs from connections ([Network.route_graph_from_connections]) *)

(** An item of [connections]: the id of a node, or a dictionary, by its
    ['node'] and ['terminals'] entries. *)
Inductive connection : Type :=
| ConnNode (n : node)
| ConnDict (conn_node : option node) (conn_terminals : option (list node)).

(** The loop that fills [end_nodes] and [terminals]. *)
Fixpoint read_connections (connections : list connection) (end_nodes : list node)
    (terminals : dict node (list node)) : result (list node * dict node (list node)) :=
  match connections with
  | [] => Ok (end_nodes, terminals)
  | ConnNode n :: rest => read_connections rest (end_nodes ++ [n]) terminals
  | ConnDict None _ :: _ => Raise (KeyError "node")
  | ConnDict (Some end_node) ts :: rest =>
      read_connections rest (end_nodes ++ [end_node])
        (dset end_node (default [] ts) terminals)
  end.

(** What [nx.Graph(data)] does with a graph [data], on the new graph [r]:
    the nodes of [data], then its edges with a copy of their attributes,
    then the attributes of its nodes. *)
Definition to_networkx_graph (data : Graph) (r : gref) : M unit :=
  forM (dkeys (g_adj data)) (nx.ensure_node r) ;;;
  forM (g_adj data) (fun e =>
    forM e.2 (fun nbr => dd <~ load nbr.2 ;; nx.add_edge r e.1 nbr.1 dd)) ;;;
  forM (g_node data) (fun n =>
    dd <~ load n.2 ;;
    result <~ get_graph r ;;
    l <~ nx.node_dict result n.1 ;;
    d <~ load l ;;
    store l (dupdate d dd)).

(** [nx.Graph(data)]. *)
Definition Graph_from (data : Graph) : M gref :=
  r <~ new_graph ;;
  to_networkx_graph data r ;;;
  mret r.

Section RouteGraph.
Variable MIN_EDGE_JOIN_RADIUS : float.

(** One turn of [for terminal_id in terminal_nodes]. *)
Definition add_terminal (self : Network) (route_graph : gref) (end_node terminal_id : node)
  : M unit :=
  nx.add_edge route_graph end_node terminal_id [] ;;;
  g <~ get_graph route_graph ;;
  node <~ nx.node_dict g terminal_id ;;
  set_node_properties_from_feature MIN_EDGE_JOIN_RADIUS self node terminal_id ;;;
  g <~ get_graph route_graph ;;
  edge <~ nx.edge_dict g end_node terminal_id ;;
  set_item edge "type" (VStr "terminal").

(** The route graph once it is made: the edges to the terminal nodes. *)
Definition add_terminals (self : Network) (terminals : dict node (list node))
    (route_graph : gref) : M gref :=
  forM terminals (fun t => forM t.2 (add_terminal self route_graph t.1)) ;;;
  mret route_graph.

(** [Network.route_graph_from_connections(connections)]. *)
Definition route_graph_from_connections (self : Network) (connections : list connection)
  : M gref :=
  read <~ lift (read_connections connections [] []) ;;
  g <~ get_graph (centreline_graph self) ;;
  view <~ lift (get_connected_subgraph g read.1) ;;
  route_graph <~ Graph_from view ;;
  add_terminals self read.2 route_graph.

(** *** The base is left alone

    [G0] and [H0] are the graphs and the dictionaries there are when the
    method is called, and [r] is the route graph. *)
Section Frame.
Variable G0 : list Graph.
Variable H0 : list attrs.
Variable r : gref.

(** Every dictionary of [g] is a new one. *)
Definition fresh (g : Graph) : Prop :=
  (∀ n l, dget n (g_node g) = Some l → length H0 ≤ l) ∧
  (∀ u v l, nx.edge_loc g u v = Some l → length H0 ≤ l).

(** The graphs and the dictionaries of the base are what they were. *)
Definition frame (w : world) : Prop :=
  take (length G0) (graphs w) = G0 ∧ take (length H0) (heap w) = H0.

Definition route_inv (w : world) : Prop :=
  frame w ∧ length G0 ≤ r ∧ ∃ g, graphs w !! r = Some g ∧ fresh g.

(** [m] keeps the base and the freshness of the route graph, and what it
    returns satisfies [Q]. *)
Definition keeps {A} (m : M A) (Q : A → Prop) : Prop :=
  ∀ w, route_inv w → frame (m w).2 ∧ ∀ a, (m w).1 = Ok a → route_inv (m w).2 ∧ Q a.

Lemma frame_heap_le (w : world) : frame w → length H0 ≤ length (heap w).
Proof.
  intros [_ Hh]. apply (f_equal length) in Hh. rewrite length_take in Hh. lia.
Qed.

Lemma keeps_ret {A} (a : A) (Q : A → Prop) : Q a → keeps (mret a) Q.
Proof. intros Hq w Hw. split; [apply Hw|]. by intros ? [= <-]. Qed.

Lemma keeps_raise {A} (e : exn) (Q : A → Prop) : keeps (mraise e) Q.
Proof. intros w Hw. split; [apply Hw|done]. Qed.

Lemma keeps_lift {A} (res : result A) (Q : A → Prop) :
  (∀ a, res = Ok a → Q a) → keeps (lift res) Q.
Proof. intros Hq w Hw. split; [apply Hw|]. intros a Ha. split; [done|by apply Hq]. Qed.

Lemma keeps_bind {A B} (m : M A) (k : A → M B) (Q : A → Prop) (Q' : B → Prop) :
  keeps m Q → (∀ a, Q a → keeps (k a) Q') → keeps (mbind m k) Q'.
Proof.
  intros Hm Hk w Hw. unfold mbind. destruct (Hm w Hw) as [Hf Hok].
  destruct (m w) as [[a| |] w1]; simpl in *; [|done..].
  destruct (Hok a eq_refl) as [Hi Hq]. exact (Hk a Hq w1 Hi).
Qed.

Lemma keeps_weaken {A} (m : M A) (Q Q' : A → Prop) :
  keeps m Q → (∀ a, Q a → Q' a) → keeps m Q'.
Proof.
  intros Hm Hq w Hw. destruct (Hm w Hw) as [Hf Hok]. split; [done|].
  intros a Ha. destruct (Hok a Ha). auto.
Qed.

Lemma keeps_forM {A} (l : list A) (f : A → M unit) :
  (∀ a, keeps (f a) (fun _ => True)) → keeps (forM l f) (fun _ => True).
Proof.
  intros Hf. induction l as [|a l IH]; simpl; [by apply keeps_ret|].
  eapply keeps_bind; [apply Hf|by intros _ _].
Qed.

Lemma keeps_log_warning (msg : string) : keeps (log_warning msg) (fun _ => True).
Proof. intros w Hw. split; [apply Hw|]. by intros ? [= <-]. Qed.

Lemma keeps_load (l : loc) : keeps (load l) (fun _ => True).
Proof. intros w Hw. split; [apply Hw|]. by intros ? _. Qed.

Lemma keeps_store (l : loc) (d : attrs) :
  length H0 ≤ l → keeps (store l d) (fun _ => True).
Proof.
  intros Hl w (Hf & Hr & Hg).
  assert (Hf' : frame (store l d w).2).
  { destruct Hf as [H1 H2]. split; [done|]. simpl. by rewrite take_insert_ge. }
  split; [done|]. by intros ? _.
Qed.

Lemma keeps_alloc (d : attrs) : keeps (alloc d) (fun l => length H0 ≤ l).
Proof.
  intros w (Hf & Hr & Hg). pose proof (frame_heap_le w Hf) as Hle.
  assert (Hf' : frame (alloc d w).2).
  { destruct Hf as [H1 H2]. split; [done|]. simpl. by rewrite take_app_le. }
  split; [done|]. by intros ? [= <-].
Qed.

Lemma keeps_get_graph : keeps (get_graph r) fresh.
Proof.
  intros w Hw. split; [apply Hw|]. intros g [= <-]. split; [done|].
  destruct Hw as (_ & _ & g & -> & Hg). done.
Qed.

Lemma keeps_put_graph (g : Graph) : fresh g → keeps (put_graph r g) (fun _ => True).
Proof.
  intros Hfresh w (Hf & Hr & g1 & Hg1 & _).
  assert (Hf' : frame (put_graph r g w).2).
  { destruct Hf as [H1 H2]. split; [|done]. simpl. by rewrite take_insert_ge. }
  split; [done|]. intros ? _. split; [|done]. split_and!; [done..|].
  exists g. split; [|done]. simpl. apply list_lookup_insert_eq. by eapply lookup_lt_Some.
Qed.

Lemma fresh_empty : fresh empty_graph.
Proof. by split. Qed.

Lemma fresh_grow_new (g : Graph) (n : node) (l : loc) :
  fresh g → length H0 ≤ l → fresh (mkGraph (dset n l (g_node g)) (dset n [] (g_adj g))).
Proof.
  intros [Hn He] Hl. split.
  - intros n' l'. cbn [g_node]. rewrite dget_dset.
    destruct (decide (n = n')); [by intros [= <-]|apply Hn].
  - intros u v l'. unfold nx.edge_loc. rewrite adj_dset.
    destruct (decide (n = u)); [done|apply He].
Qed.

Lemma fresh_link (g : Graph) (u v : node) (l : loc) :
  fresh g → length H0 ≤ l → fresh (nx.link g u v l).
Proof.
  intros [Hn He] Hl. split; [exact Hn|].
  intros x y l'. unfold nx.edge_loc. rewrite adj_link.
  destruct (decide (x = u)) as [->|Hxu]; [|destruct (decide (x = v)) as [->|Hxv]].
  - rewrite dget_dset. destruct (decide (v = y)); [by intros [= <-]|apply He].
  - rewrite dget_dset. destruct (decide (u = y)); [by intros [= <-]|apply He].
  - apply He.
Qed.

Lemma keeps_ensure_node (n : node) : keeps (nx.ensure_node r n) (fun _ => True).
Proof.
  unfold nx.ensure_node. eapply keeps_bind; [apply keeps_get_graph|]. intros g Hg.
  destruct (nx.has_node g n); [by apply keeps_ret|].
  eapply keeps_bind; [apply keeps_alloc|]. intros l Hl.
  by apply keeps_put_graph, fresh_grow_new.
Qed.

Lemma keeps_add_edge (u v : node) (attr : attrs) :
  keeps (nx.add_edge r u v attr) (fun _ => True).
Proof.
  unfold nx.add_edge.
  eapply keeps_bind; [apply keeps_ensure_node|intros _ _].
  eapply keeps_bind; [apply keeps_ensure_node|intros _ _].
  eapply keeps_bind; [apply keeps_get_graph|intros g Hg].
  eapply (keeps_bind _ _ (fun l => length H0 ≤ l)).
  { destruct (nx.edge_loc g u v) as [l|] eqn:He; [|apply keeps_alloc].
    apply keeps_ret. by apply (proj2 Hg u v). }
  intros datadict Hl.
  eapply keeps_bind; [apply keeps_load|intros d _].
  eapply keeps_bind; [by apply keeps_store|intros _ _].
  by apply keeps_put_graph, fresh_link.
Qed.

Lemma keeps_node_dict (g : Graph) (n : node) :
  fresh g → keeps (nx.node_dict g n) (fun l => length H0 ≤ l).
Proof.
  intros Hg. unfold nx.node_dict. destruct (dget n (g_node g)) as [l|] eqn:Hn.
  - apply keeps_ret. by apply (proj1 Hg n).
  - apply keeps_raise.
Qed.

Lemma keeps_edge_dict (g : Graph) (u v : node) :
  fresh g → keeps (nx.edge_dict g u v) (fun l => length H0 ≤ l).
Proof.
  intros Hg. unfold nx.edge_dict. destruct (nx.edge_loc g u v) as [l|] eqn:He.
  - apply keeps_ret. by apply (proj2 Hg u v).
  - apply keeps_raise.
Qed.

Lemma keeps_set_item (l : loc) (key : string) (v : value) :
  length H0 ≤ l → keeps (set_item l key v) (fun _ => True).
Proof.
  intros Hl. unfold set_item. eapply keeps_bind; [apply keeps_load|intros d _].
  by apply keeps_store.
Qed.

Lemma keeps_find_feature (feature_map : FeatureMap) (id : string) :
  keeps (find_feature feature_map id) (fun _ => True).
Proof.
  unfold find_feature. destruct (features feature_map id) as [|f [|f' fs]].
  - eapply keeps_bind; [apply keeps_log_warning|intros _ _; by apply keeps_ret].
  - by apply keeps_ret.
  - eapply keeps_bind; [apply keeps_log_warning|intros _ _; by apply keeps_ret].
Qed.

Lemma keeps_set_node_properties (self : Network) (node_dict : loc) (feature_id : string) :
  length H0 ≤ node_dict →
  keeps (set_node_properties_from_feature MIN_EDGE_JOIN_RADIUS self node_dict feature_id)
        (fun _ => True).
Proof.
  intros Hl. unfold set_node_properties_from_feature.
  destruct (net_feature_map self) as [feature_map|]; [|apply keeps_raise].
  eapply keeps_bind; [apply keeps_find_feature|intros [feature|] _]; [|by apply keeps_ret].
  eapply keeps_bind; [apply keeps_load|intros d _].
  eapply (keeps_bind _ _ (fun _ => True)).
  { destruct (dmem "geometry" d); [by apply keeps_ret|by apply keeps_store]. }
  intros _ _. eapply (keeps_bind _ _ (fun _ => True)).
  { unfold get_item. eapply keeps_bind; [apply keeps_load|intros d' _].
    by apply keeps_ret. }
  intros [[]|] _; try apply keeps_raise; try apply keeps_log_warning.
  eapply keeps_bind; [by apply keeps_set_item|intros _ _]. by apply keeps_set_item.
Qed.

Lemma keeps_to_networkx_graph (data : Graph) :
  keeps (to_networkx_graph data r) (fun _ => True).
Proof.
  unfold to_networkx_graph.
  eapply keeps_bind; [apply keeps_forM; intros n; apply keeps_ensure_node|intros _ _].
  eapply keeps_bind.
  { apply keeps_forM. intros e. apply keeps_forM. intros nbr.
    eapply keeps_bind; [apply keeps_load|intros dd _]. apply keeps_add_edge. }
  intros _ _. apply keeps_forM. intros n.
  eapply keeps_bind; [apply keeps_load|intros dd _].
  eapply keeps_bind; [apply keeps_get_graph|intros g Hg].
  eapply keeps_bind; [by apply keeps_node_dict|intros l Hl].
  eapply keeps_bind; [apply keeps_load|intros d _].
  by apply keeps_store.
Qed.

Lemma keeps_add_terminal (self : Network) (end_node terminal_id : node) :
  keeps (add_terminal self r end_node terminal_id) (fun _ => True).
Proof.
  unfold add_terminal.
  eapply keeps_bind; [apply keeps_add_edge|intros _ _].
  eapply keeps_bind; [apply keeps_get_graph|intros g Hg].
  eapply keeps_bind; [by apply keeps_node_dict|intros l Hl].
  eapply keeps_bind; [by apply keeps_set_node_properties|intros _ _].
  eapply keeps_bind; [apply keeps_get_graph|intros g' Hg'].
  eapply keeps_bind; [by apply keeps_edge_dict|intros l' Hl'].
  by apply keeps_set_item.
Qed.

Lemma keeps_add_terminals (self : Network) (terminals : dict node (list node)) :
  keeps (add_terminals self terminals r) (fun route_graph => route_graph = r).
Proof.
  unfold add_terminals. eapply keeps_bind; [|intros _ _; by apply keeps_ret].
  apply keeps_forM. intros t. apply keeps_forM. intros terminal_id.
  apply keeps_add_terminal.
Qed.

End Frame.

(** A call of [route_graph_from_connections] leaves the base alone, whether
    it returns or raises: the graphs and the dictionaries that were there
    are as they were.  The route graph it returns is a new graph, and
    every dictionary of its nodes and of its edges is a new one: writing
    to the route graph afterwards writes to none of the base. *)
Theorem route_graph_is_fresh (self : Network) (connections : list connection) (w : world) :
  take (length (graphs w)) (graphs (route_graph_from_connections self connections w).2) =
    graphs w ∧
  take (length (heap w)) (heap (route_graph_from_connections self connections w).2) =
    heap w ∧
  ∀ route_graph, (route_graph_from_connections self connections w).1 = Ok route_graph →
    route_graph = length (graphs w) ∧
    ∃ g, graphs (route_graph_from_connections self connections w).2 !! route_graph = Some g ∧
         (∀ n l, dget n (g_node g) = Some l → length (heap w) ≤ l) ∧
         (∀ u v l, nx.edge_loc g u v = Some l → length (heap w) ≤ l).
Proof.
  assert (Hsame : take (length (graphs w)) (graphs w) = graphs w ∧
                  take (length (heap w)) (heap w) = heap w).
  { by rewrite !firstn_all. }
  destruct Hsame as [Hgs Hhs].
  remember (route_graph_from_connections self connections w) as run eqn:Hrun.
  unfold route_graph_from_connections in Hrun.
  unfold mbind at 1, lift at 1 in Hrun.
  destruct (read_connections connections [] []) as [read| |]; [|by subst run..].
  unfold mbind at 1, get_graph at 1 in Hrun.
  unfold mbind at 1, lift at 1 in Hrun.
  destruct (get_connected_subgraph _ _) as [view| |]; [|by subst run..].
  unfold Graph_from in Hrun. unfold mbind at 1 in Hrun. unfold mbind at 1 in Hrun.
  unfold new_graph at 1 in Hrun.
  set (r := length (graphs w)) in *.
  set (w1 := mkWorld (graphs w ++ [empty_graph]) (heap w) (log w)) in *.
  assert (Hinv : route_inv (graphs w) (heap w) r w1).
  { split_and!.
    - split; simpl; [apply take_app_length|apply firstn_all].
    - done.
    - exists empty_graph. split; [|apply fresh_empty].
      unfold w1, r. simpl. by rewrite lookup_app_r, Nat.sub_diag. }
  assert (Hk : keeps (graphs w) (heap w) r
                 (to_networkx_graph view r ;;; mret r) (fun route_graph => route_graph = r)).
  { eapply keeps_bind; [apply keeps_to_networkx_graph|intros _ _; by apply keeps_ret]. }
  destruct (Hk w1 Hinv) as [Hf Hok].
  destruct ((to_networkx_graph view r ;;; mret r) w1) as [[route_graph| |] w2];
    simpl in Hf, Hok; [|subst run; by destruct Hf..].
  destruct (Hok route_graph eq_refl) as [Hinv2 ->].
  destruct (keeps_add_terminals (graphs w) (heap w) r self read.2 w2 Hinv2) as [Hf3 Hok3].
  subst run. destruct Hf3 as [Hg3 Hh3]. split_and!; [done..|].
  intros route_graph Hrun. destruct (Hok3 route_graph Hrun) as [(_ & _ & g & Hg & Hfresh) ->].
  split; [done|]. exists g. split; [done|]. exact Hfresh.
Qed.

End RouteGraph.

(** ** The most-used centreline of a feature
    ([Network.route_graph_from_connectivity], lines 461 to 468) *)

(** The loop [for centreline_id in self.__contained_centrelines[feature_id]],
    from the values that [max_centreline] and [max_score] have. *)
Fixpoint most_used {F} `{Num F} (centreline_score : dict string F) (ids : list string)
    (max_centreline : option string) (max_score : F) : result (option string * F) :=
  match ids with
  | [] => Ok (max_centreline, max_score)
  | centreline_id :: rest =>
      match dget centreline_id centreline_score with
      | None => Raise (KeyError centreline_id)
      | Some score =>
          if ngtb score max_score
          then most_used centreline_score rest (Some centreline_id) score
          else most_used centreline_score rest max_centreline max_score
      end
  end.

Section MostUsed.
Context {F : Type} `{Num F}.
Variable centreline_score : dict string F.

(** What the two variables say of the centrelines looked at so far. *)
Definition best_so_far (looked_at : list string) (max_centreline : option string)
    (max_score : F) : Prop :=
  match max_centreline with
  | None =>
      max_score = num_zero ∧
      ∀ id, id ∈ looked_at →
        ∃ s, dget id centreline_score = Some s ∧ ngtb s num_zero = false
  | Some c =>
      ∃ before after,
        looked_at = before ++ c :: after ∧
        dget c centreline_score = Some max_score ∧ ngtb max_score num_zero = true ∧
        (∀ id, id ∈ before →
           ∃ s, dget id centreline_score = Some s ∧ ngtb max_score s = true) ∧
        (∀ id, id ∈ after →
           ∃ s, dget id centreline_score = Some s ∧ ngtb s max_score = false)
  end.

Hypothesis nltb_trans : ∀ a b c : F, nltb a b = true → nltb b c = true → nltb a c = true.
Hypothesis nltb_negtrans :
  ∀ a b c : F, nltb a b = false → nltb b c = false → nltb a c = false.

Lemma above_the_rest (a b c : F) : nltb a b = false → nltb a c = true → nltb b c = true.
Proof using nltb_negtrans.
  intros Hab Hac. destruct (nltb b c) eqn:Hbc; [done|].
  by rewrite (nltb_negtrans a b c Hab Hbc) in Hac.
Qed.

Lemma most_used_step (ids : list string) :
  ∀ looked_at max_centreline max_score r,
    best_so_far looked_at max_centreline max_score →
    most_used centreline_score ids max_centreline max_score = Ok r →
    best_so_far (looked_at ++ ids) r.1 r.2.
Proof using nltb_trans nltb_negtrans.
  induction ids as [|id ids IH]; intros looked_at max_centreline max_score r Hbest; simpl.
  - intros [= <-]. by rewrite app_nil_r.
  - destruct (dget id centreline_score) as [score|] eqn:Hscore; [|done].
    replace (looked_at ++ id :: ids) with ((looked_at ++ [id]) ++ ids)
      by (by rewrite <- app_assoc).
    unfold ngtb. destruct (nltb max_score score) eqn:Hgt; apply IH.
    + (* a new best *)
      destruct max_centreline as [c|]; simpl in Hbest.
      * destruct Hbest as (before & after & -> & Hc & Hpos & Hbefore & Hafter).
        exists (before ++ c :: after), []. split_and!; [done|done|..].
        -- unfold ngtb in *. by apply (nltb_trans _ max_score).
        -- intros x Hx. apply elem_of_app in Hx as [Hx|Hx].
           ++ destruct (Hbefore x Hx) as (s & Hs & Hlt). exists s. split; [done|].
              unfold ngtb in *. by apply (nltb_trans _ max_score).
           ++ apply elem_of_cons in Hx as [->|Hx].
              ** exists max_score. by split.
              ** destruct (Hafter x Hx) as (s & Hs & Hlt). exists s. split; [done|].
                 unfold ngtb in *. by apply (above_the_rest max_score).
        -- intros x Hx. by apply elem_of_nil in Hx.
      * destruct Hbest as [-> Hnone].
        exists looked_at, []. split_and!; [done|done|done|..].
        -- intros x Hx. destruct (Hnone x Hx) as (s & Hs & Hlt). exists s. split; [done|].
           unfold ngtb in *. by apply (above_the_rest num_zero).
        -- intros x Hx. by apply elem_of_nil in Hx.
    + (* the best is kept *)
      destruct max_centreline as [c|]; simpl in Hbest.
      * destruct Hbest as (before & after & -> & Hc & Hpos & Hbefore & Hafter).
        exists before, (after ++ [id]). split_and!; [by rewrite <- app_assoc|done..|].
        intros x Hx. apply elem_of_app in Hx as [Hx|Hx]; [by apply Hafter|].
        apply list_elem_of_singleton in Hx as ->. exists score. by split.
      * destruct Hbest as [-> Hnone]. split; [done|].
        intros x Hx. apply elem_of_app in Hx as [Hx|Hx]; [by apply Hnone|].
        apply list_elem_of_singleton in Hx as ->. exists score. by split.
Qed.

(** The centreline chosen for a feature is the first of those with the
    greatest score, when that score is above 0: every centreline before it
    has a smaller score, and none after it has a greater one.  No
    centreline is chosen when no score is above 0.  The order on the scores
    is taken to be a strict weak order, as that of floating-point numbers
    is when none is a NaN. *)
Theorem most_used_is_first_best (ids : list string) (r : option string * F) :
  most_used centreline_score ids None num_zero = Ok r →
  best_so_far ids r.1 r.2.
Proof using nltb_trans nltb_negtrans.
  intros Hrun. apply (most_used_step ids [] None num_zero r); [|done].
  split; [done|]. intros id Hid. by apply elem_of_nil in Hid.
Qed.

End MostUsed.

Lemma Q_nltb_trans (a b c : Q) : nltb a b = true → nltb b c = true → nltb a c = true.
Proof. rewrite !Q_nltb_true. apply Qlt_trans. Qed.

Lemma Q_nltb_negtrans (a b c : Q) :
  nltb a b = false → nltb b c = false → nltb a c = false.
Proof. rewrite !Q_nltb_false. intros Hba Hcb. by apply (Qle_trans _ b). Qed.

Lemma most_used_is_first_best_witness :
  best_so_far [("X", 1 # 3); ("Y", 1); ("Z", 1)]%Q ["X"; "Y"; "Z"] (Some "Y") 1%Q.
Proof.
  apply (most_used_is_first_best [("X", 1 # 3); ("Y", 1); ("Z", 1)]%Q
           Q_nltb_trans Q_nltb_negtrans ["X"; "Y"; "Z"] (Some "Y", 1%Q)).
  reflexivity.
Defined.

(** ** Resolving the nodes of a path ([FeatureMap], [ResolvedPathways]) *)

Module ResolvedPathways.

(** A feature of the map: the object, by a reference, and its
    [feature_id]. *)
Record Feature : Type := mkFeature { feature_ref : nat; feature_id : string }.

Record FeatureMap : Type := mkFeatureMap {
  id_map : dict string (option Feature);
  class_map : dict string (list Feature)
}.

(** [FeatureMap.features(id)]. *)
Definition features (self : FeatureMap) (id : string) : list Feature :=
  match dget id (id_map self) with
  | Some (Some feature) => [feature]
  | _ => dget_default id [] (class_map self)
  end.

(** [FeatureMap.feature_ids(ids)]. *)
Definition feature_ids (self : FeatureMap) (ids : list string) : list string :=
  fold_left (fun feature_ids id => feature_ids ++ map feature_id (features self id)) ids [].

(** What [__resolve_nodes_for_path] reads and writes: the properties of
    the features, [self.__node_paths], and the log. *)
Record state : Type := mkState {
  properties : dict nat (dict string string);
  node_paths : dict string (list string);
  warnings : list string
}.

(** One turn of [for feature in self.__feature_map.features(id)]. *)
Definition resolve_feature (path_id : string) (acc : state * list string)
    (feature : Feature) : state * list string :=
  let node_id := feature_id feature in
  (mkState
     (dset (feature_ref feature)
           (dset "nodeId" node_id (dget_default (feature_ref feature) [] (properties acc.1)))
           (properties acc.1))
     (dset node_id (dget_default node_id [] (node_paths acc.1) ++ [path_id])
           (node_paths acc.1))
     (warnings acc.1),
   acc.2 ++ [node_id]).

Definition no_feature (id : string) : string := "Cannot find feature for node: " +:+ id.

(** One turn of [for id in nodes]. *)
Definition resolve_node (self : FeatureMap) (path_id : string) (acc : state * list string)
    (id : string) : state * list string :=
  let acc' := fold_left (resolve_feature path_id) (features self id) acc in
  if decide (length (features self id) = 0)
  then (mkState (properties acc'.1) (node_paths acc'.1) (warnings acc'.1 ++ [no_feature id]),
        acc'.2)
  else acc'.

(** [ResolvedPathways.__resolve_nodes_for_path(path_id, nodes)]. *)
Definition resolve_nodes_for_path (self : FeatureMap) (path_id : string)
    (nodes : list string) (st : state) : list string * state :=
  let acc := fold_left (resolve_node self path_id) nodes (st, []) in
  (acc.2, acc.1).

(** How often [node_id] is in [ids]. *)
Definition times_in (node_id : string) (ids : list string) : nat :=
  length (filter (fun x => x = node_id) ids).

Lemma times_in_app (node_id : string) (a b : list string) :
  times_in node_id (a ++ b) = times_in node_id a + times_in node_id b.
Proof. unfold times_in. by rewrite filter_app, length_app. Qed.

Lemma dget_default_dset (k k' : string) (v : list string) (d : dict string (list string)) :
  dget_default k' [] (dset k v d) = if decide (k = k') then v else dget_default k' [] d.
Proof. unfold dget_default. rewrite dget_dset. by destruct (decide (k = k')). Qed.

Lemma feature_ids_fold (self : FeatureMap) (ids : list string) :
  ∀ acc, fold_left (fun feature_ids id => feature_ids ++ map feature_id (features self id))
           ids acc =
         acc ++ feature_ids self ids.
Proof.
  unfold feature_ids. induction ids as [|id ids IH]; intros acc; simpl.
  - by rewrite app_nil_r.
  - rewrite IH, (IH (map _ _)). by rewrite app_assoc.
Qed.

Lemma resolve_features (path_id : string) (fs : list Feature) :
  ∀ acc,
    let acc' := fold_left (resolve_feature path_id) fs acc in
    acc'.2 = acc.2 ++ map feature_id fs ∧
    warnings acc'.1 = warnings acc.1 ∧
    ∀ node_id,
      dget_default node_id [] (node_paths acc'.1) =
        dget_default node_id [] (node_paths acc.1) ++
        replicate (times_in node_id (map feature_id fs)) path_id.
Proof.
  induction fs as [|f fs IH]; intros acc; simpl.
  - split_and!; [by rewrite app_nil_r|done|]. intros node_id. by rewrite app_nil_r.
  - destruct (IH (resolve_feature path_id acc f)) as (Hids & Hw & Hpaths).
    split_and!.
    + rewrite Hids. simpl. by rewrite <- app_assoc.
    + by rewrite Hw.
    + intros node_id. rewrite Hpaths. simpl. rewrite dget_default_dset.
      unfold times_in. rewrite filter_cons.
      destruct (decide (feature_id f = node_id)) as [->|Hne]; [|done].
      simpl. by rewrite <- app_assoc.
Qed.

Lemma resolve_nodes (self : FeatureMap) (path_id : string) (nodes : list string) :
  ∀ acc,
    let acc' := fold_left (resolve_node self path_id) nodes acc in
    acc'.2 = acc.2 ++ feature_ids self nodes ∧
    warnings acc'.1 =
      warnings acc.1 ++
      map no_feature (filter (fun id => features self id = []) nodes) ∧
    ∀ node_id,
      dget_default node_id [] (node_paths acc'.1) =
        dget_default node_id [] (node_paths acc.1) ++
        replicate (times_in node_id (feature_ids self nodes)) path_id.
Proof.
  induction nodes as [|id nodes IH]; intros acc; simpl.
  - split_and!; [by rewrite app_nil_r..|]. intros node_id. by rewrite app_nil_r.
  - destruct (IH (resolve_node self path_id acc id)) as (Hids & Hw & Hpaths).
    destruct (resolve_features path_id (features self id) acc) as (Hids1 & Hw1 & Hpaths1).
    assert (Hfold : feature_ids self (id :: nodes) =
                    map feature_id (features self id) ++ feature_ids self nodes).
    { unfold feature_ids at 1. simpl. apply feature_ids_fold. }
    assert (Hnode : (resolve_node self path_id acc id).2 =
                      acc.2 ++ map feature_id (features self id) ∧
                    node_paths (resolve_node self path_id acc id).1 =
                      node_paths (fold_left (resolve_feature path_id) (features self id) acc).1 ∧
                    warnings (resolve_node self path_id acc id).1 =
                      warnings acc.1 ++
                      (if decide (features self id = []) then [no_feature id] else [])).
    { unfold resolve_node. destruct (features self id) as [|f fs] eqn:Hfs.
      - simpl. by rewrite app_nil_r.
      - rewrite decide_False by done. rewrite decide_False by done.
        split_and!; [done..|]. by rewrite Hw1, app_nil_r. }
    destruct Hnode as (Hn1 & Hn2 & Hn3).
    split_and!.
    + rewrite Hids, Hn1, Hfold. by rewrite <- app_assoc.
    + rewrite Hw, Hn3, filter_cons.
      destruct (decide (features self id = [])); simpl; by rewrite <- app_assoc.
    + intros node_id. rewrite Hpaths, Hn2, Hpaths1, Hfold, times_in_app.
      by rewrite replicate_add, <- app_assoc.
Qed.

(** The node ids that [__resolve_nodes_for_path] returns are those that
    [feature_ids] gives for the same nodes, in the same order.  The path
    is added to the paths of a node id once for every time the id is
    returned, and a warning is logged for every node, and only for those,
    that no feature resolves. *)
Theorem resolved_nodes_are_feature_ids (self : FeatureMap) (path_id : string)
    (nodes : list string) (st : state) :
  (resolve_nodes_for_path self path_id nodes st).1 = feature_ids self nodes ∧
  warnings (resolve_nodes_for_path self path_id nodes st).2 =
    warnings st ++ map no_feature (filter (fun id => features self id = []) nodes) ∧
  ∀ node_id,
    dget_default node_id [] (node_paths (resolve_nodes_for_path self path_id nodes st).2) =
      dget_default node_id [] (node_paths st) ++
      replicate (times_in node_id (feature_ids self nodes)) path_id.
Proof.
  unfold resolve_nodes_for_path. cbn [fst snd].
  destruct (resolve_nodes self path_id nodes (st, [])) as (Hids & Hw & Hpaths).
  split_and!; done.
Qed.

End ResolvedPathways.

(** ** Lines and nerves of the pathways layer ([Pathways.add_line_or_nerve]) *)

Module LineOrNerve.
Import Pathways.

(** [s.endswith(suffix)]. *)
Definition endswith (s suffix : string) : bool :=
  let n := String.length s in
  let m := String.length suffix in
  (m <=? n) && String.eqb (String.substring (n - m) m s) suffix.

(** [self.__layer_paths.add(path_id)], the set as the list of its elements. *)
Definition set_add (path_id : string) (layer_paths : list string) : list string :=
  if decide (path_id ∈ layer_paths) then layer_paths else layer_paths ++ [path_id].

(** The properties of a line of the path [path_id]. *)
Definition line_properties (self : pathways) (connectivity_by_path : dict string (option string))
    (path_id : string) : dict string string :=
  let properties :=
    match dget path_id (types_by_path_id self) with
    | Some kind =>
        dset "type" (if endswith kind "-post" then "line-dash" else "line")
             (dset "kind" kind [])
    | None => dset "type" "line" []
    end in
  let properties :=
    match dget path_id (path_models self) with
    | Some models => dset "models" models properties
    | None => properties
    end in
  match dget path_id connectivity_by_path with
  | Some (Some source) => dset "source" source properties
  | _ => properties
  end.

(** [Pathways.add_line_or_nerve(id_or_class)]: the properties returned and
    [self.__layer_paths].  [connectivity_by_path] gives the [source] of the
    connectivity model of a path. *)
Definition add_line_or_nerve (self : pathways)
    (connectivity_by_path : dict string (option string)) (layer_paths : list string)
    (id_or_class : string) : result (dict string string * list string) :=
  match dget id_or_class (paths_by_line_id self) with
  | Some paths =>
      match head paths with
      | None => Raise IndexError
      | Some path_id =>
          Ok (dset "tile-layer" "pathways" (line_properties self connectivity_by_path path_id),
              set_add path_id layer_paths)
      end
  | None =>
      match dget id_or_class (paths_by_nerve_id self) with
      | Some paths =>
          match head paths with
          | None => Raise IndexError
          | Some path_id =>
              Ok (dset "tile-layer" "pathways" (dset "type" "nerve" []),
                  set_add path_id layer_paths)
          end
      | None => Ok ([], layer_paths)
      end
  end.

(** No id of [index] has an empty list of paths. *)
Definition indexed (index : dict string (list string)) : Prop :=
  ∀ id paths, dget id index = Some paths → paths ≠ [].

Lemma index_paths_indexed (by_path index : dict string (list string)) :
  indexed index → indexed (index_paths by_path index).
Proof.
  unfold index_paths. revert index. induction by_path as [|[path_id ids] by_path IH];
    intros index Hindex; simpl; [done|].
  apply IH. clear IH. revert index Hindex.
  induction ids as [|id ids IH]; intros index Hindex; simpl; [done|].
  apply IH. intros id' paths. rewrite dget_dset.
  destruct (decide (id = id')); [|apply Hindex].
  intros [= <-]. by destruct (dget_default id [] index).
Qed.

Lemma line_properties_type (self : pathways)
    (connectivity_by_path : dict string (option string)) (path_id : string) :
  ∃ type, dget "type" (line_properties self connectivity_by_path path_id) = Some type ∧
          (type = "line" ∨ type = "line-dash").
Proof.
  unfold line_properties.
  set (base := match dget path_id (types_by_path_id self) with
               | Some kind => _ | None => _ end).
  assert (Hbase : ∃ type, dget "type" base = Some type ∧ (type = "line" ∨ type = "line-dash")).
  { unfold base. destruct (dget path_id (types_by_path_id self)) as [kind|].
    - destruct (endswith kind "-post"); eexists; split; [reflexivity|auto..].
    - eexists. split; [reflexivity|auto]. }
  destruct Hbase as (type & Htype & Hkind). exists type. split; [|done].
  destruct (dget path_id connectivity_by_path) as [[source|]|],
           (dget path_id (path_models self)) as [models|];
    rewrite ?dget_dset_ne by done; done.
Qed.

Section Registered.
Variable id_init : ascii → bool.
Variable id_body : ascii → bool.

Lemma extend_loop_index (paths_list : list path_decl) :
  ∀ self loc r self' loc',
    extend_loop id_init id_body self loc paths_list = (r, self', loc') →
    paths_by_line_id self' = paths_by_line_id self ∧
    paths_by_nerve_id self' = paths_by_nerve_id self.
Proof.
  induction paths_list as [|path paths_list IH]; intros self loc r self' loc'; simpl.
  - by intros [= _ <- _].
  - destruct (extend_one id_init id_body self loc path) as [[r1 self1] loc1] eqn:Hone.
    assert (Hsame : paths_by_line_id self1 = paths_by_line_id self ∧
                    paths_by_nerve_id self1 = paths_by_nerve_id self).
    { unfold extend_one in Hone. repeat case_match; simplify_eq; done. }
    destruct r1; [|by intros [= _ <- _]..].
    intros Hrest. destruct (IH _ _ _ _ _ Hrest) as [H1 H2]. destruct Hsame. split; congruence.
Qed.

(** On a [Pathways] object that [__extend_pathways] has extended, whether
    that call returned or raised, [add_line_or_nerve] never raises: the
    lists of paths it takes the first entry of are never empty.  The
    properties it returns have a ['type'] exactly when they have the
    ['tile-layer'] ['pathways'], which is exactly when the id is that of a
    line or of a nerve; otherwise they are empty and the layer paths are as
    they were.  A line id is never given the type ['nerve'], and no path
    leaves the layer paths. *)
Theorem line_or_nerve_never_raises (self self' : pathways) (paths_list : list path_decl)
    (r : result unit) (connectivity_by_path : dict string (option string))
    (layer_paths : list string) (id_or_class : string) :
  indexed (paths_by_line_id self) → indexed (paths_by_nerve_id self) →
  extend_pathways id_init id_body self paths_list = (r, self') →
  ∃ properties layer_paths',
    add_line_or_nerve self' connectivity_by_path layer_paths id_or_class =
      Ok (properties, layer_paths') ∧
    (∀ path_id, path_id ∈ layer_paths → path_id ∈ layer_paths') ∧
    match dget "type" properties with
    | Some type =>
        dget "tile-layer" properties = Some "pathways" ∧
        (dmem id_or_class (paths_by_line_id self') = true ∧
           (type = "line" ∨ type = "line-dash") ∨
         dmem id_or_class (paths_by_line_id self') = false ∧
           dmem id_or_class (paths_by_nerve_id self') = true ∧ type = "nerve")
    | None =>
        properties = [] ∧ layer_paths' = layer_paths ∧
        dmem id_or_class (paths_by_line_id self') = false ∧
        dmem id_or_class (paths_by_nerve_id self') = false
    end.
Proof.
  intros Hlines Hnerves Hrun.
  assert (Hindexed : indexed (paths_by_line_id self') ∧ indexed (paths_by_nerve_id self')).
  { unfold extend_pathways in Hrun.
    destruct (extend_loop id_init id_body self ([], []) paths_list) as [[r1 self1] loc1] eqn:Hloop.
    destruct (extend_loop_index _ _ _ _ _ _ Hloop) as [H1 H2].
    destruct r1; injection Hrun as <- <-; simpl; rewrite ?H1, ?H2;
      try (split; by apply index_paths_indexed); done. }
  destruct Hindexed as [Hl Hn].
  assert (Hadd : ∀ path_id p, p ∈ layer_paths → p ∈ set_add path_id layer_paths).
  { intros path_id p Hp. unfold set_add. destruct (decide _); [done|].
    apply elem_of_app. by left. }
  unfold add_line_or_nerve, dmem.
  destruct (dget id_or_class (paths_by_line_id self')) as [paths|] eqn:Hline.
  - destruct paths as [|path_id paths]; [by destruct (Hl _ _ Hline)|]. simpl.
    eexists _, _. split; [done|]. split; [apply Hadd|].
    destruct (line_properties_type self' connectivity_by_path path_id) as (type & Ht & Hk).
    rewrite dget_dset_ne by done. rewrite Ht. split; [apply dget_dset_eq|]. left.
    split; [by_decision|done].
  - destruct (dget id_or_class (paths_by_nerve_id self')) as [paths|] eqn:Hnerve.
    + destruct paths as [|path_id paths]; [by destruct (Hn _ _ Hnerve)|]. simpl.
      eexists _, _. split; [done|]. split; [apply Hadd|]. simpl.
      split; [done|]. right. split_and!; [done|by_decision|done].
    + eexists _, _. split; [done|]. split; [done|]. simpl. by split_and!.
Qed.

End Registered.

End LineOrNerve.

(** One path, with the line [l1] and a route from [a] to [b]. *)
Definition one_path : list Pathways.path_decl :=
  [Pathways.mkPath "p1" (Some (Pathways.LinesStr "l1")) (Some (Pathways.RouteStr "a, b"))
     None (Some "symp-post") None].

Example one_path_registered :
  (Pathways.extend_pathways Pathways.alphanum Pathways.id_char PathwaysFacts.no_pathways one_path).1 = Ok () ∧
  LineOrNerve.add_line_or_nerve
    (Pathways.extend_pathways Pathways.alphanum Pathways.id_char PathwaysFacts.no_pathways one_path).2
    [] [] "l1" =
    Ok ([("kind", "symp-post"); ("type", "line-dash"); ("tile-layer", "pathways")], ["p1"]).
Proof. split; vm_compute; reflexivity. Qed.

Lemma line_or_nerve_never_raises_witness :
  ∃ properties layer_paths',
    LineOrNerve.add_line_or_nerve
      (Pathways.extend_pathways Pathways.alphanum Pathways.id_char PathwaysFacts.no_pathways one_path).2
      [] [] "l1" = Ok (properties, layer_paths') ∧
    (∀ path_id, path_id ∈ [] → path_id ∈ layer_paths') ∧
    match dget "type" properties with
    | Some type =>
        dget "tile-layer" properties = Some "pathways" ∧
        (dmem "l1" (Pathways.paths_by_line_id
                      (Pathways.extend_pathways Pathways.alphanum Pathways.id_char PathwaysFacts.no_pathways
                         one_path).2) = true ∧
           (type = "line" ∨ type = "line-dash") ∨
         dmem "l1" (Pathways.paths_by_line_id
                      (Pathways.extend_pathways Pathways.alphanum Pathways.id_char PathwaysFacts.no_pathways
                         one_path).2) = false ∧
           dmem "l1" (Pathways.paths_by_nerve_id
                        (Pathways.extend_pathways Pathways.alphanum Pathways.id_char PathwaysFacts.no_pathways
                           one_path).2) = true ∧ type = "nerve")
    | None =>
        properties = [] ∧ layer_paths' = [] ∧
        dmem "l1" (Pathways.paths_by_line_id
                     (Pathways.extend_pathways Pathways.alphanum Pathways.id_char PathwaysFacts.no_pathways
                        one_path).2) = false ∧
        dmem "l1" (Pathways.paths_by_nerve_id
                     (Pathways.extend_pathways Pathways.alphanum Pathways.id_char PathwaysFacts.no_pathways
                        one_path).2) = false
    end.
Proof.
  apply (LineOrNerve.line_or_nerve_never_raises Pathways.alphanum Pathways.id_char PathwaysFacts.no_pathways
           (Pathways.extend_pathways Pathways.alphanum Pathways.id_char PathwaysFacts.no_pathways one_path).2
           one_path
           (Pathways.extend_pathways Pathways.alphanum Pathways.id_char PathwaysFacts.no_pathways one_path).1
           [] [] "l1").
  - intros id paths. discriminate.
  - intros id paths. discriminate.
  - reflexivity.
Defined.

(** A route between the two nodes of [Meeting.pair], with a terminal [t]
    at [m]: the route graph is the second graph of the store, with three
    nodes, and the edge to [t] has the type ['terminal']. *)
Example route_graph_of_pair :
  let self := mkNetwork (Some "net") 0 ["E"] [] [] (Some Flat.one_feature) in
  let run := route_graph_from_connections 1%float self
               [ConnNode "n"; ConnDict (Some "m") (Some ["t"])] Meeting.yard in
  run.1 = Ok 1 ∧
  (nx.nodes <$> graphs run.2 !! 1) = Some ["n"; "m"; "t"] ∧
  (l ← (g ← graphs run.2 !! 1; nx.edge_loc g "m" "t"); heap run.2 !! l) =
    Some [("type", VStr "terminal")].
Proof. vm_compute. done. Qed.

(** ** When [get_connected_subgraph] returns *)

Section SubgraphReturns.

Lemma chain_suffix (g : Graph) (l1 l : list node) : chain g (l1 ++ l) → chain g l.
Proof.
  induction l1 as [|a l1 IH]; [done|]. intros [_ Hc]. by apply IH.
Qed.

Lemma chain_cons (g : Graph) (a b : node) (p : list node) :
  adjacent g a b → head p = Some b → chain g p → chain g (a :: p).
Proof. intros Hab Hh Hc. destruct p as [|x p]; [done|]. injection Hh as ->. by split. Qed.

Lemma chain_snoc_inv (g : Graph) (q : list node) (y : node) :
  q ≠ [] → chain g (q ++ [y]) →
  chain g q ∧ ∃ x, last q = Some x ∧ adjacent g x y.
Proof.
  induction q as [|a q IH]; [done|]. intros _ Hc. destruct q as [|b q].
  - destruct Hc as [Hay _]. split; [done|]. by exists a.
  - destruct Hc as [Hab Hc]. destruct IH as [Hq (x & Hl & Hxy)]; [done|done|].
    split; [by split|]. by exists x.
Qed.

(** The walks of [k] edges are the chains of [k + 1] nodes. *)
Lemma walks_complete (g : Graph) (source : node) (k : nat) :
  ∀ p, length p = S k → head p = Some source → chain g p → p ∈ nx.walks g k source.
Proof.
  induction k as [|k IH]; intros p Hlen Hh Hc.
  - destruct p as [|x [|? ?]]; try done. injection Hh as ->. simpl. left.
  - destruct (last p) as [y|] eqn:Hl.
    2: { apply last_None in Hl. by subst. }
    apply last_Some in Hl as [q ->]. rewrite length_app in Hlen. simpl in Hlen.
    assert (Hq : q ≠ []) by (intros ->; simpl in Hlen; lia).
    destruct (chain_snoc_inv g q y Hq Hc) as [Hcq (x & Hlq & Hxy)].
    simpl. apply list_elem_of_In, in_flat_map. exists q. split.
    + apply list_elem_of_In, IH; [lia| |done]. by destruct q.
    + rewrite Hlq. apply in_map_iff. exists y. split; [done|].
      apply list_elem_of_In. by apply dmem_keys.
Qed.

Lemma rtc_chain (g : Graph) (s t : node) :
  rtc (adjacent g) s t → ∃ p, head p = Some s ∧ last p = Some t ∧ chain g p.
Proof.
  induction 1 as [x|x y z Hxy _ (p & Hh & Hl & Hc)].
  - by exists [x].
  - exists (x :: p). split_and!; [done| |by apply (chain_cons g x y)].
    destruct p; [done|]. done.
Qed.

(** A chain can be cut down to one that visits no node twice. *)
Lemma chain_nodup (g : Graph) (p : list node) :
  ∀ s t, head p = Some s → last p = Some t → chain g p →
    ∃ q, head q = Some s ∧ last q = Some t ∧ chain g q ∧ NoDup q.
Proof.
  induction p as [|a p IH]; intros s t Hh Hl Hc; [done|].
  injection Hh as ->. destruct p as [|b p].
  - exists [s]. split_and!; [done..|]. apply NoDup_singleton.
  - destruct Hc as [Hab Hc].
    destruct (IH b t) as (q & Hhq & Hlq & Hcq & Hnd); [done..|].
    destruct (decide (s ∈ q)) as [Hin|Hin].
    + apply list_elem_of_split in Hin as (l1 & l2 & ->).
      exists (s :: l2). split_and!; [done| |by apply (chain_suffix g l1)|].
      * by rewrite last_app_cons in Hlq.
      * apply NoDup_app in Hnd. apply Hnd.
    + exists (s :: q). split_and!; [done| |by apply (chain_cons g s b)|by constructor].
      destruct q; [done|]. done.
Qed.

Lemma shortest_from_finds (g : Graph) (source target : node) (fuel : nat) :
  ∀ k0 k p, k0 ≤ k < k0 + fuel → p ∈ nx.walks g k source → last p = Some target →
    ∃ paths, nx.shortest_from g source target fuel k0 = Some paths.
Proof.
  induction fuel as [|fuel IH]; intros k0 k p Hk Hp Hl; [lia|]. simpl.
  destruct (filter _ _) as [|p0 ps] eqn:Hf; [|by eexists].
  apply (IH (S k0) k p); [|done..].
  destruct (decide (k = k0)) as [->|]; [|lia].
  assert (Hin : p ∈ filter (fun p => nx.ends_at target p) (nx.walks g k0 source)).
  { apply list_elem_of_filter. split; [|done]. unfold nx.ends_at.
    by apply bool_decide_pack. }
  rewrite Hf in Hin. by apply elem_of_nil in Hin.
Qed.

Lemma all_shortest_paths_returns (g : Graph) (source target : node) :
  well_formed g → nx.has_node g source = true → rtc (adjacent g) source target →
  ∃ paths, nx.all_shortest_paths g source target = Ok paths.
Proof.
  intros Hwf Hs Hreach. destruct (rtc_chain g _ _ Hreach) as (p & Hh & Hl & Hc).
  destruct (chain_nodup g p _ _ Hh Hl Hc) as (q & Hhq & Hlq & Hcq & Hnd).
  destruct q as [|a q]; [done|]. injection Hhq as ->.
  assert (Hlen : length (source :: q) ≤ length (nx.nodes g)).
  { apply submseteq_length, NoDup_submseteq; [done|]. intros x Hx.
    apply has_node_keys. by apply (chain_nodes g q Hwf source). }
  destruct (shortest_from_finds g source target (length (nx.nodes g)) 0 (length q)
              (source :: q)) as [paths Hpaths]; [simpl in Hlen; lia| |done|].
  { by apply walks_complete. }
  exists paths. unfold nx.all_shortest_paths. by rewrite Hs, Hpaths.
Qed.

Lemma connecting_nodes_ok (g : Graph) (pairs : list (node * node)) :
  (∀ s t, (s, t) ∈ pairs → ∃ paths, nx.all_shortest_paths g s t = Ok paths) →
  ∀ vpp, ∃ vpp', connecting_nodes g pairs vpp = Ok vpp'.
Proof.
  induction pairs as [|[s t] pairs IH]; intros Hall vpp; simpl; [by eexists|].
  destruct (Hall s t) as [paths ->]; [left|]. simpl.
  apply IH. intros s' t' Hin. apply Hall. by right.
Qed.

(** When the vertices asked for are nodes of a graph with symmetric
    adjacency, and any two of them are joined by a chain of edges,
    [get_connected_subgraph] returns a graph: the search for the shortest
    paths looks at walks of fewer edges than the graph has nodes, and that
    is enough. *)
Theorem connected_subgraph_returns (g : Graph) (v_prime : list node) :
  well_formed g →
  (∀ v, v ∈ v_prime → nx.has_node g v = true) →
  (∀ u v, u ∈ v_prime → v ∈ v_prime → rtc (adjacent g) u v) →
  ∃ g', get_connected_subgraph g v_prime = Ok g'.
Proof.
  intros Hwf Hnodes Hreach. unfold get_connected_subgraph.
  destruct (connecting_nodes_ok g (combinations2 v_prime)) with (vpp := @nil node)
    as [vpp ->]; [|by eexists].
  intros s t Hst. destruct (combinations2_elems _ _ _ Hst) as [Hs Ht].
  apply all_shortest_paths_returns; auto.
Qed.

End SubgraphReturns.

Lemma connected_subgraph_returns_witness :
  ∃ g', get_connected_subgraph two_lines_graph ["n1"; "n3"] = Ok g'.
Proof.
  apply (connected_subgraph_returns two_lines_graph ["n1"; "n3"]).
  - exact two_lines_graph_well_formed.
  - intros v Hv. apply elem_of_cons in Hv as [->|Hv]; [reflexivity|].
    apply list_elem_of_singleton in Hv as ->. reflexivity.
  - assert (H13 : rtc (adjacent two_lines_graph) "n1" "n3").
    { apply (rtc_l _ _ "n2"); [reflexivity|]. apply (rtc_l _ _ "n3"); [reflexivity|done]. }
    assert (H31 : rtc (adjacent two_lines_graph) "n3" "n1").
    { apply (rtc_l _ _ "n2"); [reflexivity|]. apply (rtc_l _ _ "n1"); [reflexivity|done]. }
    intros u v Hu Hv.
    apply elem_of_cons in Hu as [->|Hu]; [|apply list_elem_of_singleton in Hu as ->];
      (apply elem_of_cons in Hv as [->|Hv]; [|apply list_elem_of_singleton in Hv as ->]);
      done.
Defined.
